(** * version-track: the record-merge of [getUpdatedPackageObject]

    A shallow embedding of [getUpdatedPackageObject] of src/index.js (the
    variant that takes [{source, log}], lines 438-517) and of the JavaScript
    data it works on: strings as sequences of UTF-16 code units, JSON values,
    objects as property lists kept in own-property order, [JSON.stringify],
    [String.prototype.trim], the replacement of ANSI escape sequences, and
    [spawnSync] as an oracle whose calls are recorded in a trace.

    Objects are modelled by their own properties.  The members inherited
    from [Object.prototype] enter where the program can meet them: when a
    property is read under a name that comes from the input (the project
    version in the log), when a value becomes a property key (the name of a
    trackable), and when the name [__proto__] is assigned to.  The log maps
    versions to arrays of records, and [source] is an object.

    Further parts of src/index.js are embedded after that: the merge for a
    log of any JSON values, the search for package.json ([walkUp] and
    [getPathToPackageJson], lines 601-619), the handling of the command
    line (lines 628-655), and the probing loops and the merge of the two
    earlier variants of [getUpdatedPackageObject] (lines 47-106 and
    268-305). *)

From Stdlib Require Import Ascii String List NArith ZArith Bool Lia.
Import ListNotations.

(* ------------------------------------------------------------------ *)
(** ** Strings *)

(** A JavaScript string is a sequence of UTF-16 code units. *)
Definition jsstring := list N.

(** The code units of a literal (ASCII or Latin-1). *)
Definition js (s : string) : jsstring :=
  List.map N_of_ascii (list_ascii_of_string s).

Fixpoint str_eqb (a b : jsstring) : bool :=
  match a, b with
  | [], [] => true
  | x :: a', y :: b' => N.eqb x y && str_eqb a' b'
  | _, _ => false
  end.

(** [x.includes(s)] on an array of strings. *)
Definition includes (l : list jsstring) (s : jsstring) : bool :=
  existsb (str_eqb s) l.

Definition is_digit (c : N) : bool := (48 <=? c)%N && (c <=? 57)%N.

(** White space and line terminators, the code units [trim] removes. *)
Definition is_white_space (c : N) : bool :=
  existsb (N.eqb c)
    [9; 10; 11; 12; 13; 32; 160; 5760; 8232; 8233; 8239; 8287; 12288; 65279]%N
  || ((8192 <=? c)%N && (c <=? 8202)%N).

Fixpoint trimStart (s : jsstring) : jsstring :=
  match s with
  | c :: t => if is_white_space c then trimStart t else s
  | [] => []
  end.

(** [String.prototype.trim]. *)
Definition trim (s : jsstring) : jsstring :=
  rev (trimStart (rev (trimStart s))).

(* ------------------------------------------------------------------ *)
(** ** Array indices

    A property key is an array index when it is the canonical decimal form
    of an integer between 0 and 2^32 - 2.  Such keys are listed before all
    other keys of an object, in ascending numeric order. *)

Fixpoint digits_value (acc : N) (s : jsstring) : N :=
  match s with
  | [] => acc
  | c :: t => digits_value (10 * acc + (c - 48))%N t
  end.

Definition canonical_digits (s : jsstring) : bool :=
  match s with
  | [] => false
  | c :: t =>
      forallb is_digit s
      && (negb (c =? 48)%N || match t with [] => true | _ => false end)
  end.

Definition array_index (s : jsstring) : option N :=
  if canonical_digits s then
    let n := digits_value 0 s in
    if (n <? 4294967295)%N then Some n else None
  else None.

Definition is_index (s : jsstring) : bool :=
  match array_index s with Some _ => true | None => false end.

(** Digits without a leading zero; the empty string counts. *)
Definition no_leading_zero (s : jsstring) : Prop :=
  forallb is_digit s = true /\
  match s with c :: _ => c <> 48%N | [] => True end.

(* ------------------------------------------------------------------ *)
(** ** Objects

    An object is the list of its own properties in the order in which
    JavaScript enumerates them ([JSON.stringify], spread, [for ... in]):
    array-index keys in ascending numeric order, then the other keys in
    the order of their creation. *)

Definition jsobj (V : Type) := list (jsstring * V).

Section Objects.
Context {V : Type}.

Definition keys (o : jsobj V) : list jsstring := List.map fst o.

(** [o[k]]; [None] is [undefined]. *)
Fixpoint obj_get (o : jsobj V) (k : jsstring) : option V :=
  match o with
  | [] => None
  | (k', x) :: t => if str_eqb k' k then Some x else obj_get t k
  end.

Definition obj_has (o : jsobj V) (k : jsstring) : bool :=
  match obj_get o k with Some _ => true | None => false end.

(** Assignment to an existing property keeps its place. *)
Fixpoint obj_replace (k : jsstring) (x : V) (o : jsobj V) : jsobj V :=
  match o with
  | [] => []
  | (k', x') :: t =>
      if str_eqb k' k then (k', x) :: t else (k', x') :: obj_replace k x t
  end.

(** A new array-index key goes before the first greater index, and before
    every key that is not an index. *)
Fixpoint obj_insert_index (i : N) (k : jsstring) (x : V) (o : jsobj V)
  : jsobj V :=
  match o with
  | [] => [(k, x)]
  | (k', x') :: t =>
      match array_index k' with
      | Some j =>
          if (j <? i)%N then (k', x') :: obj_insert_index i k x t
          else (k, x) :: o
      | None => (k, x) :: o
      end
  end.

(** [o[k] = x]. *)
Definition obj_set (o : jsobj V) (k : jsstring) (x : V) : jsobj V :=
  if obj_has o k then obj_replace k x o
  else match array_index k with
       | Some i => obj_insert_index i k x o
       | None => o ++ [(k, x)]
       end.

(** [delete o[k]]. *)
Fixpoint obj_delete (k : jsstring) (o : jsobj V) : jsobj V :=
  match o with
  | [] => []
  | (k', x) :: t =>
      if str_eqb k' k then obj_delete k t else (k', x) :: obj_delete k t
  end.

(** The properties of [src] are defined on [target] one after the other,
    in the property order of [src]: the [...src] of an object literal. *)
Definition obj_assign (target src : jsobj V) : jsobj V :=
  fold_left (fun acc kx => obj_set acc (fst kx) (snd kx)) src target.

(** The one-property literal [{[k]: x}]. *)
Definition obj_literal1 (k : jsstring) (x : V) : jsobj V := obj_set [] k x.

(** The shallow copy [{...o}]. *)
Definition obj_spread (o : jsobj V) : jsobj V := obj_assign [] o.

(** A list is the property list of an object when its array-index keys
    come first and increase, and no other key occurs twice. *)
Fixpoint names_ok (o : jsobj V) : bool :=
  match o with
  | [] => true
  | (k, _) :: t => negb (is_index k) && negb (obj_has t k) && names_ok t
  end.

Fixpoint property_order (o : jsobj V) : bool :=
  match o with
  | [] => true
  | (k, _) :: t =>
      match array_index k with
      | None => names_ok o
      | Some i =>
          match t with
          | (k', _) :: _ =>
              match array_index k' with
              | Some j => (i <? j)%N
              | None => true
              end
          | [] => true
          end && property_order t
      end
  end.

End Objects.

(* ------------------------------------------------------------------ *)
(** ** JSON values and [JSON.stringify]

    [source] and the records of the log are JSON data.  A number is kept as
    the text JavaScript prints for it, which is all this program can observe
    of a number. *)

#[local] Unset Elimination Schemes.
Inductive JSON : Type :=
| JNull
| JBool (b : bool)
| JNum (repr : jsstring)
| JStr (s : jsstring)
| JArr (items : list JSON)
| JObj (props : list (jsstring * JSON)).
#[local] Set Elimination Schemes.

Definition hex_digit (d : N) : N := (if d <? 10 then 48 + d else 87 + d)%N.

(** [\uXXXX], with lower-case digits. *)
Definition unicode_escape (c : N) : jsstring :=
  [92; 117; hex_digit (c / 4096 mod 16); hex_digit (c / 256 mod 16);
   hex_digit (c / 16 mod 16); hex_digit (c mod 16)]%N.

Definition is_high_surrogate (c : N) : bool := (55296 <=? c)%N && (c <=? 56319)%N.
Definition is_low_surrogate (c : N) : bool := (56320 <=? c)%N && (c <=? 57343)%N.

Definition quote_unit (c : N) : jsstring :=
  (if c =? 8 then [92; 98]
   else if c =? 9 then [92; 116]
   else if c =? 10 then [92; 110]
   else if c =? 12 then [92; 102]
   else if c =? 13 then [92; 114]
   else if c =? 34 then [92; 34]
   else if c =? 92 then [92; 92]
   else if (c <? 32) || is_high_surrogate c || is_low_surrogate c
        then unicode_escape c
   else [c])%N.

Fixpoint quote_units (s : jsstring) : jsstring :=
  match s with
  | [] => []
  | c :: t =>
      if is_high_surrogate c then
        match t with
        | d :: t' =>
            if is_low_surrogate d then c :: d :: quote_units t'
            else quote_unit c ++ quote_units t
        | [] => quote_unit c
        end
      else quote_unit c ++ quote_units t
  end.

(** [QuoteJSONString]. *)
Definition quote (s : jsstring) : jsstring := [34%N] ++ quote_units s ++ [34%N].

Fixpoint join (sep : jsstring) (l : list jsstring) : jsstring :=
  match l with
  | [] => []
  | x :: t => x ++ match t with [] => [] | _ => sep ++ join sep t end
  end.

(** [JSON.stringify(j)] without indentation. *)
Fixpoint JSON_stringify (j : JSON) : jsstring :=
  match j with
  | JNull => js "null"
  | JBool true => js "true"
  | JBool false => js "false"
  | JNum repr => repr
  | JStr s => quote s
  | JArr items => js "[" ++ join (js ",") (List.map JSON_stringify items) ++ js "]"
  | JObj props =>
      js "{"
      ++ join (js ",")
           (List.map (fun kv => match kv with
                                | (k, v) => quote k ++ js ":" ++ JSON_stringify v
                                end) props)
      ++ js "}"
  end.

(** [String(j)], as used when a value becomes a property key or an
    argument of a process; the result is [None] when the conversion throws
    a [TypeError].  An element of an array that is [null] is printed as the
    empty string.  An object is converted by its method [toString]: the
    inherited one gives [[object Object]]; an own property of that name
    hides it and, being JSON data, cannot be called, and then nothing
    converts the object. *)
Fixpoint to_string (j : JSON) : option jsstring :=
  match j with
  | JNull => Some (js "null")
  | JBool true => Some (js "true")
  | JBool false => Some (js "false")
  | JNum repr => Some repr
  | JStr s => Some s
  | JArr items =>
      option_map (join (js ","))
        ((fix elements (l : list JSON) : option (list jsstring) :=
            match l with
            | [] => Some []
            | x :: t =>
                match match x with JNull => Some [] | _ => to_string x end,
                      elements t with
                | Some s, Some r => Some (s :: r)
                | _, _ => None
                end
            end) items)
  | JObj props =>
      if obj_has props (js "toString") then None
      else Some (js "[object Object]")
  end.

(** The property key a value read from a JSON object turns into; the
    argument [None] is [undefined], the result [None] a [TypeError]. *)
Definition to_property_key (x : option JSON) : option jsstring :=
  match x with
  | None => Some (js "undefined")
  | Some j => to_string j
  end.

(** [j[k]] on a value that is not [null]: only objects have properties of
    the names read here, which are fixed names that [Object.prototype] does
    not have. *)
Definition prop (j : JSON) (k : jsstring) : option JSON :=
  match j with
  | JObj props => obj_get props k
  | _ => None
  end.

(* ------------------------------------------------------------------ *)
(** ** The regular expression of the ANSI escape codes

    The expression of line 483 is, in sequence: one of the code units
    U+001B and U+009B; any number of the characters of [intro_class]; an
    optional group made of one to four digits followed by any number of
    groups of a semicolon and up to four digits; and one character of
    [final_class].  It is matched with backtracking: every quantifier is
    greedy and gives back what it took when the rest fails.  A matcher
    returns what is left of the input after the match. *)

Definition orelse {A : Type} (a b : option A) : option A :=
  match a with Some _ => a | None => b end.

(** The class of the characters [ ( ) # ; ? *)
Definition intro_class (c : N) : bool :=
  existsb (N.eqb c) [91; 40; 41; 35; 59; 63]%N.

(** The class 0-9 A-O R Z c f-n q r y = > < *)
Definition final_class (c : N) : bool :=
  is_digit c
  || ((65 <=? c)%N && (c <=? 79)%N)
  || ((102 <=? c)%N && (c <=? 110)%N)
  || existsb (N.eqb c) [82; 90; 99; 113; 114; 121; 61; 62; 60]%N.

Definition match_final (s : jsstring) : option jsstring :=
  match s with
  | c :: t => if final_class c then Some t else None
  | [] => None
  end.

(** Any number of [intro_class] characters, then [k]. *)
Fixpoint match_intro (s : jsstring) (k : jsstring -> option jsstring)
  : option jsstring :=
  match s with
  | c :: t => if intro_class c then orelse (match_intro t k) (k s) else k s
  | [] => k []
  end.

(** Inside a run of digits of which [n] more may be taken; after the run,
    any number of groups of a semicolon and up to four digits, then [k]. *)
Fixpoint match_params (n : nat) (s : jsstring)
  (k : jsstring -> option jsstring) {struct s} : option jsstring :=
  let after_digits :=
    match s with
    | c :: t => if (c =? 59)%N then orelse (match_params 4 t k) (k s) else k s
    | [] => k s
    end in
  match n, s with
  | S n', c :: t =>
      if is_digit c then orelse (match_params n' t k) after_digits
      else after_digits
  | _, _ => after_digits
  end.

(** A match of the whole expression at the start of [s]. *)
Definition match_ansi (s : jsstring) : option jsstring :=
  match s with
  | c :: s1 =>
      if (c =? 27)%N || (c =? 155)%N then
        match_intro s1 (fun s2 =>
          orelse
            match s2 with
            | d :: t => if is_digit d then match_params 3 t match_final else None
            | [] => None
            end
            (match_final s2))
      else None
  | [] => None
  end.

(** [s.replace(re, empty)] with the [g] flag: the matches are found from left to
    right and removed.  [skip] counts the code units of a match that are still
    to be dropped. *)
Fixpoint replace_ansi (skip : nat) (s : jsstring) : jsstring :=
  match s with
  | [] => []
  | c :: t =>
      match skip with
      | S n => replace_ansi n t
      | O =>
          match match_ansi s with
          | Some rest => replace_ansi (length t - length rest) t
          | None => c :: replace_ansi 0 t
          end
      end
  end.

Definition strip_ansi (s : jsstring) : jsstring := replace_ansi 0 s.

(* ------------------------------------------------------------------ *)
(** ** The prototype of an object

    An object written as a literal inherits the members of
    [Object.prototype].  Reading a property the object does not have gives
    the inherited member of that name, if there is one; all of them are
    functions, but for [__proto__], which reads as the prototype itself. *)

Definition Object_prototype_names : list jsstring :=
  [js "constructor"; js "__defineGetter__"; js "__defineSetter__";
   js "hasOwnProperty"; js "__lookupGetter__"; js "__lookupSetter__";
   js "isPrototypeOf"; js "propertyIsEnumerable"; js "toString";
   js "valueOf"; js "__proto__"; js "toLocaleString"].

(** [k] names a member of [Object.prototype]. *)
Definition inherited (k : jsstring) : bool :=
  includes Object_prototype_names k.

Definition proto_key : jsstring := js "__proto__".

(** An object that is assigned to under names taken from the input: its
    own properties, and whether its prototype is still
    [Object.prototype]. *)
Record object : Type := {
  inherits : bool;
  properties : jsobj JSON
}.

(** [{}] *)
Definition empty_object : object := {| inherits := true; properties := [] |}.

(** [o[k] = x].  The inherited [__proto__] is an accessor: assigning
    [null] to it removes the prototype, assigning an object replaces the
    prototype by that object, which inherits from [Object.prototype] in
    turn, and assigning anything else does nothing; no property is created.
    Every other assignment sets an own property: the other inherited
    members are writable data, and an object without prototype has no
    accessor. *)
Definition assign (o : object) (k : jsstring) (x : JSON) : object :=
  if str_eqb k proto_key && inherits o && negb (obj_has (properties o) k)
  then
    match x with
    | JNull => {| inherits := false; properties := properties o |}
    | _ => o
    end
  else {| inherits := inherits o; properties := obj_set (properties o) k x |}.

(* ------------------------------------------------------------------ *)
(** ** Effects: child processes and exceptions

    A computation may spawn processes and may throw.  The trace lists the
    spawned commands, oldest first. *)

Inductive exn : Type := TypeError.

Inductive completion (A : Type) : Type :=
| Returns (a : A)
| Throws (e : exn).
Arguments Returns {A} a.
Arguments Throws {A} e.

Definition Trace := list (jsstring * list JSON).

Definition M (A : Type) : Type := Trace -> completion A * Trace.

Definition ret {A : Type} (a : A) : M A := fun tr => (Returns a, tr).

Definition throw {A : Type} (e : exn) : M A := fun tr => (Throws e, tr).

(** A step that spawns nothing. *)
Definition lift {A : Type} (c : completion A) : M A := fun tr => (c, tr).

Definition bind {A B : Type} (c : M A) (k : A -> M B) : M B :=
  fun tr =>
    match c tr with
    | (Returns a, tr') => k a tr'
    | (Throws e, tr') => (Throws e, tr')
    end.

Declare Scope js_scope.
Delimit Scope js_scope with js.
Notation "x <- c ;; k" := (bind c (fun x => k))
  (at level 61, c at next level, right associativity) : js_scope.

(** [for (let x of items) state = body(x, state)]. *)
Fixpoint for_of {A S : Type} (items : list A) (body : A -> S -> M S) (s : S)
  : M S :=
  match items with
  | [] => ret s
  | x :: t => bind (body x s) (for_of t body)
  end.

(** What [spawnSync] returns: [status] is [null] when the process could not
    be started or was killed by a signal; the streams are [null] when the
    process could not be started. *)
Record SpawnSyncReturns : Type := {
  status : option Z;
  stdout : option jsstring;
  stderr : option jsstring
}.

Definition defaultTrackingInfo : list JSON :=
  [ JObj [(js "name", JStr (js "node"));
          (js "versionCommands", JArr [JArr [JStr (js "node"); JStr (js "--version")]])];
    JObj [(js "name", JStr (js "npm"));
          (js "versionCommands", JArr [JArr [JStr (js "npm"); JStr (js "-v")]])];
    JObj [(js "name", JStr (js "git"));
          (js "versionCommands", JArr [JArr [JStr (js "git"); JStr (js "--version")]])] ].

(** Lines 494-516: the record [versionEntry] is added to the log under
    [projectVersion] unless a record of that bucket has the same
    serialization, and the log is rebuilt with [projectVersion] defined
    first.  The value is the log returned; the array that [unshift] extends
    is the one the caller's log holds, the copy of line 495 being
    shallow.

    The copy is an object literal and inherits from [Object.prototype].
    When it has no property [projectVersion] and that is the name of an
    inherited member, line 496 reads the member, which counts as true, and
    assigns nothing; the member has no method [map], and line 497
    throws. *)
Definition merge (log : jsobj (list JSON)) (projectVersion : jsstring)
  (versionEntry : JSON) : completion (jsobj (list JSON)) :=
  let entryAsString := JSON_stringify versionEntry in
  let successfulBuilds := obj_spread log in
  (* successfulBuilds[projectVersion]||(successfulBuilds[projectVersion]=[]):
     an array is truthy, also when empty, and so is an inherited member *)
  let successfulBuilds :=
    match obj_get successfulBuilds projectVersion with
    | Some _ => successfulBuilds
    | None =>
        if inherited projectVersion then successfulBuilds
        else obj_set successfulBuilds projectVersion []
    end in
  match obj_get successfulBuilds projectVersion with
  | None => Throws TypeError
  | Some bucket =>
      let entriesAsStrings := List.map JSON_stringify bucket in
      let successfulBuilds :=
        if negb (includes entriesAsStrings entryAsString) then
          (* unshift, delete, and the literal with the version first *)
          let currentVerisonEntries := versionEntry :: bucket in
          let successfulBuilds := obj_delete projectVersion successfulBuilds in
          obj_assign (obj_literal1 projectVersion currentVerisonEntries)
            successfulBuilds
        else successfulBuilds in
      (* reorder the versions so that newest is on top; the bucket is there
         by now (lemma merge_shape) *)
      Returns
        match obj_get successfulBuilds projectVersion with
        | Some b => obj_assign (obj_literal1 projectVersion b) successfulBuilds
        | None => successfulBuilds
        end
  end.

Definition is_null (j : JSON) : bool :=
  match j with JNull => true | _ => false end.

(** A string with a NUL character. *)
Definition has_nul (s : jsstring) : bool := existsb (N.eqb 0) s.

(** An argument [spawnSync] refuses: a string with a NUL character, or a
    value that cannot be converted to a string. *)
Definition refused (arg : JSON) : bool :=
  match arg with
  | JStr s => has_nul s
  | _ => match to_string arg with Some _ => false | None => true end
  end.

(** The command and the arguments [spawnSync] is given by
    [[command, ...args] = eachCommand], when it accepts them: the command
    is a non-empty string, and neither it nor an argument is refused. *)
Definition command_of (eachCommand : list JSON)
  : option (jsstring * list JSON) :=
  match eachCommand with
  | JStr (c :: command) :: args =>
      if has_nul (c :: command) || existsb refused args then None
      else Some (c :: command, args)
  | _ => None
  end.

Section Program.

(** The environment of one call: the platform name and the outcome of
    spawning a command with its arguments. *)
Variable platform : jsstring.
Variable spawnSync : jsstring -> list JSON -> SpawnSyncReturns.

Local Open Scope js_scope.

(** [spawnSync(command, args)] after [[command, ...args] = eachCommand]:
    the call throws a [TypeError], and starts no process, when it does not
    accept the command and the arguments. *)
Definition spawn (eachCommand : list JSON) : M SpawnSyncReturns :=
  match command_of eachCommand with
  | Some (command, args) =>
      fun tr => (Returns (spawnSync command args), tr ++ [(command, args)])
  | None => throw TypeError
  end.

(** Lines 474-480: the trimmed streams, [stdout] first. *)
Definition combined_output (result : SpawnSyncReturns) : jsstring :=
  let output := [] in
  let output :=
    match stdout result with
    | Some s => output ++ trim s
    | None => output
    end in
  match stderr result with
  | Some s => output ++ trim s
  | None => output
  end.

(** [result.status != 0] *)
Definition failed (result : SpawnSyncReturns) : bool :=
  match status result with
  | Some 0%Z => false
  | _ => true
  end.

(** Lines 466-487: the body of the loop over [versionCommands]. *)
Definition try_command (name : jsstring) (eachCommand : JSON)
  (executables : object) : M object :=
  match eachCommand with
  | JArr parts =>
      result <- spawn parts ;;
      if failed result then ret executables
      else
        let output := combined_output result in
        if (0 <? length output)%nat then
          let output := strip_ansi output in
          ret (assign executables name (JStr output))
        else ret executables
  | _ => ret executables
  end.

(** Lines 463-489: the body of the loop over the trackables.  Reading a
    property of [null] throws, and so does a name that cannot be converted
    to a property key. *)
Definition probe (eachTrackable : JSON) (executables : object) : M object :=
  match eachTrackable with
  | JNull => throw TypeError
  | _ =>
      match to_property_key (prop eachTrackable (js "name")) with
      | None => throw TypeError
      | Some name =>
          let executables := assign executables name JNull in
          match prop eachTrackable (js "versionCommands") with
          | Some (JArr versionCommands) =>
              for_of versionCommands (try_command name) executables
          | _ => ret executables
          end
      end
  end.

(** Lines 457-490. *)
Definition build_versionEntry (track : list JSON) : M JSON :=
  executables <- for_of track probe empty_object ;;
  ret (JObj [(js "platform", JStr platform);
             (js "executables", JObj (properties executables))]).

(** Lines 447-449: the list of trackables after the defaults are filled
    in. *)
Definition tracked (source : jsobj JSON) : list JSON :=
  let versionTracker :=
    match obj_get source (js "versionTracker") with
    | Some (JObj vt) => JObj vt
    | Some (JArr items) => JArr items
    | _ => JObj []
    end in
  match prop versionTracker (js "track") with
  | Some (JArr track) => track
  | _ => defaultTrackingInfo
  end.

(** Lines 450 and 453. *)
Definition project_version (source : jsobj JSON) : jsstring :=
  match obj_get source (js "version") with
  | Some (JStr v) => v
  | _ => js "0.0.0"
  end.

(** Lines 438-517, for a [source] that is an object; the result is
    [newLog].  [newSource], the copy of [source] with the defaults written
    into it, takes no part in the log. *)
Definition getUpdatedPackageObject (source : jsobj JSON)
  (log : jsobj (list JSON)) : M (jsobj (list JSON)) :=
  let track := tracked source in
  let projectVersion := project_version source in
  versionEntry <- build_versionEntry track ;;
  lift (merge log projectVersion versionEntry).

(** *** Vocabulary of the statements about probing *)

(** The name of a trackable as a property key; [None] when it cannot be
    converted. *)
Definition trackable_name (eachTrackable : JSON) : option jsstring :=
  to_property_key (prop eachTrackable (js "name")).

Definition named (eachTrackable : JSON) : bool :=
  match trackable_name eachTrackable with Some _ => true | None => false end.

(** The key under which a trackable is recorded. *)
Definition trackable_key (eachTrackable : JSON) : jsstring :=
  match trackable_name eachTrackable with Some name => name | None => [] end.

(** The key is not the accessor [__proto__]. *)
Definition plain_key (eachTrackable : JSON) : bool :=
  negb (str_eqb (trackable_key eachTrackable) proto_key).

(** The candidate commands of a trackable; none when [versionCommands] is
    not an array. *)
Definition candidates (eachTrackable : JSON) : list JSON :=
  match prop eachTrackable (js "versionCommands") with
  | Some (JArr versionCommands) => versionCommands
  | _ => []
  end.

(** A candidate that is an array holds a command and arguments that
    [spawnSync] accepts. *)
Definition spawnable (eachCommand : JSON) : bool :=
  match eachCommand with
  | JArr parts =>
      match command_of parts with Some _ => true | None => false end
  | _ => true
  end.

(** The process exited with status 0 and printed something. *)
Definition hit (result : SpawnSyncReturns) : bool :=
  negb (failed result) && (0 <? length (combined_output result))%nat.

Definition candidate_result (eachCommand : JSON) : option SpawnSyncReturns :=
  match eachCommand with
  | JArr parts =>
      match command_of parts with
      | Some (command, args) => Some (spawnSync command args)
      | None => None
      end
  | _ => None
  end.

(** The candidate is run and succeeds by the test of lines 470-481. *)
Definition candidate_hit (eachCommand : JSON) : bool :=
  match candidate_result eachCommand with
  | Some result => hit result
  | None => false
  end.

(** The version a succeeding candidate stores. *)
Definition candidate_version (eachCommand : JSON) : jsstring :=
  match candidate_result eachCommand with
  | Some result => strip_ansi (combined_output result)
  | None => []
  end.

(** What running the candidate adds to the trace. *)
Definition candidate_call (eachCommand : JSON) : Trace :=
  match eachCommand with
  | JArr parts =>
      match command_of parts with
      | Some call => [call]
      | None => []
      end
  | _ => []
  end.

(** Success as the specification words it: status 0 and an output that is
    not empty once the escape codes are removed. *)
Definition candidate_hit_stripped (eachCommand : JSON) : bool :=
  match candidate_result eachCommand with
  | Some result =>
      negb (failed result)
      && (0 <? length (strip_ansi (combined_output result)))%nat
  | None => false
  end.

(** The value one candidate leaves for its trackable. *)
Definition outcome (command : jsstring) (args : list JSON) : JSON :=
  let result := spawnSync command args in
  if hit result then JStr (strip_ansi (combined_output result)) else JNull.

(** No trackable is [null], every name can be converted to a property key
    and every candidate can be spawned. *)
Definition well_formed_track (track : list JSON) : bool :=
  forallb (fun t => negb (is_null t) && named t
                    && forallb spawnable (candidates t))
    track.

(** The last candidate that succeeds, if any. *)
Definition last_hit (versionCommands : list JSON) : option JSON :=
  find candidate_hit (rev versionCommands).

(** What one candidate does to the executables. *)
Definition step (name : jsstring) (executables : object)
  (eachCommand : JSON) : object :=
  if candidate_hit eachCommand
  then assign executables name (JStr (candidate_version eachCommand))
  else executables.

(** The record of the default trackables. *)
Definition default_versionEntry : JSON :=
  JObj [(js "platform", JStr platform);
        (js "executables",
         JObj [(js "node", outcome (js "node") [JStr (js "--version")]);
               (js "npm", outcome (js "npm") [JStr (js "-v")]);
               (js "git", outcome (js "git") [JStr (js "--version")])])].

End Program.

(* ------------------------------------------------------------------ *)
(** ** The shape of property lists *)

Definition idx (k : jsstring) : N :=
  match array_index k with Some i => i | None => 0%N end.

(** Array-index keys in ascending order. *)
Fixpoint index_keys (ks : list jsstring) : Prop :=
  match ks with
  | [] => True
  | k :: t =>
      is_index k = true /\ Forall (fun k' => (idx k < idx k')%N) t /\ index_keys t
  end.

(** Keys that are not array indices, each once. *)
Definition name_keys (ks : list jsstring) : Prop :=
  Forall (fun k => is_index k = false) ks /\ NoDup ks.

Definition is_object {V : Type} (o : jsobj V) : Prop :=
  exists I S, o = I ++ S /\ index_keys (keys I) /\ name_keys (keys S).

(** An index key below [i]. *)
Definition below (i : N) (k : jsstring) : Prop :=
  is_index k = true /\ (idx k < i)%N.

(** A new index [i] is placed in front of the keys [ks]. *)
Definition stops (i : N) (ks : list jsstring) : Prop :=
  match ks with
  | [] => True
  | k :: _ =>
      match array_index k with
      | Some j => (i <= j)%N
      | None => True
      end
  end.

(* ------------------------------------------------------------------ *)
(** ** Vocabulary of the statements *)

(** The bucket of a version: [log[v]] if present, else the empty
    sequence. *)
Definition bucket_of (log : jsobj (list JSON)) (v : jsstring) : list JSON :=
  match obj_get log v with
  | Some b => b
  | None => []
  end.

(** Some record of the bucket serializes identically to [r]: the test of
    line 498. *)
Definition serialized_in (r : JSON) (bucket : list JSON) : bool :=
  includes (List.map JSON_stringify bucket) (JSON_stringify r).

(** [o[k]], on an object [o] written as a literal, reads a member of
    [Object.prototype]: [o] has no property [k] of its own, and [k] names
    such a member. *)
Definition reads_inherited {V : Type} (o : jsobj V) (k : jsstring) : bool :=
  negb (obj_has o k) && inherited k.

(** The log that [merge] returns, when it returns (lemma [merge_cases]):
    the steps of lines 495-515 in the case where line 496 reads no
    inherited member. *)
Definition merge_result (log : jsobj (list JSON)) (projectVersion : jsstring)
  (versionEntry : JSON) : jsobj (list JSON) :=
  let entryAsString := JSON_stringify versionEntry in
  let successfulBuilds := obj_spread log in
  let successfulBuilds :=
    match obj_get successfulBuilds projectVersion with
    | Some _ => successfulBuilds
    | None => obj_set successfulBuilds projectVersion []
    end in
  let bucket :=
    match obj_get successfulBuilds projectVersion with
    | Some b => b
    | None => []
    end in
  let entriesAsStrings := List.map JSON_stringify bucket in
  let successfulBuilds :=
    if negb (includes entriesAsStrings entryAsString) then
      let currentVerisonEntries := versionEntry :: bucket in
      let successfulBuilds := obj_delete projectVersion successfulBuilds in
      obj_assign (obj_literal1 projectVersion currentVerisonEntries)
        successfulBuilds
    else successfulBuilds in
  match obj_get successfulBuilds projectVersion with
  | Some b => obj_assign (obj_literal1 projectVersion b) successfulBuilds
  | None => successfulBuilds
  end.

(** One call after the other, the second on the result of the first. *)
Definition and_then {A B : Type} (c : completion A) (k : A -> completion B)
  : completion B :=
  match c with
  | Returns a => k a
  | Throws e => Throws e
  end.

Definition completion_map {A B : Type} (f : A -> B) (c : completion A)
  : completion B :=
  and_then c (fun a => Returns (f a)).

(** No two records of the bucket serialize identically. *)
Definition distinct_records (bucket : list JSON) : Prop :=
  NoDup (List.map JSON_stringify bucket).

Definition first_key {V : Type} (o : jsobj V) : option jsstring :=
  match o with
  | [] => None
  | (k, _) :: _ => Some k
  end.

(** The keys other than [v], in order. *)
Definition other_keys {V : Type} (v : jsstring) (o : jsobj V)
  : list jsstring :=
  filter (fun k => negb (str_eqb k v)) (keys o).

(** No bucket of the log holds two records with the same serialization. *)
Definition no_duplicates (log : jsobj (list JSON)) : Prop :=
  Forall (fun kb => distinct_records (snd kb)) log.

(** Two objects with the same properties, whatever their order. *)
Definition same_mapping (a b : JSON) : Prop :=
  forall k, prop a k = prop b k.

Definition executables_of (r : JSON) : JSON :=
  match prop r (js "executables") with
  | Some e => e
  | None => JNull
  end.

(** Two records with the same platform and the same executables, the
    executables compared as unordered maps. *)
Definition same_record (a b : JSON) : Prop :=
  prop a (js "platform") = prop b (js "platform")
  /\ same_mapping (executables_of a) (executables_of b).

(** No two records of the bucket are equal in that sense. *)
Definition unlike_records (bucket : list JSON) : Prop :=
  ForallOrdPairs (fun a b => ~ same_record a b) bucket.

(** No bucket of the log holds two such records. *)
Definition no_like_records (log : jsobj (list JSON)) : Prop :=
  Forall (fun kb => unlike_records (snd kb)) log.

Definition is_array (x : option JSON) : bool :=
  match x with Some (JArr _) => true | _ => false end.

Definition is_string (x : option JSON) : bool :=
  match x with Some (JStr _) => true | _ => false end.

(** [source.versionTracker.track] as the caller wrote it. *)
Definition track_field (source : jsobj JSON) : option JSON :=
  match obj_get source (js "versionTracker") with
  | Some versionTracker => prop versionTracker (js "track")
  | None => None
  end.

(** The commands of the default trackables. *)
Definition default_calls : Trace :=
  [(js "node", [JStr (js "--version")]);
   (js "npm", [JStr (js "-v")]);
   (js "git", [JStr (js "--version")])].

(* ------------------------------------------------------------------ *)
(** ** Concrete inputs *)

Definition exited_with (out : jsstring) : SpawnSyncReturns :=
  {| status := Some 0%Z; stdout := Some out; stderr := Some [] |}.

Definition not_found : SpawnSyncReturns :=
  {| status := None; stdout := None; stderr := None |}.

(** A machine with node (under two names), git and tput, and without
    npm.  [tput sgr0] prints two escape sequences and nothing else. *)
Definition demo_spawnSync (command : jsstring) (args : list JSON)
  : SpawnSyncReturns :=
  if str_eqb command (js "node") then exited_with (js "v18.0.0" ++ [10%N])
  else if str_eqb command (js "nodejs") then exited_with (js "v12.0.0" ++ [10%N])
  else if str_eqb command (js "git")
       then exited_with (js "git version 2.34.1" ++ [10%N])
  else if str_eqb command (js "tput")
       then exited_with ([27%N] ++ js "(B" ++ [27%N] ++ js "[m")
  else not_found.

Definition node_trackable : JSON :=
  JObj [(js "name", JStr (js "node"));
        (js "versionCommands",
         JArr [JArr [JStr (js "node"); JStr (js "--version")];
               JArr [JStr (js "nodejs"); JStr (js "--version")]])].

Definition tput_trackable : JSON :=
  JObj [(js "name", JStr (js "terminal"));
        (js "versionCommands", JArr [JArr [JStr (js "tput"); JStr (js "sgr0")]])].

(** A trackable without a name and a trackable without commands. *)
Definition nameless_trackable : JSON :=
  JObj [(js "versionCommands",
         JArr [JArr [JStr (js "git"); JStr (js "--version")]])].

Definition commandless_trackable : JSON :=
  JObj [(js "name", JStr (js "npm"))].

(** A trackable with neither. *)
Definition empty_trackable : JSON := JObj [].

(** A trackable in the form of the documentation. *)
Definition git_trackable : JSON :=
  JObj [(js "name", JStr (js "git"));
        (js "versionCommands",
         JArr [JArr [JStr (js "git"); JStr (js "--version")]])].

Definition malformed_source : jsobj JSON :=
  [(js "version", JStr (js "1.0.0"));
   (js "versionTracker",
    JObj [(js "track", JArr [nameless_trackable; commandless_trackable])])].

Definition record_of (executables : jsobj JSON) : JSON :=
  JObj [(js "platform", JStr (js "linux"));
        (js "executables", JObj executables)].

Definition recordA : JSON := record_of [(js "git", JStr (js "git version 2.34.1"))].
Definition recordB : JSON := record_of [(js "git", JStr (js "git version 2.40.0"))].

(** The same executables in two orders. *)
Definition record_git_node : JSON :=
  record_of [(js "git", JStr (js "git version 2.34.1"));
             (js "node", JStr (js "v18.0.0"))].
Definition record_node_git : JSON :=
  record_of [(js "node", JStr (js "v18.0.0"));
             (js "git", JStr (js "git version 2.34.1"))].

(** A log in which version 2.0.0 was touched last. *)
Definition log_2_1 : jsobj (list JSON) :=
  [(js "2.0.0", [recordB]); (js "1.0.0", [recordA])].

(** The same log with version 1.0.0 touched last. *)
Definition log_1_2 : jsobj (list JSON) :=
  [(js "1.0.0", [recordA]); (js "2.0.0", [recordB])].

(** A log whose only version is the integer-like [1]. *)
Definition log_1 : jsobj (list JSON) := [(js "1", [recordA])].

Definition log_git_node : jsobj (list JSON) :=
  [(js "1.0.0", [record_git_node])].

(* ------------------------------------------------------------------ *)
(** ** The call as a whole: vocabulary *)

Section Calls.

Variable spawnSync : jsstring -> list JSON -> SpawnSyncReturns.

(** What the loop of lines 463-489 leaves in [executables] for one
    trackable, when nothing throws. *)
Definition record_trackable (executables : object) (eachTrackable : JSON)
  : object :=
  fold_left (step spawnSync (trackable_key eachTrackable))
    (candidates eachTrackable)
    (assign executables (trackable_key eachTrackable) JNull).

(** The commands of all the candidates of all the trackables, in order. *)
Definition all_calls (track : list JSON) : Trace :=
  flat_map (fun t => flat_map candidate_call (candidates t)) track.

(** The version of a trackable: that of its last succeeding candidate. *)
Definition trackable_version (eachTrackable : JSON) : JSON :=
  match last_hit spawnSync (candidates eachTrackable) with
  | Some c => JStr (candidate_version spawnSync c)
  | None => JNull
  end.

(** The last trackable recorded under the key [k]. *)
Definition last_trackable (track : list JSON) (k : jsstring) : option JSON :=
  find (fun t => str_eqb (trackable_key t) k) (rev track).

End Calls.

(** The keys of [ks] not in [seen], each at its first occurrence. *)
Fixpoint distinct_keys (seen ks : list jsstring) : list jsstring :=
  match ks with
  | [] => []
  | k :: t =>
      if includes seen k then distinct_keys seen t
      else k :: distinct_keys (seen ++ [k]) t
  end.

(** The keys of the trackables that are not array indices, in the order
    in which the configuration first names them. *)
Definition declared_names (track : list JSON) : list jsstring :=
  distinct_keys []
    (filter (fun k => negb (is_index k)) (List.map trackable_key track)).

(** The keys that are not array indices, in order. *)
Definition name_keys_of {V : Type} (o : jsobj V) : list jsstring :=
  filter (fun k => negb (is_index k)) (keys o).

(** The array-index keys, in order. *)
Definition index_keys_of {V : Type} (o : jsobj V) : list jsstring :=
  filter is_index (keys o).

(** No code unit of the string starts an escape sequence. *)
Definition escape_free (s : jsstring) : bool :=
  forallb (fun c => negb ((c =? 27)%N || (c =? 155)%N)) s.

(** The parameters of a control sequence, read from inside a run of digits
    of which [n] more may follow: digits, at most four in a row, and
    semicolons. *)
Fixpoint params_ok (n : nat) (P : jsstring) : bool :=
  match P with
  | [] => true
  | c :: t =>
      if (c =? 59)%N then params_ok 4 t
      else is_digit c
           && match n with S n' => params_ok n' t | O => false end
  end.

(** Nothing, or a digit followed by such parameters. *)
Definition csi_params (P : jsstring) : bool :=
  match P with
  | [] => true
  | d :: t => is_digit d && params_ok 3 t
  end.

(** A configuration with two trackables, the first with two candidates. *)
Definition demo_source : jsobj JSON :=
  [(js "version", JStr (js "2.0.0"));
   (js "versionTracker",
    JObj [(js "track", JArr [node_trackable; tput_trackable])])].

(* ------------------------------------------------------------------ *)
(** ** The log as JSON data

    Lines 494-516 once more, for a log whose values are any JSON values:
    this is the code that decides what happens to a bucket that is not an
    array. *)

(** [ToBoolean]: the value counts as true in a condition.  The number 0
    is printed as [0], with either sign. *)
Definition truthy (j : JSON) : bool :=
  match j with
  | JNull => false
  | JBool b => b
  | JNum repr => negb (str_eqb repr (js "0"))
  | JStr s => match s with [] => false | _ :: _ => true end
  | JArr _ => true
  | JObj _ => true
  end.

(** Calling [.map] on a value that is not an array throws: no other JSON
    value has a callable member of that name, and neither has a member of
    [Object.prototype], which line 496 reads, and leaves, when the copy of
    the log has no property [projectVersion]. *)
Definition merge_json (log : jsobj JSON) (projectVersion : jsstring)
  (versionEntry : JSON) : completion (jsobj JSON) :=
  let entryAsString := JSON_stringify versionEntry in
  let successfulBuilds := obj_spread log in
  let successfulBuilds :=
    match obj_get successfulBuilds projectVersion with
    | Some x =>
        if truthy x then successfulBuilds
        else obj_set successfulBuilds projectVersion (JArr [])
    | None =>
        if inherited projectVersion then successfulBuilds
        else obj_set successfulBuilds projectVersion (JArr [])
    end in
  match obj_get successfulBuilds projectVersion with
  | Some (JArr bucket) =>
      let entriesAsStrings := List.map JSON_stringify bucket in
      let successfulBuilds :=
        if negb (includes entriesAsStrings entryAsString) then
          let currentVerisonEntries := JArr (versionEntry :: bucket) in
          let successfulBuilds := obj_delete projectVersion successfulBuilds in
          obj_assign (obj_literal1 projectVersion currentVerisonEntries)
            successfulBuilds
        else successfulBuilds in
      Returns
        match obj_get successfulBuilds projectVersion with
        | Some b => obj_assign (obj_literal1 projectVersion b) successfulBuilds
        | None => successfulBuilds
        end
  | _ => Throws TypeError
  end.

(** The same object with every value passed through [f]. *)
Definition obj_map {A B : Type} (f : A -> B) (o : jsobj A) : jsobj B :=
  List.map (fun kx => (fst kx, f (snd kx))) o.

(** A log of arrays as JSON data. *)
Definition log_json (log : jsobj (list JSON)) : jsobj JSON := obj_map JArr log.

(** The own value of the log under the version: none, one that counts as
    false, an array, or another one that counts as true. *)
Inductive bucket_kind : Type := Missing | Falsy | Bucket | Other.

Definition kind_of (x : option JSON) : bucket_kind :=
  match x with
  | None => Missing
  | Some (JArr _) => Bucket
  | Some j => if truthy j then Other else Falsy
  end.

(** A log with a version whose value is an object, and one whose value
    is the number 0. *)
Definition log_with_object : jsobj JSON :=
  [(js "1.0.0", JObj [(js "note", JStr (js "released"))]);
   (js "0.9.0", JArr [recordA])].

Definition log_with_zero : jsobj JSON :=
  [(js "0.9.0", JStr (js "first")); (js "1.0.0", JNum (js "0"))].

(** The bucket of the version after the merge, from the value [x] the log
    had for it. *)
Definition merged_bucket (x : option JSON) (r : JSON) : list JSON :=
  match x with
  | Some (JArr b) => if serialized_in r b then b else r :: b
  | _ => [r]
  end.

(* ------------------------------------------------------------------ *)
(** ** The search for package.json (lines 601-619)

    [path.dirname], [path.join] and [existsSync] belong to the platform
    and are parameters here. *)

Section Paths.

Variable dirname : jsstring -> jsstring.
Variable path_join : jsstring -> jsstring -> jsstring.
Variable existsSync : jsstring -> bool.

(** The loop of [walkUp], run for at most [fuel] tests of its condition;
    [None] when it is still running by then. *)
Fixpoint walkUp_loop (fuel : nat) (pwd : jsstring) (output : list jsstring)
  : option (list jsstring) :=
  match fuel with
  | O => None
  | S fuel' =>
      if negb (str_eqb (dirname pwd) pwd)
      then walkUp_loop fuel' (dirname pwd) (output ++ [pwd])
      else Some output
  end.

(** [walkUp()] in the working directory [cwd]. *)
Definition walkUp (fuel : nat) (cwd : jsstring) : option (list jsstring) :=
  walkUp_loop fuel cwd [].

(** The loop of [getPathToPackageJson]; [None] is [undefined]. *)
Fixpoint first_package_json (folders : list jsstring) : option jsstring :=
  match folders with
  | [] => None
  | eachFolder :: rest =>
      let source := path_join eachFolder (js "package.json") in
      if existsSync source then Some source else first_package_json rest
  end.

Definition getPathToPackageJson (fuel : nat) (cwd : jsstring)
  : option (option jsstring) :=
  option_map first_package_json (walkUp fuel cwd).

(** The folder [n] levels above [p]. *)
Fixpoint ancestor (n : nat) (p : jsstring) : jsstring :=
  match n with
  | O => p
  | S n' => ancestor n' (dirname p)
  end.

(** [p] and the folders above it, [n] in all. *)
Fixpoint ancestors (n : nat) (p : jsstring) : list jsstring :=
  match n with
  | O => []
  | S n' => p :: ancestors n' (dirname p)
  end.

(** A folder that is its own parent. *)
Definition is_root (p : jsstring) : bool := str_eqb (dirname p) p.

End Paths.

(** A file system for the examples: the parent of a path is the path
    without its last segment, and the root is its own parent. *)
Fixpoint drop_segment (reversed : jsstring) : jsstring :=
  match reversed with
  | [] => []
  | c :: t => if (c =? 47)%N then t else drop_segment t
  end.

Definition demo_dirname (p : jsstring) : jsstring :=
  match rev (drop_segment (rev p)) with
  | [] => js "/"
  | d => d
  end.

Definition demo_join (a b : jsstring) : jsstring := a ++ js "/" ++ b.

Definition demo_existsSync (p : jsstring) : bool :=
  str_eqb p (js "/home/me/package.json") || str_eqb p (js "//package.json").

Definition demo_measure (p : jsstring) : nat :=
  if str_eqb p (js "/") then 0 else S (length p).

(* ------------------------------------------------------------------ *)
(** ** The command line (lines 628-655)

    What the arguments of the process make of the options passed to
    [generatePackageJsonWithTracking].  The numbers of the platform are a
    parameter: [number] holds the numbers other than NaN, [StringToNumber]
    is the conversion of a string, [None] standing for NaN. *)

(** The result of [ToIntegerOrInfinity]. *)
Inductive integer_or_infinity : Type :=
| NegInfinity
| Int (z : Z)
| PosInfinity.

(** The bound [Array.prototype.slice] derives from an argument, for an
    array of [len] elements. *)
Definition relative (len : Z) (r : integer_or_infinity) : Z :=
  match r with
  | NegInfinity => 0
  | Int z => if (z <? 0)%Z then Z.max (len + z) 0 else Z.min z len
  | PosInfinity => len
  end.

(** [a.slice(start, end)], both arguments given and converted. *)
Definition slice {A : Type} (a : list A) (start end_ : integer_or_infinity)
  : list A :=
  let len := Z.of_nat (length a) in
  let k := relative len start in
  let final := relative len end_ in
  let count := Z.max (final - k) 0 in
  firstn (Z.to_nat count) (skipn (Z.to_nat k) a).

Section CommandLine.

Variable number : Type.
Variable StringToNumber : jsstring -> option number.
Variable ToIntegerOrInfinity : number -> integer_or_infinity.
(** The literal [2]. *)
Variable two : number.

(** The values the options take. *)
Inductive value : Type :=
| VUndefined
| VString (s : jsstring)
| VNumber (n : number).

Record Options : Type := {
  opt_indent : value;
  opt_source : value;
  opt_log : value
}.

(** [x - 0]: the value as a number. *)
Definition minus_zero (x : value) : option number :=
  match x with
  | VUndefined => None
  | VString s => StringToNumber s
  | VNumber n => Some n
  end.

(** An array of strings used as a number: its elements joined by commas,
    then converted; NaN gives 0. *)
Definition array_to_integer (a : list jsstring) : integer_or_infinity :=
  match StringToNumber (join (js ",") a) with
  | Some n => ToIntegerOrInfinity n
  | None => Int 0
  end.

(** The loop of lines 633-644; [shift] on an empty array gives
    [undefined].  The second component lists the arguments reported as
    invalid. *)
Fixpoint parse_args (args : list jsstring) (o : Options)
  (errors : list jsstring) : Options * list jsstring :=
  match args with
  | [] => (o, errors)
  | key :: rest =>
      if str_eqb key (js "--indent") then
        match rest with
        | x :: rest' =>
            parse_args rest'
              {| opt_indent := VString x; opt_source := opt_source o;
                 opt_log := opt_log o |} errors
        | [] =>
            ({| opt_indent := VUndefined; opt_source := opt_source o;
                opt_log := opt_log o |}, errors)
        end
      else if str_eqb key (js "--source") then
        match rest with
        | x :: rest' =>
            parse_args rest'
              {| opt_indent := opt_indent o; opt_source := VString x;
                 opt_log := opt_log o |} errors
        | [] =>
            ({| opt_indent := opt_indent o; opt_source := VUndefined;
                opt_log := opt_log o |}, errors)
        end
      else if str_eqb key (js "--log") then
        match rest with
        | x :: rest' =>
            parse_args rest'
              {| opt_indent := opt_indent o; opt_source := opt_source o;
                 opt_log := VString x |} errors
        | [] =>
            ({| opt_indent := opt_indent o; opt_source := opt_source o;
                opt_log := VUndefined |}, errors)
        end
      else parse_args rest o (errors ++ [key])
  end.

Definition default_options : Options :=
  {| opt_indent := VNumber two;
     opt_source := VString (js "./package.json");
     opt_log := VString (js "./version-log.json") |}.

(** Lines 628-653: the options [generatePackageJsonWithTracking] is called
    with and the arguments reported as invalid; [None] when the script is
    not asked to generate and does nothing. *)
Definition command_line (argv : list jsstring)
  : option (Options * list jsstring) :=
  match nth_error argv 2 with
  | Some command =>
      if str_eqb command (js "generate") then
        let args := slice argv (Int 3) (array_to_integer argv) in
        let (o, errors) := parse_args args default_options [] in
        let asNumber := minus_zero (opt_indent o) in
        Some (match asNumber with
              | Some n => {| opt_indent := VNumber n;
                             opt_source := opt_source o;
                             opt_log := opt_log o |}
              | None => o
              end, errors)
      else None
  | None => None
  end.

End CommandLine.

(** Numbers for the examples: the naturals, written in decimal digits. *)
Definition demo_StringToNumber (s : jsstring) : option N :=
  match s with
  | [] => Some 0%N
  | _ :: _ => if forallb is_digit s then Some (digits_value 0 s) else None
  end.

Definition demo_ToIntegerOrInfinity (n : N) : integer_or_infinity :=
  Int (Z.of_N n).

Definition demo_argv : list jsstring :=
  [js "/usr/bin/node"; js "/usr/lib/version-track/index.js"; js "generate";
   js "--indent"; js "4"; js "--log"; js "builds.json"].

(* ------------------------------------------------------------------ *)
(** ** The earlier variants of the probing loop

    src/index.js holds two earlier variants of [getUpdatedPackageObject].
    Their loops over the trackables differ from the one above. *)

(** The code points of a string, each as a string: what iterating over a
    string yields. *)
Fixpoint code_points (s : jsstring) : list jsstring :=
  match s with
  | [] => []
  | c :: t =>
      match t with
      | d :: t' =>
          if is_high_surrogate c && is_low_surrogate d
          then [c; d] :: code_points t'
          else [c] :: code_points t
      | [] => [[c]]
      end
  end.

(** The elements an array pattern reads from a value: those of an array,
    the code points of a string; no other JSON value can be iterated. *)
Definition iterate (x : JSON) : M (list JSON) :=
  match x with
  | JArr items => ret items
  | JStr s => ret (List.map JStr (code_points s))
  | _ => throw TypeError
  end.

(** The variant of lines 31-108, which takes the package object alone. *)
Module Variant1.
Section Program.

Variable platform : jsstring.
Variable spawnSync : jsstring -> list JSON -> SpawnSyncReturns.

Local Open Scope js_scope.

(** Lines 60-81: the test of line 60 reads [versionCommands] from the
    candidate itself. *)
Definition try_command (name : jsstring) (eachCommand : JSON)
  (executables : object) : M object :=
  match eachCommand with
  | JNull => throw TypeError
  | _ =>
      match prop eachCommand (js "versionCommands") with
      | Some (JArr _) =>
          parts <- iterate eachCommand ;;
          result <- spawn spawnSync parts ;;
          if failed result then ret executables
          else
            let output := combined_output result in
            if (0 <? length output)%nat then
              let output := strip_ansi output in
              ret (assign executables name (JStr output))
            else ret executables
      | _ => ret executables
      end
  end.

(** Lines 57-83. *)
Definition probe (eachTrackable : JSON) (executables : object) : M object :=
  match eachTrackable with
  | JNull => throw TypeError
  | _ =>
      match to_property_key (prop eachTrackable (js "name")) with
      | None => throw TypeError
      | Some name =>
          let executables := assign executables name JNull in
          match prop eachTrackable (js "versionCommands") with
          | Some (JArr versionCommands) =>
              for_of versionCommands (try_command name) executables
          | _ => ret executables
          end
      end
  end.

(** Lines 50-84. *)
Definition build_versionEntry (track : list JSON) : M JSON :=
  executables <- for_of track probe empty_object ;;
  ret (JObj [(js "platform", JStr platform);
             (js "executables", JObj (properties executables))]).

(** A candidate the loop steps over: it is not [null], and it is not an
    object whose [versionCommands] is an array. *)
Definition skipped (eachCommand : JSON) : bool :=
  match eachCommand with
  | JNull => false
  | _ =>
      match prop eachCommand (js "versionCommands") with
      | Some (JArr _) => false
      | _ => true
      end
  end.

(** No trackable is [null], every name can be converted to a property key
    and every candidate is stepped over. *)
Definition well_formed_track (track : list JSON) : bool :=
  forallb (fun t => negb (is_null t) && named t
                    && forallb skipped (candidates t))
    track.

End Program.

(** Lines 47 and 87-106, the same in the second variant (lines 268 and
    286-305): the merge is done on the object [successfulBuilds] of the
    copied package, in which line 47 replaces a bucket that is not an
    array. *)
Definition merge (successfulBuilds : jsobj JSON) (projectVersion : jsstring)
  (versionEntry : JSON) : completion (jsobj JSON) :=
  let successfulBuilds :=
    match obj_get successfulBuilds projectVersion with
    | Some (JArr _) => successfulBuilds
    | _ => obj_set successfulBuilds projectVersion (JArr [])
    end in
  let entryAsString := JSON_stringify versionEntry in
  match obj_get successfulBuilds projectVersion with
  | Some (JArr bucket) =>
      let entriesAsStrings := List.map JSON_stringify bucket in
      let successfulBuilds :=
        if negb (includes entriesAsStrings entryAsString) then
          let currentVerisonEntries := JArr (versionEntry :: bucket) in
          let successfulBuilds := obj_delete projectVersion successfulBuilds in
          obj_assign (obj_literal1 projectVersion currentVerisonEntries)
            successfulBuilds
        else successfulBuilds in
      Returns
        match obj_get successfulBuilds projectVersion with
        | Some b => obj_assign (obj_literal1 projectVersion b) successfulBuilds
        | None => successfulBuilds
        end
  | _ => Throws TypeError
  end.

End Variant1.

(** The variant of lines 257-307, with one command for each trackable,
    run by [execSync]. *)
Module Variant2.
Section Program.

Variable platform : jsstring.

(** [execSync(command).toString()] for the value read from
    [versionCommand], [None] when it is [undefined]; the result is [None]
    when the call throws, as it does when the command fails. *)
Variable execSync : option JSON -> option jsstring.

(** Lines 278-282.  On a trackable that is [null], and on a name that
    cannot be converted to a property key, the handler throws as well. *)
Definition probe (eachTrackable : JSON) (executables : object)
  : completion object :=
  match eachTrackable with
  | JNull => Throws TypeError
  | _ =>
      match to_property_key (prop eachTrackable (js "name")) with
      | None => Throws TypeError
      | Some name =>
          match execSync (prop eachTrackable (js "versionCommand")) with
          | Some output =>
              Returns (assign executables name (JStr (trim output)))
          | None => Returns (assign executables name JNull)
          end
      end
  end.

(** Lines 277-283. *)
Fixpoint probe_all (track : list JSON) (executables : object)
  : completion object :=
  match track with
  | [] => Returns executables
  | eachTrackable :: rest =>
      match probe eachTrackable executables with
      | Returns executables' => probe_all rest executables'
      | Throws e => Throws e
      end
  end.

(** Lines 271-283. *)
Definition build_versionEntry (track : list JSON) : completion JSON :=
  match probe_all track empty_object with
  | Returns executables =>
      Returns (JObj [(js "platform", JStr platform);
                     (js "executables", JObj (properties executables))])
  | Throws e => Throws e
  end.

(** What one trackable records. *)
Definition trackable_version (eachTrackable : JSON) : JSON :=
  match execSync (prop eachTrackable (js "versionCommand")) with
  | Some output => JStr (trim output)
  | None => JNull
  end.

End Program.
End Variant2.

(** A trackable whose candidate is an object. *)
Definition object_candidate_trackable : JSON :=
  JObj [(js "name", JStr (js "git"));
        (js "versionCommands",
         JArr [JObj [(js "versionCommands",
                      JArr [JStr (js "git"); JStr (js "--version")])]])].

(* ================================================================== *)
(** * Properties *)

(** ** Strings and array indices *)

Lemma str_eqb_eq (a b : jsstring) : str_eqb a b = true <-> a = b.
Proof.
  revert b; induction a as [|x a IH]; intros [|y b]; simpl; split;
    try congruence; try reflexivity.
  - rewrite andb_true_iff, N.eqb_eq, IH. intros [-> ->]. reflexivity.
  - intros E. injection E as -> ->. rewrite N.eqb_refl. simpl. apply IH. reflexivity.
Qed.

Lemma str_eqb_refl (a : jsstring) : str_eqb a a = true.
Proof. apply str_eqb_eq. reflexivity. Qed.

Lemma str_eqb_neq (a b : jsstring) : str_eqb a b = false <-> a <> b.
Proof.
  split.
  - intros E H. apply str_eqb_eq in H. congruence.
  - intros H. destruct (str_eqb a b) eqn:E; [|reflexivity].
    apply str_eqb_eq in E. contradiction.
Qed.

Lemma str_eqb_sym (a b : jsstring) : str_eqb a b = str_eqb b a.
Proof.
  destruct (str_eqb a b) eqn:E.
  - apply str_eqb_eq in E. subst. symmetry. apply str_eqb_refl.
  - symmetry. apply str_eqb_neq. apply str_eqb_neq in E. congruence.
Qed.

(** Case analysis on the equality of two keys. *)
Ltac key_cases a b :=
  let E := fresh "E" in
  let NE := fresh "NE" in
  destruct (str_eqb a b) eqn:E;
  [apply str_eqb_eq in E; try subst
  | pose proof (proj1 (str_eqb_neq a b) E) as NE].

Lemma includes_In (l : list jsstring) (s : jsstring) :
  includes l s = true <-> In s l.
Proof.
  unfold includes. rewrite existsb_exists. split.
  - intros [x [Hx E]]. apply str_eqb_eq in E. subst. assumption.
  - intros H. exists s. split; [assumption | apply str_eqb_refl].
Qed.

Lemma is_digit_range (c : N) : is_digit c = true <-> (48 <= c <= 57)%N.
Proof.
  unfold is_digit. rewrite andb_true_iff, !N.leb_le. reflexivity.
Qed.

Lemma digits_value_app (s : jsstring) (acc c : N) :
  digits_value acc (s ++ [c]) = (10 * digits_value acc s + (c - 48))%N.
Proof.
  revert acc. induction s as [|d s IH]; intros acc; cbn [digits_value app].
  - reflexivity.
  - apply IH.
Qed.

Lemma digits_value_ge (s : jsstring) (acc : N) :
  (acc <= digits_value acc s)%N.
Proof.
  revert acc. induction s as [|d s IH]; intros acc; cbn [digits_value].
  - lia.
  - specialize (IH (10 * acc + (d - 48))%N). lia.
Qed.

Lemma no_leading_zero_pos (s : jsstring) :
  no_leading_zero s -> s <> [] -> (0 < digits_value 0 s)%N.
Proof.
  intros [Hd Hz] Hne. destruct s as [|c t]; [congruence|].
  cbn [forallb digits_value] in *. apply andb_true_iff in Hd as [Hc _].
  apply is_digit_range in Hc.
  pose proof (digits_value_ge t (10 * 0 + (c - 48))). lia.
Qed.

Lemma no_leading_zero_prefix (s : jsstring) (c : N) :
  no_leading_zero (s ++ [c]) -> no_leading_zero s.
Proof.
  intros [Hd Hz]. rewrite forallb_app in Hd.
  apply andb_true_iff in Hd as [Hd _]. split; [assumption|].
  destruct s; simpl in *; auto.
Qed.

Lemma no_leading_zero_last (s : jsstring) (c : N) :
  no_leading_zero (s ++ [c]) -> (48 <= c <= 57)%N.
Proof.
  intros [Hd _]. rewrite forallb_app in Hd.
  apply andb_true_iff in Hd as [_ Hd]. simpl in Hd.
  rewrite andb_true_r in Hd. apply is_digit_range. assumption.
Qed.

Lemma no_leading_zero_inj (a b : jsstring) :
  no_leading_zero a -> no_leading_zero b ->
  digits_value 0 a = digits_value 0 b -> a = b.
Proof.
  revert b. induction a as [|c a IH] using rev_ind; intros b Ha Hb E.
  - destruct b as [|d b]; [reflexivity|].
    assert (0 < digits_value 0 (d :: b))%N
      by (apply no_leading_zero_pos; [assumption | discriminate]).
    cbn [digits_value] in E. cbn [digits_value] in H. lia.
  - destruct b as [|d b _] using rev_ind.
    + assert (0 < digits_value 0 (a ++ [c]))%N.
      { apply no_leading_zero_pos; [assumption|]. destruct a; discriminate. }
      cbn [digits_value] in E. lia.
    + rewrite !digits_value_app in E.
      pose proof (no_leading_zero_last _ _ Ha).
      pose proof (no_leading_zero_last _ _ Hb).
      assert (c = d) by lia. subst d.
      assert (digits_value 0 a = digits_value 0 b) by lia.
      f_equal. apply IH; eauto using no_leading_zero_prefix.
Qed.

Lemma canonical_digits_cases (s : jsstring) :
  canonical_digits s = true ->
  s = [48%N] \/ (no_leading_zero s /\ s <> []).
Proof.
  destruct s as [|c t]; simpl; [discriminate|].
  intros H. apply andb_true_iff in H as [Hd Hz].
  apply orb_true_iff in Hz as [Hz | Hz].
  - right. split; [|discriminate]. split; [exact Hd|].
    apply negb_true_iff, N.eqb_neq in Hz. assumption.
  - destruct t; [|discriminate].
    destruct (N.eq_dec c 48) as [->|Hc]; [left; reflexivity|].
    right. split; [|discriminate]. split; [exact Hd | assumption].
Qed.

Lemma array_index_Some (s : jsstring) (i : N) :
  array_index s = Some i ->
  canonical_digits s = true /\ digits_value 0 s = i.
Proof.
  unfold array_index. destruct (canonical_digits s); [|discriminate].
  destruct (_ <? _)%N; [|discriminate]. intros E. injection E as <-. auto.
Qed.

(** Two keys with the same array index are the same key. *)
Lemma array_index_inj (a b : jsstring) (i : N) :
  array_index a = Some i -> array_index b = Some i -> a = b.
Proof.
  intros Ha Hb.
  apply array_index_Some in Ha as [Ca Va].
  apply array_index_Some in Hb as [Cb Vb].
  apply canonical_digits_cases in Ca, Cb.
  destruct Ca as [-> | [Na Ea]], Cb as [-> | [Nb Eb]].
  - reflexivity.
  - pose proof (no_leading_zero_pos _ Nb Eb). cbn in Va. lia.
  - pose proof (no_leading_zero_pos _ Na Ea). cbn in Vb. lia.
  - apply no_leading_zero_inj; auto. congruence.
Qed.

Lemma is_index_Some (k : jsstring) :
  is_index k = true <-> exists i, array_index k = Some i.
Proof.
  unfold is_index. destruct (array_index k).
  - split; eauto.
  - split; [discriminate | intros [i H]; discriminate].
Qed.

Lemma is_index_None (k : jsstring) :
  is_index k = false <-> array_index k = None.
Proof.
  unfold is_index. destruct (array_index k); split; congruence.
Qed.

(** ** Reading and writing properties *)

Section ObjectFacts.
Context {V : Type}.
Implicit Types (o t src : jsobj V) (k v : jsstring) (x y : V).

Lemma obj_get_In o k x : obj_get o k = Some x -> In (k, x) o.
Proof.
  induction o as [|[k' x'] o IH]; simpl; [discriminate|].
  key_cases k' k.
  - intros H. injection H as ->. left. reflexivity.
  - intros H. right. auto.
Qed.

Lemma obj_get_None o k : obj_get o k = None <-> ~ In k (keys o).
Proof.
  induction o as [|[k' x'] o IH]; simpl.
  - tauto.
  - key_cases k' k.
    + split; [discriminate | intros H; exfalso; apply H; auto].
    + rewrite IH. tauto.
Qed.

Lemma obj_has_In o k : obj_has o k = true <-> In k (keys o).
Proof.
  unfold obj_has. destruct (obj_get o k) eqn:E.
  - split; [intros _ | reflexivity].
    apply obj_get_In in E. apply (in_map fst) in E. exact E.
  - split; [discriminate|]. intros H. apply obj_get_None in E. contradiction.
Qed.

Lemma obj_has_false o k : obj_has o k = false <-> ~ In k (keys o).
Proof.
  rewrite <- obj_has_In. destruct (obj_has o k); split; congruence.
Qed.

Lemma obj_get_app o t k :
  obj_get (o ++ t) k =
  match obj_get o k with Some x => Some x | None => obj_get t k end.
Proof.
  induction o as [|[k' x'] o IH]; simpl; [reflexivity|].
  destruct (str_eqb k' k); auto.
Qed.

Lemma keys_app o t : keys (o ++ t) = keys o ++ keys t.
Proof. apply map_app. Qed.

Lemma obj_get_NoDup_In o k x :
  NoDup (keys o) -> In (k, x) o -> obj_get o k = Some x.
Proof.
  induction o as [|[k' x'] o IH]; simpl; [tauto|].
  intros ND [E | H].
  - injection E as -> ->. rewrite str_eqb_refl. reflexivity.
  - inversion ND as [|? ? Hn ND']; subst.
    key_cases k' k.
    + exfalso. apply Hn. apply (in_map fst) in H. exact H.
    + auto.
Qed.

Lemma keys_replace k x o : keys (obj_replace k x o) = keys o.
Proof.
  induction o as [|[k' x'] o IH]; simpl; [reflexivity|].
  destruct (str_eqb k' k); simpl; congruence.
Qed.

Lemma obj_get_replace k x o k' :
  obj_get (obj_replace k x o) k' =
  if str_eqb k k' then match obj_get o k with
                       | Some _ => Some x
                       | None => None
                       end
  else obj_get o k'.
Proof.
  induction o as [|[k1 x1] o IH]; simpl.
  - destruct (str_eqb k k'); reflexivity.
  - key_cases k1 k; simpl.
    + destruct (str_eqb k k'); reflexivity.
    + rewrite IH. key_cases k k'.
      * rewrite E. reflexivity.
      * reflexivity.
Qed.

Lemma obj_get_insert_index i k x o k' :
  obj_get o k = None ->
  obj_get (obj_insert_index i k x o) k' =
  if str_eqb k k' then Some x else obj_get o k'.
Proof.
  induction o as [|[k1 x1] o IH]; simpl; [reflexivity|].
  key_cases k1 k; [discriminate|]. intros Hn.
  destruct (array_index k1) as [j|]; [destruct (j <? i)%N|]; simpl;
    try reflexivity.
  rewrite IH by assumption.
  key_cases k k'; [|reflexivity].
  rewrite E. reflexivity.
Qed.

(** After [o[k] = x], [o[k]] is [x] and the other properties are what
    they were. *)
Lemma obj_get_set o k x k' :
  obj_get (obj_set o k x) k' =
  if str_eqb k k' then Some x else obj_get o k'.
Proof.
  unfold obj_set, obj_has. destruct (obj_get o k) eqn:G.
  - rewrite obj_get_replace, G. reflexivity.
  - destruct (array_index k).
    + apply obj_get_insert_index. assumption.
    + rewrite obj_get_app. simpl.
      key_cases k k'.
      * rewrite G. reflexivity.
      * destruct (obj_get o k'); reflexivity.
Qed.

Lemma obj_get_delete k o k' :
  obj_get (obj_delete k o) k' =
  if str_eqb k k' then None else obj_get o k'.
Proof.
  induction o as [|[k1 x1] o IH]; simpl.
  - destruct (str_eqb k k'); reflexivity.
  - key_cases k1 k.
    + rewrite IH. destruct (str_eqb k k'); reflexivity.
    + simpl. rewrite IH. key_cases k k'; [|reflexivity].
      rewrite E. reflexivity.
Qed.

Lemma keys_delete k o :
  keys (obj_delete k o) = filter (fun k' => negb (str_eqb k' k)) (keys o).
Proof.
  induction o as [|[k1 x1] o IH]; simpl; [reflexivity|].
  destruct (str_eqb k1 k); simpl; congruence.
Qed.

Lemma obj_delete_absent k o : obj_get o k = None -> obj_delete k o = o.
Proof.
  induction o as [|[k1 x1] o IH]; simpl; [reflexivity|].
  destruct (str_eqb k1 k); [discriminate|]. intros H. f_equal. auto.
Qed.

Lemma In_obj_delete k o e : In e (obj_delete k o) -> In e o.
Proof.
  induction o as [|[k1 x1] o IH]; simpl; [tauto|].
  destruct (str_eqb k1 k); simpl; intuition.
Qed.

Lemma In_obj_replace k x o e :
  In e (obj_replace k x o) -> e = (k, x) \/ In e o.
Proof.
  induction o as [|[k1 x1] o IH]; simpl; [tauto|].
  key_cases k1 k; simpl; intuition.
Qed.

Lemma In_obj_insert_index i k x o e :
  In e (obj_insert_index i k x o) -> e = (k, x) \/ In e o.
Proof.
  induction o as [|[k1 x1] o IH]; simpl; [intuition|].
  destruct (array_index k1) as [j|]; [destruct (j <? i)%N|]; simpl;
    intuition.
Qed.

Lemma In_obj_set o k x e : In e (obj_set o k x) -> e = (k, x) \/ In e o.
Proof.
  unfold obj_set. destruct (obj_has o k).
  - apply In_obj_replace.
  - destruct (array_index k).
    + apply In_obj_insert_index.
    + rewrite in_app_iff. simpl. intuition.
Qed.

(** Every property of [{...target, ...src}] comes from one of the two. *)
Lemma In_obj_assign src t e :
  In e (obj_assign t src) -> In e t \/ In e src.
Proof.
  unfold obj_assign. revert t.
  induction src as [|[k x] src IH]; simpl; intros t H; [auto|].
  apply IH in H as [H | H]; [|auto].
  apply In_obj_set in H as [-> | H]; auto.
Qed.

Lemma obj_assign_app t a b :
  obj_assign t (a ++ b) = obj_assign (obj_assign t a) b.
Proof. unfold obj_assign. apply fold_left_app. Qed.

Lemma obj_assign_cons t k x src :
  obj_assign t ((k, x) :: src) = obj_assign (obj_set t k x) src.
Proof. reflexivity. Qed.

(** A property of [src] wins over one of [target]. *)
Lemma obj_get_assign src t k :
  NoDup (keys src) ->
  obj_get (obj_assign t src) k =
  match obj_get src k with Some x => Some x | None => obj_get t k end.
Proof.
  revert t. induction src as [|[k1 x1] src IH]; intros t ND; [reflexivity|].
  inversion ND as [|? ? Hn ND']; subst.
  rewrite obj_assign_cons, IH by assumption. simpl.
  rewrite obj_get_set.
  key_cases k1 k; [|reflexivity].
  apply obj_get_None in Hn. rewrite Hn. reflexivity.
Qed.

End ObjectFacts.

(** ** The order of the properties *)

Lemma idx_Some (k : jsstring) (i : N) : array_index k = Some i -> idx k = i.
Proof. unfold idx. intros ->. reflexivity. Qed.

Lemma idx_inj (a b : jsstring) :
  is_index a = true -> is_index b = true -> idx a = idx b -> a = b.
Proof.
  intros Ha Hb E.
  apply is_index_Some in Ha as [i Ha], Hb as [j Hb].
  rewrite (idx_Some _ _ Ha), (idx_Some _ _ Hb) in E. subst j.
  eapply array_index_inj; eassumption.
Qed.

Lemma index_keys_app (a b : list jsstring) :
  index_keys (a ++ b) <->
  index_keys a /\ index_keys b /\
  Forall (fun x => Forall (fun y => (idx x < idx y)%N) b) a.
Proof.
  induction a as [|k a IH]; simpl.
  - intuition.
  - rewrite IH, Forall_app. split.
    + intros (Hk & (Ha & Hb) & Ia & Ib & Hab). repeat split; auto.
    + intros ((Hk & Ha & Ia) & Ib & Hab). inversion Hab; subst.
      repeat split; auto.
Qed.

Lemma index_keys_all (ks : list jsstring) :
  index_keys ks -> Forall (fun k => is_index k = true) ks.
Proof.
  induction ks as [|k ks IH]; simpl; [constructor|].
  intros (Hk & _ & H). constructor; auto.
Qed.

Lemma index_keys_NoDup (ks : list jsstring) : index_keys ks -> NoDup ks.
Proof.
  induction ks as [|k ks IH]; simpl; [constructor|].
  intros (Hk & Hlt & H). constructor; [|auto].
  intros Hin. rewrite Forall_forall in Hlt. specialize (Hlt _ Hin). lia.
Qed.

Section ObjectOrder.
Context {V : Type}.
Implicit Types (o t src I S P Q T : jsobj V) (k v : jsstring) (x y : V).

Lemma is_object_nil : is_object (@nil (jsstring * V)).
Proof.
  exists [], []. repeat split; simpl; auto; constructor.
Qed.

Lemma is_object_NoDup o : is_object o -> NoDup (keys o).
Proof.
  intros (I & S & -> & HI & HS & ND). rewrite keys_app.
  apply NoDup_app; [apply index_keys_NoDup; assumption | assumption |].
  intros k Hi Hs.
  pose proof (index_keys_all _ HI) as A.
  rewrite Forall_forall in A, HS.
  specialize (A _ Hi). specialize (HS _ Hs). congruence.
Qed.

(** Being an object depends on the keys only. *)
Lemma is_object_same_keys o o' :
  keys o = keys o' -> is_object o -> is_object o'.
Proof.
  intros E (I & S & -> & HI & HS).
  exists (firstn (length I) o'), (skipn (length I) o').
  rewrite firstn_skipn. split; [reflexivity|].
  unfold keys in *. rewrite <- firstn_map, <- skipn_map, <- E, map_app.
  rewrite <- (length_map fst I).
  rewrite firstn_app, skipn_app, firstn_all, skipn_all, Nat.sub_diag.
  simpl. rewrite app_nil_r. auto.
Qed.

Lemma obj_replace_same k x o :
  obj_get o k = Some x -> obj_replace k x o = o.
Proof.
  induction o as [|[k1 x1] o IH]; simpl; [reflexivity|].
  key_cases k1 k.
  - intros H. injection H as ->. reflexivity.
  - intros H. f_equal. auto.
Qed.

Lemma obj_replace_mid P k x0 x Q :
  ~ In k (keys P) ->
  obj_replace k x (P ++ (k, x0) :: Q) = P ++ (k, x) :: Q.
Proof.
  induction P as [|[k1 x1] P IH]; simpl; intros Hn.
  - rewrite str_eqb_refl. reflexivity.
  - key_cases k1 k; [exfalso; auto|]. f_equal. auto.
Qed.

Lemma insert_index_mid I T i k x :
  Forall (below i) (keys I) -> stops i (keys T) ->
  obj_insert_index i k x (I ++ T) = I ++ (k, x) :: T.
Proof.
  induction I as [|[k1 x1] I IH]; simpl; intros HB HS.
  - destruct T as [|[k2 x2] T]; simpl in *; [reflexivity|].
    destruct (array_index k2) as [j|]; [|reflexivity].
    apply N.ltb_ge in HS. rewrite HS. reflexivity.
  - inversion HB as [|? ? [Hi Hlt] HB']; subst.
    apply is_index_Some in Hi as [j Hj]. rewrite Hj.
    rewrite (idx_Some _ _ Hj) in Hlt. apply N.ltb_lt in Hlt. rewrite Hlt.
    f_equal. auto.
Qed.

(** The index keys around a new index [i]. *)
Lemma index_split I i :
  index_keys (keys I) ->
  (forall k, In k (keys I) -> idx k <> i) ->
  exists Ia Ib, I = Ia ++ Ib /\
    Forall (below i) (keys Ia) /\
    Forall (fun k => (i < idx k)%N) (keys Ib).
Proof.
  induction I as [|[k1 x1] I IH]; simpl; intros HI Hne.
  - exists [], []. repeat split; constructor.
  - destruct HI as (Hk & Hlt & HI).
    destruct (N.ltb_spec (idx k1) i) as [L | G].
    + destruct (IH HI) as (Ia & Ib & -> & Ha & Hb); [auto|].
      exists ((k1, x1) :: Ia), Ib. repeat split; auto.
      simpl. constructor; [split|]; auto.
    + exists [], ((k1, x1) :: I). repeat split; [constructor|].
      assert (idx k1 <> i) by auto.
      simpl. constructor; [lia|].
      eapply Forall_impl; [|exact Hlt]. simpl. intros. lia.
Qed.

End ObjectOrder.

(** ** Assignments keep a property list in order *)

Section ObjectAssign.
Context {V : Type}.
Implicit Types (o t src I S P Q T : jsobj V) (k v : jsstring) (x y : V).

Lemma stops_above I S i :
  Forall (fun k => is_index k = true) (keys I) ->
  Forall (fun k => (i < idx k)%N) (keys I) ->
  Forall (fun k => is_index k = false) (keys S) ->
  stops i (keys (I ++ S)).
Proof.
  intros HI HA HS. destruct I as [|[k1 x1] I]; simpl in *.
  - destruct S as [|[k2 x2] S]; simpl in *; [exact Logic.I|].
    inversion HS as [|? ? Hn _]; subst.
    apply is_index_None in Hn. rewrite Hn. exact Logic.I.
  - inversion HI as [|? ? Hi _]; inversion HA as [|? ? Hlt _]; subst.
    apply is_index_Some in Hi as [j Hj]. rewrite Hj.
    rewrite (idx_Some _ _ Hj) in Hlt. lia.
Qed.

Lemma is_object_set o k x : is_object o -> is_object (obj_set o k x).
Proof.
  intros Ho. unfold obj_set. destruct (obj_has o k) eqn:Hh.
  - eapply is_object_same_keys; [|exact Ho]. symmetry. apply keys_replace.
  - apply obj_has_false in Hh. destruct Ho as (I & S & -> & HI & HS & ND).
    rewrite keys_app, in_app_iff in Hh.
    destruct (array_index k) as [i|] eqn:Ek.
    + assert (Hk : is_index k = true) by (apply is_index_Some; eauto).
      pose proof (index_keys_all _ HI) as HIall.
      destruct (index_split I i HI) as (Ia & Ib & -> & Ha & Hb).
      { intros k' Hin E. rewrite Forall_forall in HIall.
        assert (k' = k).
        { apply idx_inj; auto. rewrite (idx_Some _ _ Ek). exact E. }
        subst. tauto. }
      rewrite keys_app in HI, HIall.
      apply index_keys_app in HI as (HIa & HIb & Hab).
      apply Forall_app in HIall as [_ HIball].
      rewrite <- app_assoc, insert_index_mid;
        [| exact Ha | apply stops_above; assumption].
      exists (Ia ++ (k, x) :: Ib), S.
      split; [rewrite <- app_assoc; reflexivity|].
      split; [|split; assumption].
      rewrite keys_app. simpl. apply index_keys_app.
      split; [exact HIa|]. split.
      * simpl. repeat split; auto. rewrite (idx_Some _ _ Ek). exact Hb.
      * rewrite Forall_forall in Ha, Hab |- *. intros a Hin.
        constructor; [|auto].
        rewrite (idx_Some _ _ Ek). apply Ha. exact Hin.
    + exists I, (S ++ [(k, x)]). rewrite app_assoc.
      split; [reflexivity|]. split; [exact HI|].
      rewrite keys_app. simpl. split.
      * apply Forall_app. split; [exact HS|].
        constructor; [apply is_index_None; exact Ek | constructor].
      * apply NoDup_app; [exact ND | |].
        -- constructor; [simpl; tauto | constructor].
        -- intros a Ha [<- | []]. tauto.
Qed.

Lemma is_object_assign src t :
  is_object t -> is_object (obj_assign t src).
Proof.
  revert t. induction src as [|[k x] src IH]; intros t Ht; [exact Ht|].
  rewrite obj_assign_cons. apply IH. apply is_object_set. exact Ht.
Qed.

(** [{...o}] is an object whatever list [o] is. *)
Lemma is_object_spread o : is_object (obj_spread o).
Proof. apply is_object_assign. apply is_object_nil. Qed.

Lemma obj_literal1_eq k x : obj_literal1 k x = [(k, x)].
Proof.
  unfold obj_literal1, obj_set. simpl.
  destruct (array_index k); reflexivity.
Qed.

Lemma is_object_literal1 k x : is_object (obj_literal1 k x).
Proof. apply is_object_set. apply is_object_nil. Qed.

Lemma index_keys_filter (f : jsstring -> bool) (ks : list jsstring) :
  index_keys ks -> index_keys (filter f ks).
Proof.
  induction ks as [|k ks IH]; simpl; [auto|].
  intros (Hk & Hlt & H). destruct (f k); simpl; auto.
  repeat split; auto.
  rewrite Forall_forall in Hlt |- *. intros a Ha.
  apply filter_In in Ha as [Ha _]. auto.
Qed.

Lemma obj_delete_app k o t :
  obj_delete k (o ++ t) = obj_delete k o ++ obj_delete k t.
Proof.
  induction o as [|[k1 x1] o IH]; simpl; [reflexivity|].
  destruct (str_eqb k1 k); simpl; congruence.
Qed.

Lemma is_object_delete k o : is_object o -> is_object (obj_delete k o).
Proof.
  intros (I & S & -> & HI & HS & ND).
  exists (obj_delete k I), (obj_delete k S).
  split; [apply obj_delete_app|]. rewrite !keys_delete.
  split; [apply index_keys_filter; exact HI|]. split.
  - rewrite Forall_forall in HS |- *. intros a Ha.
    apply filter_In in Ha as [Ha _]. auto.
  - apply NoDup_filter. exact ND.
Qed.

End ObjectAssign.

(** ** Object literals with a spread

    The property list of [{[v]: x, ...o}] in closed form. *)

Section ObjectLiteral.
Context {V : Type}.
Implicit Types (o t src I S P Q T : jsobj V) (k v : jsstring) (x y : V).

(** The index keys of the source go in front of what is there. *)
Lemma assign_index_phase I2 : forall I1 T,
  index_keys (keys (I1 ++ I2)) ->
  (forall k, In k (keys I2) -> stops (idx k) (keys T) /\ ~ In k (keys T)) ->
  obj_assign (I1 ++ T) I2 = I1 ++ I2 ++ T.
Proof.
  induction I2 as [|[k y] I2 IH]; intros I1 T HI HT; [reflexivity|].
  rewrite obj_assign_cons.
  destruct (HT k (or_introl eq_refl)) as [Hst Hn].
  pose proof HI as HI'.
  rewrite keys_app in HI'. apply index_keys_app in HI' as (H1 & H2 & H12).
  simpl in H2. destruct H2 as (Hk & Hlt & H2).
  assert (Hb : Forall (below (idx k)) (keys I1)).
  { pose proof (index_keys_all _ H1) as A.
    rewrite Forall_forall in H12, A |- *. intros a Ha. split; [auto|].
    specialize (H12 a Ha). inversion H12; assumption. }
  assert (Hs : obj_set (I1 ++ T) k y = I1 ++ (k, y) :: T).
  { unfold obj_set.
    assert (Hh : obj_has (I1 ++ T) k = false).
    { apply obj_has_false. rewrite keys_app, in_app_iff.
      intros [Hin | Hin]; [|tauto].
      rewrite Forall_forall in Hb. destruct (Hb _ Hin). lia. }
    rewrite Hh. apply is_index_Some in Hk as [i Hi]. rewrite Hi.
    apply insert_index_mid; rewrite <- (idx_Some _ _ Hi); assumption. }
  rewrite Hs.
  replace (I1 ++ (k, y) :: T) with ((I1 ++ [(k, y)]) ++ T)
    by (rewrite <- app_assoc; reflexivity).
  rewrite IH.
  - rewrite <- app_assoc. reflexivity.
  - rewrite <- app_assoc. exact HI.
  - intros k' Hin. apply HT. right. exact Hin.
Qed.

Lemma assign_index_front I T :
  index_keys (keys I) ->
  (forall k, In k (keys I) -> stops (idx k) (keys T) /\ ~ In k (keys T)) ->
  obj_assign T I = I ++ T.
Proof. intros HI HT. apply (assign_index_phase I [] T); assumption. Qed.

Lemma assign_index_end I1 I2 :
  index_keys (keys (I1 ++ I2)) -> obj_assign I1 I2 = I1 ++ I2.
Proof.
  intros HI. pose proof (assign_index_phase I2 I1 [] HI) as H.
  rewrite !app_nil_r in H. apply H. intros k _. simpl. tauto.
Qed.

(** The other keys of the source are appended, except [v], which is
    there already and keeps its place. *)
Lemma assign_names_phase S : forall P Q v x0,
  Forall (fun k => is_index k = true) (keys P) ->
  is_index v = false ->
  name_keys (keys S) ->
  (forall k, In k (keys S) -> ~ In k (keys Q)) ->
  ~ In v (keys Q) ->
  obj_assign (P ++ (v, x0) :: Q) S =
  P ++ (v, match obj_get S v with Some y => y | None => x0 end)
    :: Q ++ obj_delete v S.
Proof.
  induction S as [|[k1 x1] S IH]; intros P Q v x0 HP Hv [HS ND] HQ HvQ.
  - simpl. rewrite app_nil_r. reflexivity.
  - rewrite obj_assign_cons. simpl in HS, ND.
    inversion HS as [|? ? Hk1 HS']; inversion ND as [|? ? Hn ND']; subst.
    assert (HvP : ~ In v (keys P)).
    { intros Hin. rewrite Forall_forall in HP. specialize (HP _ Hin).
      congruence. }
    simpl. key_cases k1 v.
    + assert (Hs : obj_set (P ++ (v, x0) :: Q) v x1 = P ++ (v, x1) :: Q).
      { unfold obj_set.
        assert (Hh : obj_has (P ++ (v, x0) :: Q) v = true).
        { apply obj_has_In. rewrite keys_app, in_app_iff. simpl. auto. }
        rewrite Hh. apply obj_replace_mid. exact HvP. }
      rewrite Hs, IH; auto.
      * apply obj_get_None in Hn. rewrite Hn. reflexivity.
      * split; assumption.
      * intros k Hin. apply HQ. simpl. auto.
    + assert (Hs : obj_set (P ++ (v, x0) :: Q) k1 x1
                   = P ++ (v, x0) :: Q ++ [(k1, x1)]).
      { unfold obj_set.
        assert (Hh : obj_has (P ++ (v, x0) :: Q) k1 = false).
        { apply obj_has_false. rewrite keys_app, in_app_iff. simpl.
          intros [Hin | [Hin | Hin]].
          - rewrite Forall_forall in HP. specialize (HP _ Hin). congruence.
          - congruence.
          - apply (HQ k1); simpl; auto. }
        rewrite Hh. apply is_index_None in Hk1. rewrite Hk1.
        rewrite <- app_assoc. reflexivity. }
      rewrite Hs, (IH P (Q ++ [(k1, x1)])); auto.
      * rewrite <- app_assoc. reflexivity.
      * split; assumption.
      * intros k Hin. rewrite keys_app, in_app_iff. simpl.
        intros [HinQ | [<- | []]]; [|contradiction].
        apply (HQ k); simpl; auto.
      * rewrite keys_app, in_app_iff. simpl. intros [? | [? | []]]; auto.
Qed.

Lemma assign_names_append S : forall t,
  name_keys (keys S) ->
  (forall k, In k (keys S) -> ~ In k (keys t)) ->
  obj_assign t S = t ++ S.
Proof.
  induction S as [|[k1 x1] S IH]; intros t [HS ND] Ht.
  - simpl. rewrite app_nil_r. reflexivity.
  - rewrite obj_assign_cons. simpl in HS, ND.
    inversion HS as [|? ? Hk1 HS']; inversion ND as [|? ? Hn ND']; subst.
    assert (Hs : obj_set t k1 x1 = t ++ [(k1, x1)]).
    { unfold obj_set.
      assert (Hh : obj_has t k1 = false).
      { apply obj_has_false. apply Ht. simpl. auto. }
      rewrite Hh. apply is_index_None in Hk1. rewrite Hk1. reflexivity. }
    rewrite Hs, IH.
    + rewrite <- app_assoc. reflexivity.
    + split; assumption.
    + intros k Hin. rewrite keys_app, in_app_iff. simpl.
      intros [HinQ | [<- | []]]; [|contradiction].
      apply (Ht k); simpl; auto.
Qed.

Lemma names_not_index I S k :
  index_keys (keys I) -> name_keys (keys S) ->
  In k (keys S) -> ~ In k (keys I).
Proof.
  intros HI [HS _] Hs Hi.
  pose proof (index_keys_all _ HI) as A.
  rewrite Forall_forall in A, HS.
  specialize (A _ Hi). specialize (HS _ Hs). congruence.
Qed.

(** Copying an object gives the same property list. *)
Lemma obj_spread_object o : is_object o -> obj_spread o = o.
Proof.
  intros (I & S & -> & HI & HS). unfold obj_spread.
  rewrite obj_assign_app, (assign_index_end [] I HI). simpl.
  apply assign_names_append; [exact HS|].
  intros k. apply names_not_index; assumption.
Qed.

(** [{[v]: x0, ...o}] when [v] is not an array index: [v] comes right
    after the index keys, with the value [o] has for it if any. *)
Lemma literal_name I S v x0 :
  index_keys (keys I) -> name_keys (keys S) -> is_index v = false ->
  obj_assign (obj_literal1 v x0) (I ++ S) =
  I ++ (v, match obj_get S v with Some y => y | None => x0 end)
    :: obj_delete v S.
Proof.
  intros HI HS Hv.
  rewrite obj_literal1_eq, obj_assign_app.
  rewrite (@assign_index_front I [(v, x0)]); [|exact HI|].
  - pose proof (assign_names_phase S I [] v x0) as H. simpl in H.
    apply H; auto. apply index_keys_all. exact HI.
  - intros k Hin. simpl. apply is_index_None in Hv as Hv'. rewrite Hv'.
    split; [exact Logic.I|]. intros [<- | []].
    pose proof (index_keys_all _ HI) as A. rewrite Forall_forall in A.
    specialize (A _ Hin). congruence.
Qed.

(** [{[v]: o[v], ...o}] when [v] is an array index of [o]: nothing
    moves. *)
Lemma literal_index I S v x :
  index_keys (keys I) -> name_keys (keys S) -> is_index v = true ->
  obj_get (I ++ S) v = Some x ->
  obj_assign (obj_literal1 v x) (I ++ S) = I ++ S.
Proof.
  intros HI HS Hv G.
  assert (GI : obj_get I v = Some x).
  { rewrite obj_get_app in G. destruct (obj_get I v); [exact G|].
    apply obj_get_In, (in_map fst) in G. simpl in G.
    destruct HS as [HS _]. rewrite Forall_forall in HS.
    specialize (HS _ G). congruence. }
  apply obj_get_In, in_split in GI as (Ia & Ib & ->).
  pose proof HI as HI'. rewrite keys_app in HI'.
  apply index_keys_app in HI' as (Ha & Hvb & Hab).
  assert (Hlt : forall k, In k (keys Ia) -> (idx k < idx v)%N).
  { intros k Hin. rewrite Forall_forall in Hab.
    specialize (Hab _ Hin). inversion Hab; assumption. }
  rewrite obj_literal1_eq, obj_assign_app, obj_assign_app, obj_assign_cons.
  rewrite (@assign_index_front Ia [(v, x)]); [|exact Ha|].
  - assert (Hs : obj_set (Ia ++ [(v, x)]) v x = Ia ++ [(v, x)]).
    { unfold obj_set.
      assert (Gv : obj_get (Ia ++ [(v, x)]) v = Some x).
      { rewrite obj_get_app.
        assert (Gn : obj_get Ia v = None).
        { apply obj_get_None. intros Hin. specialize (Hlt _ Hin). lia. }
        rewrite Gn. simpl. rewrite str_eqb_refl. reflexivity. }
      unfold obj_has. rewrite Gv. apply obj_replace_same. exact Gv. }
    rewrite Hs, (@assign_index_end (Ia ++ [(v, x)]) Ib).
    + rewrite <- app_assoc. simpl.
      apply assign_names_append; [exact HS|].
      intros k. apply names_not_index; assumption.
    + rewrite <- app_assoc. exact HI.
  - intros k Hin. specialize (Hlt _ Hin). simpl.
    apply is_index_Some in Hv as [i Hi]. rewrite Hi.
    rewrite (idx_Some _ _ Hi) in Hlt. split; [lia|].
    intros [<- | []]. rewrite (idx_Some _ _ Hi) in Hlt. lia.
Qed.

(** The index keys around the index key [v], which may be among them. *)
Lemma index_split_at I v :
  index_keys (keys I) -> is_index v = true ->
  exists Ia Ib,
    Forall (below (idx v)) (keys Ia) /\
    Forall (fun k => (idx v < idx k)%N) (keys Ib) /\
    (I = Ia ++ Ib \/ exists y, I = Ia ++ (v, y) :: Ib).
Proof.
  intros HI Hv. induction I as [|[k1 x1] I IH]; simpl in HI.
  - exists [], []. split; [constructor|]. split; [constructor|].
    left. reflexivity.
  - destruct HI as (Hk & Hlt & HI).
    destruct (N.lt_trichotomy (idx k1) (idx v)) as [L | [E | G]].
    + destruct (IH HI) as (Ia & Ib & Ha & Hb & Hc).
      exists ((k1, x1) :: Ia), Ib. split; [|split; [exact Hb|]].
      * simpl. constructor; [split; assumption | exact Ha].
      * destruct Hc as [-> | [y ->]]; [left | right; exists y]; reflexivity.
    + assert (k1 = v) by (apply idx_inj; assumption). subst k1.
      exists [], I. split; [constructor|]. split; [exact Hlt|].
      right. exists x1. reflexivity.
    + exists [], ((k1, x1) :: I). split; [constructor|]. split.
      * simpl. constructor; [exact G|].
        eapply Forall_impl; [|exact Hlt]. simpl. intros. lia.
      * left. reflexivity.
Qed.

Lemma index_keys_around Ia Ib v x :
  is_index v = true ->
  index_keys (keys Ia) -> index_keys (keys Ib) ->
  Forall (below (idx v)) (keys Ia) ->
  Forall (fun k => (idx v < idx k)%N) (keys Ib) ->
  index_keys (keys ((Ia ++ [(v, x)]) ++ Ib)).
Proof.
  intros Hv Ha Hb La Lb. rewrite !keys_app. simpl.
  apply index_keys_app. split; [|split; [exact Hb|]].
  - apply index_keys_app. split; [exact Ha|]. split.
    + simpl. repeat split; auto.
    + rewrite Forall_forall in La |- *. intros a Hin.
      constructor; [apply La; exact Hin | constructor].
  - apply Forall_app. split.
    + rewrite Forall_forall in La, Lb |- *. intros a Hin.
      apply Forall_forall. intros b Hb'.
      destruct (La _ Hin) as [_ L1]. specialize (Lb _ Hb'). lia.
    + constructor; [exact Lb | constructor].
Qed.

(** [{[v]: x, ...o}] when [v] is an array index: [v] takes its place among
    the index keys, with the value [o] has for it if any. *)
Lemma literal_index_any I S v x :
  index_keys (keys I) -> name_keys (keys S) -> is_index v = true ->
  exists Ia Ib x',
    obj_assign (obj_literal1 v x) (I ++ S) = Ia ++ (v, x') :: Ib ++ S /\
    obj_delete v I = Ia ++ Ib /\
    ~ In v (keys Ia) /\ ~ In v (keys Ib).
Proof.
  intros HI HS Hv.
  destruct (index_split_at I v HI Hv) as (Ia & Ib & La & Lb & Hc).
  assert (Na : ~ In v (keys Ia)).
  { intros Hin. rewrite Forall_forall in La. destruct (La _ Hin). lia. }
  assert (Nb : ~ In v (keys Ib)).
  { intros Hin. rewrite Forall_forall in Lb. specialize (Lb _ Hin). lia. }
  assert (Da : obj_delete v Ia = Ia)
    by (apply obj_delete_absent, obj_get_None; exact Na).
  assert (Db : obj_delete v Ib = Ib)
    by (apply obj_delete_absent, obj_get_None; exact Nb).
  assert (Ha : index_keys (keys Ia) /\ index_keys (keys Ib)).
  { destruct Hc as [-> | [y ->]]; rewrite keys_app in HI;
      apply index_keys_app in HI as (H1 & H2 & _); split; auto.
    simpl in H2. tauto. }
  destruct Ha as [Ha Hb].
  assert (Front : obj_assign [(v, x)] Ia = Ia ++ [(v, x)]).
  { apply assign_index_front; [exact Ha|].
    intros k Hin. rewrite Forall_forall in La. destruct (La _ Hin) as [_ L].
    simpl. apply is_index_Some in Hv as [i Hi]. rewrite Hi.
    rewrite (idx_Some _ _ Hi) in L. split; [lia|].
    intros [<- | []]. rewrite (idx_Some _ _ Hi) in L. lia. }
  assert (Names : forall J, index_keys (keys J) ->
                            obj_assign J S = J ++ S).
  { intros J HJ. apply assign_names_append; [exact HS|].
    intros k. apply names_not_index; assumption. }
  rewrite obj_literal1_eq, obj_assign_app.
  destruct Hc as [-> | [y ->]].
  - exists Ia, Ib, x.
    rewrite obj_delete_app, Da, Db. split; [|auto].
    rewrite obj_assign_app, Front.
    rewrite (assign_index_end (Ia ++ [(v, x)]) Ib)
      by (apply index_keys_around; assumption).
    rewrite Names by (apply index_keys_around; assumption).
    rewrite <- !app_assoc. reflexivity.
  - exists Ia, Ib, y.
    rewrite obj_delete_app, Da. simpl. rewrite str_eqb_refl, Db.
    split; [|auto].
    rewrite obj_assign_app, obj_assign_cons, Front.
    assert (Hs : obj_set (Ia ++ [(v, x)]) v y = Ia ++ [(v, y)]).
    { unfold obj_set.
      assert (Hh : obj_has (Ia ++ [(v, x)]) v = true).
      { apply obj_has_In. rewrite keys_app, in_app_iff. simpl. auto. }
      rewrite Hh. apply obj_replace_mid. exact Na. }
    rewrite Hs.
    rewrite (assign_index_end (Ia ++ [(v, y)]) Ib)
      by (apply index_keys_around; assumption).
    rewrite Names by (apply index_keys_around; assumption).
    rewrite <- !app_assoc. reflexivity.
Qed.

End ObjectLiteral.

(** ** The check [property_order] *)

Section PropertyOrder.
Context {V : Type}.
Implicit Types (o S : jsobj V).

Lemma names_ok_keys S : names_ok S = true -> name_keys (keys S).
Proof.
  induction S as [|[k x] S IH]; simpl.
  - intros _. split; constructor.
  - rewrite !andb_true_iff, !negb_true_iff. intros [[Hk Hh] HS].
    destruct (IH HS) as [HF ND]. split; constructor; auto.
    apply obj_has_false. exact Hh.
Qed.

Lemma property_order_object o : property_order o = true -> is_object o.
Proof.
  induction o as [|[k x] o IH]; [intros _; apply is_object_nil|].
  cbn [property_order]. destruct (array_index k) as [i|] eqn:Ek.
  - rewrite andb_true_iff. intros [Hh Ho].
    destruct (IH Ho) as (I & S & -> & HI & HS).
    exists ((k, x) :: I), S. split; [reflexivity|]. split; [|exact HS].
    simpl. split; [apply is_index_Some; eauto|]. split; [|exact HI].
    destruct I as [|[k1 x1] I]; [constructor|].
    simpl in HI, Hh. destruct HI as (Hk1 & Hlt & HI).
    apply is_index_Some in Hk1 as [j Hj]. rewrite Hj in Hh.
    apply N.ltb_lt in Hh. simpl.
    assert (idx k < idx k1)%N
      by (rewrite (idx_Some _ _ Ek), (idx_Some _ _ Hj); exact Hh).
    constructor; [assumption|].
    eapply Forall_impl; [|exact Hlt]. simpl. intros. lia.
  - intros H. exists [], ((k, x) :: o). split; [reflexivity|].
    split; [exact Logic.I|]. apply names_ok_keys. exact H.
Qed.

Lemma names_keys_ok S : name_keys (keys S) -> names_ok S = true.
Proof.
  induction S as [|[k x] S IH]; simpl; [reflexivity|].
  intros [HS ND]. inversion HS as [|? ? Hk HS']; subst.
  inversion ND as [|? ? Hn ND']; subst.
  rewrite Hk, (proj2 (obj_has_false S k) Hn), IH by (split; assumption).
  reflexivity.
Qed.

Lemma names_property_order S : name_keys (keys S) -> property_order S = true.
Proof.
  intros HS. destruct S as [|[k x] S]; [reflexivity|].
  cbn [property_order].
  assert (Hk : array_index k = None).
  { destruct HS as [HS _]. inversion HS. apply is_index_None. assumption. }
  rewrite Hk. apply names_keys_ok. exact HS.
Qed.

(** Every object passes the check. *)
Lemma object_property_order o : is_object o -> property_order o = true.
Proof.
  intros (I & S & -> & HI & HS).
  induction I as [|[k x] I IH]; [apply names_property_order; exact HS|].
  simpl in HI. destruct HI as (Hk & Hlt & HI).
  cbn [app property_order].
  apply is_index_Some in Hk as [i Hi]. rewrite Hi.
  rewrite (IH HI), andb_true_r.
  destruct I as [|[k1 x1] I]; simpl.
  - destruct S as [|[k2 x2] S]; [reflexivity|].
    destruct (array_index k2) eqn:E2; [|reflexivity].
    destruct HS as [HS _]. inversion HS as [|? ? Hn _]; subst.
    apply is_index_None in Hn. simpl in Hn. congruence.
  - simpl in HI. destruct HI as (Hk1 & _).
    apply is_index_Some in Hk1 as [j Hj]. rewrite Hj.
    inversion Hlt as [|? ? Hij _]; subst.
    rewrite (idx_Some _ _ Hi), (idx_Some _ _ Hj) in Hij.
    apply N.ltb_lt. exact Hij.
Qed.

End PropertyOrder.

(** ** Defining a key first *)

Section Reorder.
Context {V : Type}.
Implicit Types (o I S : jsobj V) (k v : jsstring) (x y : V).

Lemma obj_delete_replace k x o :
  obj_delete k (obj_replace k x o) = obj_delete k o.
Proof.
  induction o as [|[k1 x1] o IH]; simpl; [reflexivity|].
  destruct (str_eqb k1 k) eqn:E; simpl; rewrite E; congruence.
Qed.

Lemma obj_delete_insert_index i k x o :
  obj_delete k (obj_insert_index i k x o) = obj_delete k o.
Proof.
  induction o as [|[k1 x1] o IH]; simpl.
  - rewrite str_eqb_refl. reflexivity.
  - destruct (array_index k1) as [j|]; [destruct (j <? i)%N|]; simpl;
      rewrite ?str_eqb_refl; try reflexivity.
    destruct (str_eqb k1 k); congruence.
Qed.

Lemma obj_delete_set o k x : obj_delete k (obj_set o k x) = obj_delete k o.
Proof.
  unfold obj_set. destruct (obj_has o k).
  - apply obj_delete_replace.
  - destruct (array_index k).
    + apply obj_delete_insert_index.
    + rewrite obj_delete_app. simpl. rewrite str_eqb_refl.
      apply app_nil_r.
Qed.

Lemma obj_delete_idem k o : obj_delete k (obj_delete k o) = obj_delete k o.
Proof.
  apply obj_delete_absent. rewrite obj_get_delete, str_eqb_refl.
  reflexivity.
Qed.

Lemma obj_get_names I S v :
  index_keys (keys I) -> is_index v = false ->
  obj_get (I ++ S) v = obj_get S v.
Proof.
  intros HI Hv. rewrite obj_get_app.
  assert (G : obj_get I v = None).
  { apply obj_get_None. intros Hin.
    pose proof (index_keys_all _ HI) as A. rewrite Forall_forall in A.
    specialize (A _ Hin). congruence. }
  rewrite G. reflexivity.
Qed.

Lemma name_keys_front S v y :
  name_keys (keys S) -> is_index v = false ->
  name_keys (keys ((v, y) :: obj_delete v S)).
Proof.
  intros [HS ND] Hv. simpl. rewrite keys_delete. split.
  - constructor; [exact Hv|].
    rewrite Forall_forall in HS |- *. intros a Ha.
    apply filter_In in Ha as [Ha _]. auto.
  - constructor; [|apply NoDup_filter; exact ND].
    intros Hin. apply filter_In in Hin as [_ Hin].
    rewrite str_eqb_refl in Hin. discriminate.
Qed.

(** [{[v]: o[v], ...o}] when [v] is not an array index. *)
Lemma reorder_name I S v y :
  index_keys (keys I) -> name_keys (keys S) -> is_index v = false ->
  obj_get (I ++ S) v = Some y ->
  obj_assign (obj_literal1 v y) (I ++ S) = I ++ (v, y) :: obj_delete v S.
Proof.
  intros HI HS Hv G. rewrite obj_get_names in G by assumption.
  rewrite literal_name, G by assumption. reflexivity.
Qed.

Lemma reorder_object o v y :
  is_object o -> obj_get o v = Some y ->
  is_object (obj_assign (obj_literal1 v y) o).
Proof.
  intros Ho _. apply is_object_assign. apply is_object_literal1.
Qed.

(** The properties keep their values. *)
Lemma reorder_get o v y k :
  is_object o -> obj_get o v = Some y ->
  obj_get (obj_assign (obj_literal1 v y) o) k = obj_get o k.
Proof.
  intros Ho G. rewrite obj_get_assign by (apply is_object_NoDup; exact Ho).
  destruct (obj_get o k) eqn:Gk; [reflexivity|].
  rewrite obj_literal1_eq. simpl. key_cases v k; [congruence | reflexivity].
Qed.

(** Doing it again changes nothing. *)
Lemma reorder_fixed o v y :
  is_object o -> obj_get o v = Some y ->
  obj_assign (obj_literal1 v y) (obj_assign (obj_literal1 v y) o)
  = obj_assign (obj_literal1 v y) o.
Proof.
  intros (I & S & -> & HI & HS) G.
  destruct (is_index v) eqn:Hv.
  - rewrite !literal_index by assumption. reflexivity.
  - rewrite reorder_name by assumption.
    pose proof (@name_keys_front S v y HS Hv) as HS'.
    rewrite literal_name by assumption.
    simpl. rewrite str_eqb_refl, obj_delete_idem. reflexivity.
Qed.

(** The other keys stay in the order they had. *)
Lemma reorder_other_keys o v y :
  is_object o -> obj_get o v = Some y ->
  other_keys v (obj_assign (obj_literal1 v y) o) = other_keys v o.
Proof.
  intros (I & S & -> & HI & HS) G.
  destruct (is_index v) eqn:Hv.
  - rewrite literal_index by assumption. reflexivity.
  - rewrite reorder_name by assumption.
    unfold other_keys. rewrite !keys_app, !filter_app. f_equal.
    simpl. rewrite str_eqb_refl. simpl.
    rewrite keys_delete. symmetry. clear.
    induction (keys S) as [|a l IH]; simpl; [reflexivity|].
    destruct (str_eqb a v) eqn:E; simpl; [exact IH|].
    rewrite E. simpl. f_equal. exact IH.
Qed.

(** An object whose first key is [v] already is left as it is. *)
Lemma reorder_first o v y :
  is_object o -> first_key o = Some v -> obj_get o v = Some y ->
  obj_assign (obj_literal1 v y) o = o.
Proof.
  intros (I & S & -> & HI & HS) F G.
  destruct (is_index v) eqn:Hv.
  - apply literal_index; assumption.
  - rewrite reorder_name by assumption.
    destruct I as [|[k1 x1] I].
    + simpl in *. destruct S as [|[k2 x2] S]; [discriminate|].
      simpl in F. injection F as ->.
      simpl in G. rewrite str_eqb_refl in G. injection G as ->.
      simpl. rewrite str_eqb_refl. f_equal.
      apply obj_delete_absent. apply obj_get_None.
      destruct HS as [_ ND]. simpl in ND. inversion ND. assumption.
    + simpl in F. injection F as ->. simpl in HI.
      destruct HI as [Hk _]. congruence.
Qed.

Lemma other_keys_app v o t :
  other_keys v (o ++ t) = other_keys v o ++ other_keys v t.
Proof. unfold other_keys. rewrite keys_app. apply filter_app. Qed.

Lemma other_keys_delete v o : other_keys v (obj_delete v o) = other_keys v o.
Proof.
  unfold other_keys. rewrite keys_delete.
  induction (keys o) as [|a l IH]; simpl; [reflexivity|].
  destruct (str_eqb a v) eqn:E; simpl; [exact IH|].
  rewrite E. simpl. f_equal. exact IH.
Qed.

Lemma other_keys_absent v o : ~ In v (keys o) -> other_keys v o = keys o.
Proof.
  unfold other_keys. induction (keys o) as [|a l IH]; simpl; [reflexivity|].
  intros Hn. key_cases a v; [exfalso; auto|]. simpl. f_equal. auto.
Qed.

(** Defining [v] first leaves the other keys in the order they had. *)
Lemma assign_other_keys o v x :
  is_object o ->
  other_keys v (obj_assign (obj_literal1 v x) o) = other_keys v o.
Proof.
  intros (I & S & -> & HI & HS). destruct (is_index v) eqn:Hv.
  - destruct (literal_index_any I S v x HI HS Hv)
      as (Ia & Ib & x' & -> & Hd & Na & Nb).
    rewrite !other_keys_app. rewrite <- (other_keys_delete v I), Hd.
    rewrite other_keys_app. rewrite <- app_assoc. f_equal.
    unfold other_keys at 1. simpl. rewrite str_eqb_refl. simpl.
    fold (other_keys v (Ib ++ S)). apply other_keys_app.
  - rewrite literal_name by assumption.
    rewrite !other_keys_app. f_equal.
    unfold other_keys at 1. simpl. rewrite str_eqb_refl. simpl.
    apply other_keys_delete.
Qed.

End Reorder.

(** ** The merge

    The lemmas of this part are about [merge_result], the log that [merge]
    returns; lemma [merge_cases], after them, says when [merge] returns
    it and when it throws. *)

Section MergeFacts.
Implicit Types (L : jsobj (list JSON)) (v : jsstring) (r : JSON).

(** [merge_result] starts by copying the log. *)
Lemma merge_spread L v r : merge_result (obj_spread L) v r = merge_result L v r.
Proof.
  unfold merge_result. rewrite (obj_spread_object _ (is_object_spread L)).
  reflexivity.
Qed.

Lemma serialized_in_In r b :
  serialized_in r b = true
  <-> In (JSON_stringify r) (List.map JSON_stringify b).
Proof. apply includes_In. Qed.

(** The duplicate: only the last literal of the function acts. *)
Lemma merge_duplicate L v r b :
  is_object L -> obj_get L v = Some b -> serialized_in r b = true ->
  merge_result L v r = obj_assign (obj_literal1 v b) L.
Proof.
  intros HL G Hd. unfold merge_result. cbv zeta.
  rewrite (obj_spread_object _ HL), G. cbv iota. rewrite G.
  unfold serialized_in in Hd. rewrite Hd. simpl negb. cbv iota.
  rewrite G. reflexivity.
Qed.

Lemma obj_get_fresh L v (b : list JSON) :
  is_object L ->
  obj_get (obj_assign (obj_literal1 v b) (obj_delete v L)) v = Some b.
Proof.
  intros HL.
  rewrite obj_get_assign
    by (apply is_object_NoDup, is_object_delete; exact HL).
  rewrite obj_get_delete, str_eqb_refl, obj_literal1_eq.
  simpl. rewrite str_eqb_refl. reflexivity.
Qed.

(** The new record: both literals act. *)
Lemma merge_new L v r :
  is_object L -> serialized_in r (bucket_of L v) = false ->
  merge_result L v r =
  obj_assign (obj_literal1 v (r :: bucket_of L v))
    (obj_assign (obj_literal1 v (r :: bucket_of L v)) (obj_delete v L)).
Proof.
  intros HL Hn. unfold merge_result. cbv zeta. rewrite (obj_spread_object _ HL).
  set (sb1 := match obj_get L v with
              | Some _ => L
              | None => obj_set L v []
              end).
  assert (G1 : obj_get sb1 v = Some (bucket_of L v)).
  { unfold sb1, bucket_of. destruct (obj_get L v) eqn:G; [exact G|].
    rewrite obj_get_set, str_eqb_refl. reflexivity. }
  assert (D1 : obj_delete v sb1 = obj_delete v L).
  { unfold sb1. destruct (obj_get L v); [reflexivity|].
    apply obj_delete_set. }
  rewrite G1. unfold serialized_in in Hn. rewrite Hn.
  simpl negb. cbv iota. rewrite D1, obj_get_fresh by exact HL.
  reflexivity.
Qed.

(** The result of [merge_result] is some log, holding under [v] a record
    serialized like [r], rebuilt with [v] defined first. *)
Lemma merge_shape L v r :
  is_object L ->
  exists y o,
    is_object o /\ obj_get o v = Some y /\ serialized_in r y = true /\
    merge_result L v r = obj_assign (obj_literal1 v y) o.
Proof.
  intros HL. destruct (serialized_in r (bucket_of L v)) eqn:E.
  - destruct (obj_get L v) as [b|] eqn:G;
      unfold bucket_of in E; rewrite G in E; [|discriminate].
    exists b, L. repeat split; auto. apply merge_duplicate; assumption.
  - exists (r :: bucket_of L v),
      (obj_assign (obj_literal1 v (r :: bucket_of L v)) (obj_delete v L)).
    split; [apply is_object_assign, is_object_literal1|].
    split; [apply obj_get_fresh; exact HL|].
    split; [|apply merge_new; assumption].
    apply serialized_in_In. left. reflexivity.
Qed.

(** The result of [merge_result] is the property list of an object. *)
Lemma merge_object L v r : is_object (merge_result L v r).
Proof.
  rewrite <- merge_spread.
  destruct (merge_shape (obj_spread L) v r (is_object_spread L))
    as (y & o & Ho & _ & _ & ->).
  apply is_object_assign, is_object_literal1.
Qed.

(** The log [merge_result] returns passes the check [property_order]. *)
Lemma merge_property_order L v r : property_order (merge_result L v r) = true.
Proof. apply object_property_order, merge_object. Qed.

Lemma cons_neq {A : Type} (a : A) (l : list A) : a :: l <> l.
Proof.
  intros E. apply (f_equal (@length A)) in E. simpl in E. lia.
Qed.

(** An object without array-index keys. *)
Lemma names_only {V : Type} (o : jsobj V) :
  is_object o -> Forall (fun k => is_index k = false) (keys o) ->
  name_keys (keys o).
Proof.
  intros (I & S & -> & HI & HS) HN. destruct I as [|[k x] I]; [exact HS|].
  simpl in HI, HN. destruct HI as [Hk _]. inversion HN. congruence.
Qed.

(** When no array-index key is involved, [v] is the first key of the
    result and the other keys keep their order. *)
Lemma merge_first_key L v r :
  property_order L = true ->
  Forall (fun k => is_index k = false) (v :: keys L) ->
  first_key (merge_result L v r) = Some v /\
  other_keys v (merge_result L v r) = other_keys v L.
Proof.
  intros HL HN. apply property_order_object in HL.
  inversion HN as [|? ? Hv HK]; subst.
  pose proof (names_only L HL HK) as HS.
  assert (Hd : name_keys (keys (obj_delete v L))).
  { apply names_only; [apply is_object_delete; exact HL|].
    rewrite keys_delete. rewrite Forall_forall in HK |- *.
    intros a Ha. apply filter_In in Ha as [Ha _]. auto. }
  assert (Hf : forall b, other_keys v ((v, b) :: obj_delete v L)
                         = other_keys v L).
  { intros b. unfold other_keys. simpl. rewrite str_eqb_refl. simpl.
    rewrite keys_delete. clear.
    induction (keys L) as [|a l IH]; simpl; [reflexivity|].
    destruct (str_eqb a v) eqn:E; simpl; [exact IH|].
    rewrite E. simpl. f_equal. exact IH. }
  destruct (serialized_in r (bucket_of L v)) eqn:E.
  - destruct (obj_get L v) as [b|] eqn:G;
      unfold bucket_of in E; rewrite G in E; [|discriminate].
    rewrite (merge_duplicate L v r b HL G E).
    pose proof (reorder_name [] L v b I HS Hv G) as R.
    cbn [app] in R. rewrite R. simpl. auto.
  - rewrite (merge_new L v r HL E).
    set (b := r :: bucket_of L v).
    assert (Hi : obj_assign (obj_literal1 v b) (obj_delete v L)
                 = (v, b) :: obj_delete v L).
    { pose proof (literal_name [] (obj_delete v L) v b I Hd Hv) as R.
      cbn [app] in R. rewrite R.
      rewrite obj_get_delete, str_eqb_refl, obj_delete_idem.
      reflexivity. }
    rewrite Hi, reorder_first.
    + simpl. auto.
    + exists [], ((v, b) :: obj_delete v L).
      split; [reflexivity|]. split; [exact I|].
      apply (name_keys_front L v b HS Hv).
    + reflexivity.
    + simpl. rewrite str_eqb_refl. reflexivity.
Qed.

End MergeFacts.

Section MergeCases.
Implicit Types (L : jsobj (list JSON)) (v : jsstring) (r : JSON).

Lemma merge_new_get L v r :
  is_object L -> serialized_in r (bucket_of L v) = false ->
  obj_get (merge_result L v r) v = Some (r :: bucket_of L v).
Proof.
  intros HL Hn. rewrite merge_new by assumption.
  pose proof (obj_get_fresh L v (r :: bucket_of L v) HL) as G.
  rewrite reorder_get; [exact G | | exact G].
  apply is_object_assign, is_object_literal1.
Qed.

Lemma merge_duplicate_bucket L v r :
  is_object L -> serialized_in r (bucket_of L v) = true ->
  obj_get L v = Some (bucket_of L v).
Proof.
  intros HL Hd. unfold bucket_of in *.
  destruct (obj_get L v); [reflexivity | discriminate].
Qed.

Lemma merge_duplicate_get L v r k :
  is_object L -> serialized_in r (bucket_of L v) = true ->
  obj_get (merge_result L v r) k = obj_get L k.
Proof.
  intros HL Hd. pose proof (merge_duplicate_bucket L v r HL Hd) as G.
  rewrite (merge_duplicate L v r _ HL G Hd).
  apply reorder_get; assumption.
Qed.

Lemma merge_duplicate_other_keys L v r :
  is_object L -> serialized_in r (bucket_of L v) = true ->
  other_keys v (merge_result L v r) = other_keys v L.
Proof.
  intros HL Hd. pose proof (merge_duplicate_bucket L v r HL Hd) as G.
  rewrite (merge_duplicate L v r _ HL G Hd).
  apply reorder_other_keys; assumption.
Qed.

Lemma merge_duplicate_first L v r :
  is_object L -> serialized_in r (bucket_of L v) = true ->
  first_key L = Some v -> merge_result L v r = L.
Proof.
  intros HL Hd F. pose proof (merge_duplicate_bucket L v r HL Hd) as G.
  rewrite (merge_duplicate L v r _ HL G Hd).
  apply reorder_first; assumption.
Qed.

(** The keys other than [v] keep their relative order, in every case. *)
Lemma merge_other_keys L v r :
  is_object L -> other_keys v (merge_result L v r) = other_keys v L.
Proof.
  intros HL. destruct (serialized_in r (bucket_of L v)) eqn:E.
  - apply merge_duplicate_other_keys; assumption.
  - rewrite merge_new by assumption.
    rewrite !assign_other_keys.
    + apply other_keys_delete.
    + apply is_object_delete. exact HL.
    + apply is_object_assign, is_object_literal1.
Qed.

(** A property of buckets that holds of the empty bucket and survives the
    addition of a record not serialized in the bucket holds of every bucket
    of the merged log when it holds of every bucket of the log. *)
Lemma merge_buckets (P : list JSON -> Prop) L v r :
  P [] ->
  (forall b, P b -> serialized_in r b = false -> P (r :: b)) ->
  Forall (fun kb => P (snd kb)) L ->
  Forall (fun kb => P (snd kb)) (merge_result L v r).
Proof.
  intros P0 Pr. rewrite !Forall_forall. intros HL.
  unfold merge_result. cbv zeta.
  set (sb0 := obj_spread L).
  assert (A0 : forall e, In e sb0 -> P (snd e)).
  { intros e He. apply In_obj_assign in He as [[] | He]. auto. }
  set (sb1 := match obj_get sb0 v with
              | Some _ => sb0
              | None => obj_set sb0 v []
              end).
  assert (A1 : forall e, In e sb1 -> P (snd e)).
  { intros e He. unfold sb1 in He. destruct (obj_get sb0 v); [auto|].
    apply In_obj_set in He as [-> | He]; [exact P0 | auto]. }
  set (bucket := match obj_get sb1 v with Some b => b | None => [] end).
  assert (Pb : P bucket).
  { unfold bucket. destruct (obj_get sb1 v) eqn:G; [|exact P0].
    apply obj_get_In in G. apply (A1 _ G). }
  clearbody bucket.
  set (sb3 := if negb (includes (List.map JSON_stringify bucket)
                         (JSON_stringify r))
              then obj_assign (obj_literal1 v (r :: bucket))
                     (obj_delete v sb1)
              else sb1).
  assert (A3 : forall e, In e sb3 -> P (snd e)).
  { intros e He. unfold sb3 in He.
    destruct (includes _ _) eqn:E; simpl in He; [auto|].
    apply In_obj_assign in He as [He | He].
    - rewrite obj_literal1_eq in He. destruct He as [<- | []].
      apply Pr; assumption.
    - apply In_obj_delete in He. auto. }
  intros e He. destruct (obj_get sb3 v) eqn:G; [|auto].
  apply In_obj_assign in He as [He | He]; [|auto].
  rewrite obj_literal1_eq in He. destruct He as [<- | []].
  apply obj_get_In in G. apply (A3 _ G).
Qed.

(** The same for records compared as JSON values: a bucket without two
    equal records stays so. *)
Lemma merge_no_equal_records L v r :
  Forall (fun kb => NoDup (snd kb)) L ->
  Forall (fun kb => NoDup (snd kb)) (merge_result L v r).
Proof.
  apply merge_buckets; [constructor|].
  intros b Hb Hn. constructor; [|exact Hb].
  intros Hin. apply (in_map JSON_stringify) in Hin.
  apply includes_In in Hin. unfold serialized_in in Hn. congruence.
Qed.

End MergeCases.

(** *** The call and its result *)

Section MergeCall.
Implicit Types (L : jsobj (list JSON)) (v k : jsstring) (r : JSON).

Lemma obj_has_keys {V : Type} (o : jsobj V) k :
  obj_has o k = existsb (fun k' => str_eqb k' k) (keys o).
Proof.
  unfold obj_has. induction o as [|[k1 x1] o IH]; simpl; [reflexivity|].
  destruct (str_eqb k1 k); [reflexivity | exact IH].
Qed.

Lemma obj_has_set {V : Type} (o : jsobj V) k (x : V) k' :
  obj_has (obj_set o k x) k' = str_eqb k k' || obj_has o k'.
Proof.
  unfold obj_has at 1 2. rewrite obj_get_set.
  destruct (str_eqb k k'); reflexivity.
Qed.

Lemma obj_has_assign {V : Type} (src : jsobj V) : forall (t : jsobj V) k,
  obj_has (obj_assign t src) k = obj_has t k || obj_has src k.
Proof.
  induction src as [|[k1 x1] src IH]; intros t k.
  - simpl. rewrite orb_false_r. reflexivity.
  - rewrite obj_assign_cons, IH, obj_has_set.
    change (obj_has ((k1, x1) :: src) k)
      with (match (if str_eqb k1 k then Some x1 else obj_get src k) with
            | Some _ => true | None => false end).
    destruct (str_eqb k1 k); simpl.
    + rewrite orb_true_r. reflexivity.
    + reflexivity.
Qed.

Lemma obj_has_spread {V : Type} (o : jsobj V) k :
  obj_has (obj_spread o) k = obj_has o k.
Proof. unfold obj_spread. rewrite obj_has_assign. reflexivity. Qed.

Lemma reads_inherited_own {V : Type} (o : jsobj V) k (x : V) :
  obj_get o k = Some x -> reads_inherited o k = false.
Proof. intros G. unfold reads_inherited, obj_has. rewrite G. reflexivity. Qed.

(** [merge] throws when line 496 reads an inherited member, and only
    then; otherwise it returns [merge_result]. *)
Lemma merge_cases L v r :
  merge L v r
  = if reads_inherited L v then Throws TypeError
    else Returns (merge_result L v r).
Proof.
  unfold merge, merge_result, reads_inherited. cbv zeta.
  rewrite <- (obj_has_spread L v). unfold obj_has.
  destruct (obj_get (obj_spread L) v) as [b|] eqn:G; cbn [negb andb].
  - rewrite G. reflexivity.
  - destruct (inherited v).
    + rewrite G. reflexivity.
    + rewrite obj_get_set, str_eqb_refl. reflexivity.
Qed.

Lemma merge_returns L v r :
  reads_inherited L v = false -> merge L v r = Returns (merge_result L v r).
Proof. intros H. rewrite merge_cases, H. reflexivity. Qed.

Lemma merge_Returns L v r L' :
  merge L v r = Returns L' ->
  reads_inherited L v = false /\ L' = merge_result L v r.
Proof.
  rewrite merge_cases. destruct (reads_inherited L v); [discriminate|].
  intros [= <-]. split; reflexivity.
Qed.

(** The version is a key of the log returned. *)
Lemma merge_result_own L v r : reads_inherited (merge_result L v r) v = false.
Proof.
  rewrite <- merge_spread.
  destruct (merge_shape (obj_spread L) v r (is_object_spread L))
    as (y & o & Ho & Go & Hy & ->).
  apply (reads_inherited_own _ v y). rewrite reorder_get; assumption.
Qed.

(** Merging twice is merging once. *)
Lemma merge_settled L v r :
  merge_result (merge_result L v r) v r = merge_result L v r.
Proof.
  rewrite <- (merge_spread L).
  destruct (merge_shape (obj_spread L) v r (is_object_spread L))
    as (y & o & Ho & Go & Hy & ->).
  rewrite (merge_duplicate _ v r y).
  - apply reorder_fixed; assumption.
  - apply reorder_object; assumption.
  - rewrite reorder_get; assumption.
  - exact Hy.
Qed.

End MergeCall.

Lemma no_duplicates_log_2_1 : no_duplicates log_2_1.
Proof.
  repeat constructor; simpl; tauto.
Qed.

(** C2, as the code has it: when a record of [v]'s bucket serializes like
    [r], [merge] returns a log with the same buckets and with the other
    keys in their previous order; the key [v] itself is defined first again,
    so the log is returned unchanged when [v] is its first key already, and
    [v] is moved to the front when no key of the log is an array index. *)
Theorem merge_duplicate_reorders (L : jsobj (list JSON)) (v : jsstring)
  (r : JSON) :
  property_order L = true ->
  serialized_in r (bucket_of L v) = true ->
  exists L',
    merge L v r = Returns L' /\
    (forall k, obj_get L' k = obj_get L k) /\
    other_keys v L' = other_keys v L /\
    (first_key L = Some v -> L' = L) /\
    (Forall (fun k => is_index k = false) (keys L) ->
     first_key L' = Some v).
Proof.
  intros HL Hd. pose proof (property_order_object _ HL) as HO.
  pose proof (merge_duplicate_bucket L v r HO Hd) as G.
  exists (merge_result L v r).
  split; [|split; [|split; [|split]]].
  - apply merge_returns, (reads_inherited_own L v _ G).
  - intros k. apply merge_duplicate_get; assumption.
  - apply merge_duplicate_other_keys; assumption.
  - apply merge_duplicate_first; assumption.
  - intros HN. apply merge_first_key; [exact HL|].
    constructor; [|exact HN].
    apply obj_get_In, (in_map fst) in G. simpl in G.
    rewrite Forall_forall in HN. apply HN. exact G.
Qed.

Lemma merge_duplicate_reorders_witness :
  property_order log_1_2 = true /\
  serialized_in recordA (bucket_of log_1_2 (js "1.0.0")) = true /\
  exists L',
    merge log_1_2 (js "1.0.0") recordA = Returns L' /\
    (forall k, obj_get L' k = obj_get log_1_2 k) /\
    other_keys (js "1.0.0") L' = other_keys (js "1.0.0") log_1_2 /\
    (first_key log_1_2 = Some (js "1.0.0") -> L' = log_1_2) /\
    (Forall (fun k => is_index k = false) (keys log_1_2) ->
     first_key L' = Some (js "1.0.0")).
Proof.
  split; [reflexivity|]. split; [reflexivity|].
  apply (merge_duplicate_reorders log_1_2 (js "1.0.0") recordA);
    reflexivity.
Defined.

(** C2 as stated fails: the record A is in the bucket of 1.0.0, the second
    key of the log, and merging it again moves 1.0.0 in front of 2.0.0. *)
Lemma merge_duplicate_moves_key :
  serialized_in recordA (bucket_of log_2_1 (js "1.0.0")) = true /\
  merge log_2_1 (js "1.0.0") recordA
  = Returns [(js "1.0.0", [recordA]); (js "2.0.0", [recordB])] /\
  merge log_2_1 (js "1.0.0") recordA <> Returns log_2_1.
Proof.
  split; [reflexivity|]. split; [reflexivity|].
  vm_compute. discriminate.
Qed.

(** C3 on the failing input: merging under the version 2 into a log whose
    only key is 1 gives the keys 1, 2; the version just merged is not the
    first key, because array-index keys are listed in ascending order. *)
Theorem merge_index_key_not_first :
  exists L',
    merge log_1 (js "2") recordB = Returns L' /\
    keys L' = [js "1"; js "2"] /\
    first_key L' <> Some (js "2").
Proof.
  eexists. split; [reflexivity|]. split; [reflexivity|].
  vm_compute. discriminate.
Qed.

(** C6: [merge] is idempotent.  Merging the same record under the same
    version into the outcome of a merge gives that outcome again: the same
    log when the first merge returns, and the same error when it
    throws. *)
Theorem merge_idempotent (L : jsobj (list JSON)) (v : jsstring) (r : JSON) :
  and_then (merge L v r) (fun L' => merge L' v r) = merge L v r.
Proof.
  rewrite (merge_cases L v r).
  destruct (reads_inherited L v); [reflexivity|].
  cbn [and_then]. rewrite merge_returns by apply merge_result_own.
  rewrite merge_settled. reflexivity.
Qed.

(** C7, as the code has it: when no bucket of the log holds two records
    with the same serialization, no bucket of the log returned does; the
    only other outcome is the [TypeError] for a version that reads an
    inherited member. *)
Theorem merge_no_duplicates (L : jsobj (list JSON)) (v : jsstring) (r : JSON) :
  no_duplicates L ->
  match merge L v r with
  | Returns L' => no_duplicates L'
  | Throws e => e = TypeError /\ reads_inherited L v = true
  end.
Proof.
  intros HL. rewrite merge_cases.
  destruct (reads_inherited L v); [split; reflexivity|].
  revert HL. unfold no_duplicates, distinct_records.
  apply (merge_buckets (fun b => NoDup (List.map JSON_stringify b)));
    [constructor|].
  intros b Hb Hn. simpl. constructor; [|exact Hb].
  intros Hin. apply includes_In in Hin. unfold serialized_in in Hn.
  congruence.
Qed.

Lemma merge_no_duplicates_witness :
  no_duplicates log_2_1 /\
  match merge log_2_1 (js "1.0.0") recordB with
  | Returns L' => no_duplicates L'
  | Throws e => e = TypeError /\ reads_inherited log_2_1 (js "1.0.0") = true
  end.
Proof.
  split; [exact no_duplicates_log_2_1|].
  apply (merge_no_duplicates log_2_1 (js "1.0.0") recordB).
  exact no_duplicates_log_2_1.
Defined.

Lemma obj_get_swap {V : Type} (a b : jsstring) (x y : V) (k : jsstring) :
  a <> b ->
  obj_get [(a, x); (b, y)] k = obj_get [(b, y); (a, x)] k.
Proof.
  intros NE. simpl.
  destruct (str_eqb a k) eqn:E1; destruct (str_eqb b k) eqn:E2;
    try reflexivity.
  apply str_eqb_eq in E1, E2. congruence.
Qed.

Lemma same_record_node_git : same_record record_node_git record_git_node.
Proof.
  split; [reflexivity|]. intros k.
  apply (obj_get_swap (js "node") (js "git")). discriminate.
Qed.

(** C7 as stated fails when records are compared as the specification
    compares them, the executables as an unordered map: the bucket holds
    one record, the record merged has the same platform and the same
    executables in another order, and the bucket returned holds both. *)
Lemma merge_adds_like_record :
  no_like_records log_git_node /\
  exists L',
    merge log_git_node (js "1.0.0") record_node_git = Returns L' /\
    ~ no_like_records L'.
Proof.
  split.
  - repeat constructor.
  - eexists. split; [reflexivity|]. intros H.
    inversion H as [|kb l Hb _]; subst. simpl in Hb.
    inversion Hb as [|a l Ha _]; subst.
    inversion Ha as [|a l Hn _]; subst.
    exact (Hn same_record_node_git).
Qed.




(** C9, as the code has it: the equality used for the dedup is the equality
    of the serializations, in which the order of the keys counts; [merge]
    returns with the bucket of [v] as it was exactly when a record of that
    bucket serializes identically to [r]. *)
Theorem merge_duplicate_iff (L : jsobj (list JSON)) (v : jsstring) (r : JSON) :
  property_order L = true ->
  ((exists L', merge L v r = Returns L' /\ bucket_of L' v = bucket_of L v)
   <-> serialized_in r (bucket_of L v) = true).
Proof.
  intros HL. apply property_order_object in HL. split.
  - intros (L' & E & B). apply merge_Returns in E as [_ ->].
    destruct (serialized_in r (bucket_of L v)) eqn:I;
      [reflexivity|]. exfalso.
    pose proof (merge_new_get L v r HL I) as G.
    unfold bucket_of at 1 in B. rewrite G in B.
    exact (cons_neq _ _ B).
  - intros Hd. exists (merge_result L v r). split.
    + apply merge_returns.
      apply (reads_inherited_own L v _ (merge_duplicate_bucket L v r HL Hd)).
    + unfold bucket_of.
      rewrite merge_duplicate_get by assumption. reflexivity.
Qed.

Lemma merge_duplicate_iff_witness :
  property_order log_git_node = true /\
  ((exists L',
      merge log_git_node (js "1.0.0") record_git_node = Returns L' /\
      bucket_of L' (js "1.0.0") = bucket_of log_git_node (js "1.0.0"))
   <-> serialized_in record_git_node (bucket_of log_git_node (js "1.0.0"))
       = true).
Proof.
  split; [reflexivity|].
  apply (merge_duplicate_iff log_git_node (js "1.0.0") record_git_node).
  reflexivity.
Defined.

(** C9 as stated fails: the record with node before git has the platform
    and, as an unordered map, the executables of the record with git before
    node that is in the bucket, and [merge] adds it all the same. *)
Lemma merge_key_order_counts :
  same_record record_node_git record_git_node /\
  In record_git_node (bucket_of log_git_node (js "1.0.0")) /\
  merge log_git_node (js "1.0.0") record_node_git
  = Returns [(js "1.0.0", [record_node_git; record_git_node])].
Proof.
  split; [|split; [left; reflexivity | reflexivity]].
  split; [reflexivity|]. intros k.
  apply (obj_get_swap (js "node") (js "git")). discriminate.
Qed.

(** ** Assignments under a name taken from the input *)

Section AssignFacts.
Implicit Types (o : object) (k : jsstring) (x : JSON).

(** Under any key but [__proto__] the assignment sets an own property. *)
Lemma assign_plain o k x :
  str_eqb k proto_key = false ->
  assign o k x
  = {| inherits := inherits o; properties := obj_set (properties o) k x |}.
Proof. intros H. unfold assign. rewrite H. reflexivity. Qed.

(** No assignment touches the property of another key. *)
Lemma assign_get_other o k x k' :
  str_eqb k k' = false ->
  obj_get (properties (assign o k x)) k' = obj_get (properties o) k'.
Proof.
  intros NE. unfold assign.
  destruct (str_eqb k proto_key && inherits o
            && negb (obj_has (properties o) k)).
  - destruct x; reflexivity.
  - cbn [properties]. rewrite obj_get_set, NE. reflexivity.
Qed.

Lemma assign_get_plain o k x :
  str_eqb k proto_key = false ->
  obj_get (properties (assign o k x)) k = Some x.
Proof.
  intros H. rewrite assign_plain by exact H. cbn [properties].
  rewrite obj_get_set, str_eqb_refl. reflexivity.
Qed.

(** An own property is assigned to as usual, whatever its name. *)
Lemma assign_get_own o k x y :
  obj_get (properties o) k = Some y ->
  obj_get (properties (assign o k x)) k = Some x.
Proof.
  intros G. unfold assign, obj_has. rewrite G. cbn [negb].
  rewrite andb_false_r. cbn [properties].
  rewrite obj_get_set, str_eqb_refl. reflexivity.
Qed.

Lemma assign_object o k x :
  is_object (properties o) -> is_object (properties (assign o k x)).
Proof.
  intros Ho. unfold assign.
  destruct (str_eqb k proto_key && inherits o
            && negb (obj_has (properties o) k)).
  - destruct x; exact Ho.
  - cbn [properties]. apply is_object_set. exact Ho.
Qed.

Lemma assign_inherits o k x :
  str_eqb k proto_key = false -> inherits (assign o k x) = inherits o.
Proof. intros H. rewrite assign_plain by exact H. reflexivity. Qed.

End AssignFacts.

(** ** Probing *)

Section ProbeFacts.
Variable platform : jsstring.
Variable spawnSync : jsstring -> list JSON -> SpawnSyncReturns.
Implicit Types (c t : JSON) (e : object) (tr : Trace) (name : jsstring).

(** A candidate that can be spawned never throws; it is run whatever the
    candidates before it gave. *)
Lemma try_command_spec name c e tr :
  spawnable c = true ->
  try_command spawnSync name c e tr
  = (Returns (step spawnSync name e c), tr ++ candidate_call c).
Proof.
  unfold step, candidate_hit, candidate_version, candidate_result,
    candidate_call, hit, spawnable.
  destruct c as [| | | |parts|]; cbn [try_command];
    try (intros _; unfold ret; rewrite app_nil_r; reflexivity).
  unfold bind, spawn.
  destruct (command_of parts) as [[command args]|]; [|discriminate].
  intros _. destruct (failed _); cbn [negb andb]; [reflexivity|].
  destruct (_ <? _)%nat; reflexivity.
Qed.

(** A candidate that cannot be spawned throws, and nothing is spawned. *)
Lemma try_command_throws name c e tr :
  spawnable c = false ->
  try_command spawnSync name c e tr = (Throws TypeError, tr).
Proof.
  unfold spawnable. destruct c as [| | | |parts|]; try discriminate.
  cbn [try_command]. unfold bind, spawn.
  destruct (command_of parts); [discriminate | reflexivity].
Qed.

(** The loop over the candidates runs them all, in order. *)
Lemma for_of_try name cs : forall e tr,
  forallb spawnable cs = true ->
  for_of cs (try_command spawnSync name) e tr
  = (Returns (fold_left (step spawnSync name) cs e),
     tr ++ flat_map candidate_call cs).
Proof.
  induction cs as [|c cs IH]; intros e tr H; simpl.
  - unfold ret. rewrite app_nil_r. reflexivity.
  - apply andb_true_iff in H as [Hc Hcs].
    unfold bind. rewrite try_command_spec by assumption.
    rewrite IH by assumption. rewrite <- app_assoc. reflexivity.
Qed.

Lemma named_key t :
  named t = true -> trackable_name t = Some (trackable_key t).
Proof.
  unfold named, trackable_key. destruct (trackable_name t);
    [reflexivity | discriminate].
Qed.

Lemma probe_unfold t e tr :
  is_null t = false -> named t = true ->
  probe spawnSync t e tr
  = for_of (candidates t) (try_command spawnSync (trackable_key t))
      (assign e (trackable_key t) JNull) tr.
Proof.
  intros Ht Hn. apply named_key in Hn. unfold trackable_name in Hn.
  unfold probe, candidates.
  destruct t; try discriminate; rewrite Hn;
    destruct (prop _ (js "versionCommands")) as [[| | | | |]|]; reflexivity.
Qed.

(** A trackable that is [null], or whose name cannot be converted, throws
    before anything is spawned. *)
Lemma probe_unnamed t e tr :
  negb (is_null t) && named t = false ->
  probe spawnSync t e tr = (Throws TypeError, tr).
Proof.
  unfold named, trackable_name, probe.
  destruct t; try reflexivity; cbn [is_null negb andb];
    destruct (to_property_key _); (discriminate || reflexivity).
Qed.

(** When no candidate succeeds the loop leaves the executables as they
    are. *)
Lemma fold_step_miss name cs : forall e,
  existsb (candidate_hit spawnSync) cs = false ->
  fold_left (step spawnSync name) cs e = e.
Proof.
  induction cs as [|c cs IH]; intros e H; [reflexivity|].
  simpl in H. apply orb_false_iff in H as [Hc Hcs].
  simpl. unfold step at 2. rewrite Hc. apply IH. exact Hcs.
Qed.

Lemma last_hit_exists cs :
  match last_hit spawnSync cs with
  | Some _ => existsb (candidate_hit spawnSync) cs = true
  | None => existsb (candidate_hit spawnSync) cs = false
  end.
Proof.
  unfold last_hit.
  destruct (find (candidate_hit spawnSync) (rev cs)) as [c|] eqn:F.
  - apply find_some in F as [Hin Hc]. apply existsb_exists.
    exists c. split; [apply in_rev; exact Hin | exact Hc].
  - destruct (existsb (candidate_hit spawnSync) cs) eqn:E; [|reflexivity].
    apply existsb_exists in E as (c & Hin & Hc).
    apply in_rev in Hin. rewrite (find_none _ _ F c Hin) in Hc.
    discriminate.
Qed.

Lemma obj_set_same {V : Type} (o : jsobj V) k x :
  obj_get o k = Some x -> obj_set o k x = o.
Proof.
  intros G. unfold obj_set, obj_has. rewrite G.
  apply obj_replace_same. exact G.
Qed.

(** The entry of the trackable after the loop is the version of the last
    candidate that succeeded. *)
Lemma fold_step_last name cs : forall e x,
  obj_get (properties e) name = Some x ->
  obj_get (properties (fold_left (step spawnSync name) cs e)) name
  = match last_hit spawnSync cs with
    | Some c => Some (JStr (candidate_version spawnSync c))
    | None => Some x
    end.
Proof.
  induction cs as [|c cs IH] using rev_ind; intros e x G; [exact G|].
  rewrite fold_left_app. unfold last_hit. rewrite rev_app_distr.
  simpl. unfold step at 1.
  destruct (candidate_hit spawnSync c) eqn:Hc.
  - pose proof (IH e x G) as G'.
    destruct (last_hit spawnSync cs);
      apply (assign_get_own _ name _ _ G').
  - apply IH. exact G.
Qed.

(** The loop does not touch the entries of other keys. *)
Lemma fold_step_other name k cs : forall e,
  str_eqb name k = false ->
  obj_get (properties (fold_left (step spawnSync name) cs e)) k
  = obj_get (properties e) k.
Proof.
  induction cs as [|c cs IH]; intros e NE; simpl; [reflexivity|].
  rewrite IH by assumption. unfold step.
  destruct (candidate_hit spawnSync c); [|reflexivity].
  apply assign_get_other. exact NE.
Qed.

Lemma fold_step_object name cs : forall e,
  is_object (properties e) ->
  is_object (properties (fold_left (step spawnSync name) cs e)).
Proof.
  induction cs as [|c cs IH]; intros e He; simpl; [exact He|].
  apply IH. unfold step. destruct (candidate_hit spawnSync c); [|exact He].
  apply assign_object. exact He.
Qed.

(** What [probe] does in general: every candidate is run, in order, and the
    version recorded is that of the last one that succeeded, [null] when
    none did. *)
Lemma probe_runs_all t e tr :
  is_null t = false -> named t = true -> plain_key t = true ->
  forallb spawnable (candidates t) = true ->
  exists e',
    probe spawnSync t e tr
    = (Returns e', tr ++ flat_map candidate_call (candidates t)) /\
    obj_get (properties e') (trackable_key t)
    = match last_hit spawnSync (candidates t) with
      | Some c => Some (JStr (candidate_version spawnSync c))
      | None => Some JNull
      end.
Proof.
  intros Ht Hn Hk Hs. rewrite probe_unfold, for_of_try by assumption.
  eexists. split; [reflexivity|].
  apply fold_step_last. apply assign_get_plain.
  apply negb_true_iff. exact Hk.
Qed.

(** A trackable with a name and one candidate. *)
Lemma probe_single n cmd args e tr :
  str_eqb n proto_key = false ->
  command_of (JStr cmd :: args) = Some (cmd, args) ->
  probe spawnSync
    (JObj [(js "name", JStr n);
           (js "versionCommands", JArr [JArr (JStr cmd :: args)])])
    e tr
  = (Returns {| inherits := inherits e;
                properties := obj_set (obj_set (properties e) n JNull) n
                                (outcome spawnSync cmd args) |},
     tr ++ [(cmd, args)]).
Proof.
  intros Hn Hc.
  rewrite probe_unfold by reflexivity.
  change (trackable_key _) with n.
  change (candidates _) with [JArr (JStr cmd :: args)].
  rewrite for_of_try
    by (cbn [forallb spawnable]; rewrite Hc; reflexivity).
  cbn [fold_left flat_map candidate_call]. rewrite Hc. cbn [app].
  unfold step, outcome, candidate_hit, candidate_version.
  cbn [candidate_result]. rewrite Hc.
  destruct (hit _).
  - rewrite !assign_plain by exact Hn. reflexivity.
  - rewrite assign_plain by exact Hn.
    rewrite (obj_set_same (obj_set (properties e) n JNull))
      by (rewrite obj_get_set, str_eqb_refl; reflexivity).
    reflexivity.
Qed.

Lemma tracked_default (source : jsobj JSON) :
  is_array (track_field source) = false ->
  tracked source = defaultTrackingInfo.
Proof.
  unfold tracked, track_field.
  destruct (obj_get source (js "versionTracker")) as [[| | | | |vt]|];
    try reflexivity.
  unfold prop. destruct (obj_get vt (js "track")) as [[| | | | |]|];
    simpl; try reflexivity. discriminate.
Qed.

Lemma project_version_default (source : jsobj JSON) :
  is_string (obj_get source (js "version")) = false ->
  project_version source = js "0.0.0".
Proof.
  unfold project_version.
  destruct (obj_get source (js "version")) as [[| | | | |]|];
    simpl; try reflexivity. discriminate.
Qed.

(** The record built from the default trackables. *)
Lemma build_default tr :
  build_versionEntry platform spawnSync defaultTrackingInfo tr
  = (Returns (default_versionEntry platform spawnSync), tr ++ default_calls).
Proof.
  unfold build_versionEntry, defaultTrackingInfo, bind. cbn [for_of].
  unfold bind.
  rewrite !probe_single by reflexivity.
  unfold ret, default_versionEntry, default_calls.
  rewrite <- !app_assoc. cbn [app properties inherits empty_object].
  generalize (outcome spawnSync (js "node") [JStr (js "--version")]).
  generalize (outcome spawnSync (js "npm") [JStr (js "-v")]).
  generalize (outcome spawnSync (js "git") [JStr (js "--version")]).
  intros. reflexivity.
Qed.

(** C4, as the code has it, for the loop of lines 463-489 and a trackable
    that it accepts (it is not [null], its name converts to a property
    key other than [__proto__], and the candidates that are arrays hold
    commands and arguments that [spawnSync] accepts): [probe] records a
    version string for the trackable exactly when one of its candidates
    exits with status 0 and the trimmed streams, [stdout] first, are not
    empty before the escape codes are removed; when no candidate does, it
    records [null] and nothing is thrown. *)
Theorem probe_hit_iff t e tr :
  is_null t = false -> named t = true -> plain_key t = true ->
  forallb spawnable (candidates t) = true ->
  exists e' tr',
    probe spawnSync t e tr = (Returns e', tr') /\
    (existsb (candidate_hit spawnSync) (candidates t) = true ->
     exists s, obj_get (properties e') (trackable_key t) = Some (JStr s)) /\
    (existsb (candidate_hit spawnSync) (candidates t) = false ->
     obj_get (properties e') (trackable_key t) = Some JNull).
Proof.
  intros Ht Hn Hk Hs.
  destruct (probe_runs_all t e tr Ht Hn Hk Hs) as (e' & -> & G).
  exists e'. eexists. split; [reflexivity|].
  pose proof (last_hit_exists (candidates t)) as L.
  destruct (last_hit spawnSync (candidates t)) as [c|].
  - split; [eauto | congruence].
  - split; [congruence | intros _; exact G].
Qed.

(** C5, as the code has it: nothing is checked before the probing.  A
    trackable whose name can be used as a key and that has no candidate is
    recorded by the assignment of line 463 alone, [null] for any key but
    [__proto__], and no command is run; a trackable without a name is
    recorded under the key [undefined], its candidates being run as for
    any other trackable. *)
Theorem probe_accepts_malformed t e tr :
  is_null t = false ->
  (named t = true -> candidates t = [] ->
   probe spawnSync t e tr
   = (Returns (assign e (trackable_key t) JNull), tr) /\
   (plain_key t = true ->
    obj_get (properties (assign e (trackable_key t) JNull)) (trackable_key t)
    = Some JNull)) /\
  (prop t (js "name") = None ->
   forallb spawnable (candidates t) = true ->
   exists e',
     probe spawnSync t e tr
     = (Returns e', tr ++ flat_map candidate_call (candidates t)) /\
     obj_has (properties e') (js "undefined") = true).
Proof.
  intros Ht. split.
  - intros Hn Hc. split.
    + rewrite probe_unfold, Hc by assumption. reflexivity.
    + intros Hk. apply assign_get_plain, negb_true_iff, Hk.
  - intros Hn Hs.
    assert (N : named t = true)
      by (unfold named, trackable_name; rewrite Hn; reflexivity).
    assert (K : trackable_key t = js "undefined")
      by (unfold trackable_key, trackable_name; rewrite Hn; reflexivity).
    destruct (probe_runs_all t e tr Ht N) as (e' & -> & G);
      [unfold plain_key; rewrite K; reflexivity | exact Hs |].
    exists e'. split; [reflexivity|]. rewrite K in G. unfold obj_has.
    rewrite G. destruct (last_hit spawnSync (candidates t)); reflexivity.
Qed.

(** C10: when [versionTracker.track] is not an array the three default
    trackables are probed, node, npm and git in this order, and their
    record is merged; when [version] is not a string the record is merged
    under the version 0.0.0. *)
Theorem defaults_substituted (source : jsobj JSON)
  (log : jsobj (list JSON)) tr :
  (is_array (track_field source) = false ->
   getUpdatedPackageObject platform spawnSync source log tr
   = (merge log (project_version source)
        (default_versionEntry platform spawnSync),
      tr ++ default_calls)) /\
  (is_string (obj_get source (js "version")) = false ->
   getUpdatedPackageObject platform spawnSync source log tr
   = bind (build_versionEntry platform spawnSync (tracked source))
       (fun versionEntry => lift (merge log (js "0.0.0") versionEntry)) tr).
Proof.
  split.
  - intros H. unfold getUpdatedPackageObject, bind.
    rewrite (tracked_default source H), build_default. reflexivity.
  - intros H. unfold getUpdatedPackageObject.
    rewrite (project_version_default source H). reflexivity.
Qed.

End ProbeFacts.

Lemma probe_hit_iff_witness :
  is_null node_trackable = false /\
  named node_trackable = true /\
  plain_key node_trackable = true /\
  forallb spawnable (candidates node_trackable) = true /\
  exists e' tr',
    probe demo_spawnSync node_trackable empty_object [] = (Returns e', tr') /\
    (existsb (candidate_hit demo_spawnSync) (candidates node_trackable) = true ->
     exists s, obj_get (properties e') (trackable_key node_trackable)
               = Some (JStr s)) /\
    (existsb (candidate_hit demo_spawnSync) (candidates node_trackable) = false ->
     obj_get (properties e') (trackable_key node_trackable) = Some JNull).
Proof.
  do 4 (split; [reflexivity|]).
  apply (probe_hit_iff demo_spawnSync node_trackable empty_object []);
    reflexivity.
Defined.

(** C4 as stated fails: [tput sgr0] exits with status 0 and prints escape
    codes only; nothing is left once they are removed, and still the
    trackable gets a version, the empty string. *)
Lemma probe_escape_codes_only :
  existsb (candidate_hit_stripped demo_spawnSync) (candidates tput_trackable)
  = false /\
  probe demo_spawnSync tput_trackable empty_object []
  = (Returns {| inherits := true;
                properties := [(js "terminal", JStr [])] |},
     [(js "tput", [JStr (js "sgr0")])]).
Proof.
  split; reflexivity.
Qed.

(** C1 on the failing input: the two candidates of the trackable both
    succeed; both are run, and the version recorded is the output of the
    second. *)
Theorem probe_last_success_wins :
  List.map (candidate_hit demo_spawnSync) (candidates node_trackable)
  = [true; true] /\
  List.map (candidate_version demo_spawnSync) (candidates node_trackable)
  = [js "v18.0.0"; js "v12.0.0"] /\
  probe demo_spawnSync node_trackable empty_object []
  = (Returns {| inherits := true;
                properties := [(js "node", JStr (js "v12.0.0"))] |},
     [(js "node", [JStr (js "--version")]);
      (js "nodejs", [JStr (js "--version")])]).
Proof.
  repeat split; reflexivity.
Qed.

Lemma probe_accepts_malformed_witness :
  is_null empty_trackable = false /\
  named empty_trackable = true /\
  candidates empty_trackable = [] /\
  plain_key empty_trackable = true /\
  prop empty_trackable (js "name") = None /\
  forallb spawnable (candidates empty_trackable) = true /\
  probe demo_spawnSync empty_trackable empty_object []
  = (Returns (assign empty_object (trackable_key empty_trackable) JNull), []) /\
  obj_get
    (properties (assign empty_object (trackable_key empty_trackable) JNull))
    (trackable_key empty_trackable)
  = Some JNull /\
  exists e',
    probe demo_spawnSync empty_trackable empty_object []
    = (Returns e', [] ++ flat_map candidate_call (candidates empty_trackable)) /\
    obj_has (properties e') (js "undefined") = true.
Proof.
  do 6 (split; [reflexivity|]).
  destruct (probe_accepts_malformed demo_spawnSync empty_trackable
              empty_object [] eq_refl) as [H1 H2].
  destruct (H1 eq_refl eq_refl) as [H1a H1b].
  split; [exact H1a|]. split; [exact (H1b eq_refl)|].
  exact (H2 eq_refl eq_refl).
Defined.

(** C5 as stated fails: the configuration holds a trackable without a name
    and one without commands; the call returns, having run the command of
    the first and recorded it under [undefined], and with [null] for the
    second. *)
Lemma malformed_config_accepted :
  getUpdatedPackageObject (js "linux") demo_spawnSync malformed_source [] []
  = (Returns
       [(js "1.0.0",
         [record_of [(js "undefined", JStr (js "git version 2.34.1"));
                     (js "npm", JNull)]])],
     [(js "git", [JStr (js "--version")])]).
Proof.
  reflexivity.
Qed.

Lemma defaults_substituted_witness :
  is_array (track_field []) = false /\
  is_string (obj_get (@nil (jsstring * JSON)) (js "version")) = false /\
  getUpdatedPackageObject (js "linux") demo_spawnSync [] [] []
  = (merge [] (project_version [])
       (default_versionEntry (js "linux") demo_spawnSync),
     [] ++ default_calls) /\
  getUpdatedPackageObject (js "linux") demo_spawnSync [] [] []
  = bind (build_versionEntry (js "linux") demo_spawnSync (tracked []))
      (fun versionEntry => lift (merge [] (js "0.0.0") versionEntry)) [].
Proof.
  split; [reflexivity|]. split; [reflexivity|].
  destruct (defaults_substituted (js "linux") demo_spawnSync [] [] [])
    as [H1 H2].
  split; [apply H1 | apply H2]; reflexivity.
Defined.

(** ** The scenarios of the specification, on the model *)

(** Stripping the colour codes around a word leaves the word. *)
Example strip_ansi_hello :
  strip_ansi ([27%N] ++ js "[31mhello" ++ [27%N] ++ js "[0m") = js "hello".
Proof. reflexivity. Qed.

(** Scenario A: one trackable, one command that succeeds. *)
Example scenario_A :
  build_versionEntry (js "linux") demo_spawnSync
    [JObj [(js "name", JStr (js "git"));
           (js "versionCommands",
            JArr [JArr [JStr (js "git"); JStr (js "--version")]])]] []
  = (Returns (record_of [(js "git", JStr (js "git version 2.34.1"))]),
     [(js "git", [JStr (js "--version")])]).
Proof. reflexivity. Qed.

(** Scenario B: the same record merged twice is kept once. *)
Example scenario_B :
  and_then (merge [] (js "1.0.0") recordA)
    (fun L => merge L (js "1.0.0") recordA)
  = Returns [(js "1.0.0", [recordA])].
Proof. reflexivity. Qed.

(** Scenario C: merging a record again brings its version to the front. *)
Example scenario_C :
  and_then (merge [] (js "1.0.0") recordA)
    (fun L => and_then (merge L (js "2.0.0") recordB)
                (fun L => merge L (js "1.0.0") recordA))
  = Returns [(js "1.0.0", [recordA]); (js "2.0.0", [recordB])].
Proof. reflexivity. Qed.

(** Scenario D: the first candidate cannot be started, the second
    succeeds. *)
Example scenario_D :
  probe demo_spawnSync
    (JObj [(js "name", JStr (js "git"));
           (js "versionCommands",
            JArr [JArr [JStr (js "git-scm"); JStr (js "--version")];
                  JArr [JStr (js "git"); JStr (js "--version")]])])
    empty_object []
  = (Returns {| inherits := true;
                properties := [(js "git", JStr (js "git version 2.34.1"))] |},
     [(js "git-scm", [JStr (js "--version")]);
      (js "git", [JStr (js "--version")])]).
Proof. reflexivity. Qed.

(** A candidate that is an empty array makes [spawnSync] throw. *)
Example empty_candidate_throws :
  probe demo_spawnSync
    (JObj [(js "name", JStr (js "git"));
           (js "versionCommands", JArr [JArr []])]) empty_object []
  = (Throws TypeError, []).
Proof. reflexivity. Qed.

(** So does a command with a NUL character; no process is started. *)
Example nul_command_throws :
  probe demo_spawnSync
    (JObj [(js "name", JStr (js "git"));
           (js "versionCommands",
            JArr [JArr [JStr (js "git" ++ [0%N]); JStr (js "--version")]])])
    empty_object []
  = (Throws TypeError, []).
Proof. reflexivity. Qed.

(** So does an argument with a NUL character, or one that cannot be
    converted to a string; other arguments are converted. *)
Example refused_arguments :
  List.map command_of
    [[JStr (js "git"); JStr (js "--version" ++ [0%N])];
     [JStr (js "git"); JObj [(js "toString", JStr (js "x"))]];
     [JStr (js "git"); JNum (js "1"); JNull; JObj []]]
  = [None; None; Some (js "git", [JNum (js "1"); JNull; JObj []])].
Proof. reflexivity. Qed.

(** Names that are not strings, as property keys. *)
Example names_as_keys :
  List.map to_property_key
    [None; Some (JNum (js "1")); Some JNull;
     Some (JArr [JNum (js "1"); JNull; JArr [JStr (js "a")]]);
     Some (JObj [(js "name", JStr (js "x"))]);
     Some (JArr [JObj [(js "toString", JNull)]])]
  = [Some (js "undefined"); Some (js "1"); Some (js "null");
     Some (js "1,,a"); Some (js "[object Object]"); None].
Proof. reflexivity. Qed.

(** A trackable that is [null] has no property to read. *)
Example null_trackable_throws :
  getUpdatedPackageObject (js "linux") demo_spawnSync
    [(js "versionTracker", JObj [(js "track", JArr [JNull])])] [] []
  = (Throws TypeError, []).
Proof. reflexivity. Qed.

(** A name that is an object with a property [toString] cannot become a
    key. *)
Example unconvertible_name_throws :
  probe demo_spawnSync
    (JObj [(js "name", JObj [(js "toString", JNull)]);
           (js "versionCommands",
            JArr [JArr [JStr (js "git"); JStr (js "--version")]])])
    empty_object []
  = (Throws TypeError, []).
Proof. reflexivity. Qed.

(** A trackable named [__proto__] whose command fails leaves no entry:
    the assignment of line 463 removes the prototype.  When the command
    succeeds, the assignment of line 485 finds no accessor any more and
    creates the entry. *)
Example proto_trackable_missing :
  build_versionEntry (js "linux") demo_spawnSync
    [JObj [(js "name", JStr (js "__proto__"));
           (js "versionCommands",
            JArr [JArr [JStr (js "npm"); JStr (js "-v")]])];
     git_trackable] []
  = (Returns (record_of [(js "git", JStr (js "git version 2.34.1"))]),
     [(js "npm", [JStr (js "-v")]); (js "git", [JStr (js "--version")])]).
Proof. reflexivity. Qed.

Example proto_trackable_hit :
  build_versionEntry (js "linux") demo_spawnSync
    [JObj [(js "name", JStr (js "__proto__"));
           (js "versionCommands",
            JArr [JArr [JStr (js "git"); JStr (js "--version")]])]] []
  = (Returns (record_of [(js "__proto__", JStr (js "git version 2.34.1"))]),
     [(js "git", [JStr (js "--version")])]).
Proof. reflexivity. Qed.

(** The version [constructor] in a log without it: the probing is done,
    then the merge throws. *)
Example inherited_version_throws :
  getUpdatedPackageObject (js "linux") demo_spawnSync
    [(js "version", JStr (js "constructor"));
     (js "versionTracker", JObj [(js "track", JArr [git_trackable])])] [] []
  = (Throws TypeError, [(js "git", [JStr (js "--version")])]).
Proof. reflexivity. Qed.

(** ** More on the merge *)

Section MergeMore.
Implicit Types (L : jsobj (list JSON)) (v k : jsstring) (r : JSON).

Lemma merge_other_get L v r k :
  is_object L -> str_eqb k v = false ->
  obj_get (merge_result L v r) k = obj_get L k.
Proof.
  intros HL NE. destruct (serialized_in r (bucket_of L v)) eqn:E.
  - apply merge_duplicate_get; assumption.
  - rewrite merge_new by assumption.
    assert (Hl : forall (b : list JSON), obj_get (obj_literal1 v b) k = None).
    { intros b. rewrite obj_literal1_eq. simpl.
      rewrite str_eqb_sym, NE. reflexivity. }
    rewrite obj_get_assign.
    + rewrite obj_get_assign
        by (apply is_object_NoDup, is_object_delete; exact HL).
      rewrite obj_get_delete, str_eqb_sym, NE, !Hl.
      destruct (obj_get L k); reflexivity.
    + apply is_object_NoDup, is_object_assign, is_object_literal1.
Qed.

End MergeMore.

(** X5: When line 496 reads no inherited member, [merge] returns and
    changes the bucket of no other version. *)
Theorem merge_other_buckets (L : jsobj (list JSON)) (v k : jsstring)
  (r : JSON) :
  property_order L = true -> reads_inherited L v = false ->
  str_eqb k v = false ->
  exists L', merge L v r = Returns L' /\ obj_get L' k = obj_get L k.
Proof.
  intros HL Hv NE. exists (merge_result L v r).
  split; [apply merge_returns; exact Hv|].
  apply merge_other_get; [|exact NE].
  apply property_order_object. exact HL.
Qed.

Lemma merge_other_buckets_witness :
  property_order log_2_1 = true /\
  reads_inherited log_2_1 (js "1.0.0") = false /\
  str_eqb (js "2.0.0") (js "1.0.0") = false /\
  exists L',
    merge log_2_1 (js "1.0.0") recordB = Returns L' /\
    obj_get L' (js "2.0.0") = obj_get log_2_1 (js "2.0.0").
Proof.
  split; [reflexivity|]. split; [reflexivity|]. split; [reflexivity|].
  apply (merge_other_buckets log_2_1 (js "1.0.0") (js "2.0.0") recordB);
    reflexivity.
Defined.

(** X6: Whatever the log is, [merge] either returns a log in which the
    bucket of the version holds a record serialized like the one merged,
    or throws a [TypeError] because line 496 reads an inherited member. *)
Theorem merge_records (L : jsobj (list JSON)) (v : jsstring) (r : JSON) :
  match merge L v r with
  | Returns L' => serialized_in r (bucket_of L' v) = true
  | Throws e => e = TypeError /\ reads_inherited L v = true
  end.
Proof.
  rewrite merge_cases.
  destruct (reads_inherited L v); [split; reflexivity|].
  rewrite <- (merge_spread L).
  destruct (merge_shape (obj_spread L) v r (is_object_spread L))
    as (y & o & Ho & Go & Hy & ->).
  unfold bucket_of. rewrite reorder_get by assumption.
  rewrite Go. exact Hy.
Qed.

(** X7: When line 496 reads no inherited member, [merge] returns, and the
    keys other than the version merged keep their relative order, whether
    the record is new or not and whatever the keys are. *)
Theorem merge_keeps_other_keys (L : jsobj (list JSON)) (v : jsstring)
  (r : JSON) :
  property_order L = true -> reads_inherited L v = false ->
  exists L', merge L v r = Returns L' /\ other_keys v L' = other_keys v L.
Proof.
  intros HL Hv. exists (merge_result L v r).
  split; [apply merge_returns; exact Hv|].
  apply merge_other_keys, property_order_object, HL.
Qed.

Lemma merge_keeps_other_keys_witness :
  property_order log_2_1 = true /\
  reads_inherited log_2_1 (js "3.0.0") = false /\
  exists L',
    merge log_2_1 (js "3.0.0") recordA = Returns L' /\
    other_keys (js "3.0.0") L' = other_keys (js "3.0.0") log_2_1.
Proof.
  split; [reflexivity|]. split; [reflexivity|].
  apply (merge_keeps_other_keys log_2_1 (js "3.0.0") recordA); reflexivity.
Defined.

Section KeyGroups.
Context {V : Type}.
Implicit Types (o I S : jsobj V) (k v : jsstring) (x : V).

Lemma filter_all {A : Type} (f : A -> bool) (l : list A) :
  Forall (fun a => f a = true) l -> filter f l = l.
Proof.
  induction 1 as [|a l Ha _ IH]; simpl; [reflexivity|].
  rewrite Ha, IH. reflexivity.
Qed.

Lemma filter_none {A : Type} (f : A -> bool) (l : list A) :
  Forall (fun a => f a = false) l -> filter f l = [].
Proof.
  induction 1 as [|a l Ha _ IH]; simpl; [reflexivity|].
  rewrite Ha, IH. reflexivity.
Qed.

Lemma filter_swap {A : Type} (f g : A -> bool) (l : list A) :
  filter f (filter g l) = filter g (filter f l).
Proof.
  induction l as [|a l IH]; simpl; [reflexivity|].
  destruct (f a) eqn:F; destruct (g a) eqn:G; simpl;
    rewrite ?F, ?G, IH; reflexivity.
Qed.

Lemma filter_twice {A : Type} (f : A -> bool) (l : list A) :
  filter f (filter f l) = filter f l.
Proof.
  induction l as [|a l IH]; simpl; [reflexivity|].
  destruct (f a) eqn:F; simpl; rewrite ?F, IH; reflexivity.
Qed.

Lemma index_keys_of_object I S :
  index_keys (keys I) -> name_keys (keys S) ->
  index_keys_of (I ++ S) = keys I /\ name_keys_of (I ++ S) = keys S.
Proof.
  intros HI [HS _]. unfold index_keys_of, name_keys_of.
  rewrite keys_app, !filter_app.
  pose proof (index_keys_all _ HI) as A.
  rewrite (filter_all is_index (keys I)) by exact A.
  rewrite (filter_none is_index (keys S)) by exact HS.
  rewrite (filter_none (fun k => negb (is_index k)) (keys I)).
  - rewrite (filter_all (fun k => negb (is_index k)) (keys S)).
    + rewrite app_nil_r. auto.
    + eapply Forall_impl; [|exact HS]. simpl. intros a ->. reflexivity.
  - eapply Forall_impl; [|exact A]. simpl. intros a ->. reflexivity.
Qed.

(** [{[v]: x, ...o}] when [v] is not an array index: [v] becomes the first
    of the keys that are not array indices, and the array-index keys stay
    as they are. *)
Lemma assign_name_first o v x :
  is_object o -> is_index v = false ->
  name_keys_of (obj_assign (obj_literal1 v x) o)
  = v :: filter (fun k => negb (str_eqb k v)) (name_keys_of o) /\
  index_keys_of (obj_assign (obj_literal1 v x) o) = index_keys_of o.
Proof.
  intros (I & S & -> & HI & HS) Hv.
  rewrite literal_name by assumption.
  set (x' := match obj_get S v with Some y => y | None => x end).
  destruct (index_keys_of_object I S HI HS) as [-> ->].
  destruct (index_keys_of_object I ((v, x') :: obj_delete v S) HI
              (name_keys_front S v x' HS Hv)) as [-> ->].
  simpl. rewrite keys_delete. auto.
Qed.

Lemma delete_name_keys o v :
  is_index v = false ->
  name_keys_of (obj_delete v o)
  = filter (fun k => negb (str_eqb k v)) (name_keys_of o) /\
  index_keys_of (obj_delete v o) = index_keys_of o.
Proof.
  intros Hv. unfold name_keys_of, index_keys_of. rewrite keys_delete. split.
  - apply filter_swap.
  - rewrite filter_swap. apply filter_all. apply Forall_forall.
    intros a Ha. apply filter_In in Ha as [_ Ha].
    apply negb_true_iff, str_eqb_neq. congruence.
Qed.

End KeyGroups.

(** X8: When line 496 reads no inherited member, a version that is not an
    array index becomes the first of the keys of the log returned that are
    not array indices, the others following in the order they had; the
    array-index keys stay in front, as they were. *)
Theorem merge_first_of_names (L : jsobj (list JSON)) (v : jsstring)
  (r : JSON) :
  property_order L = true -> reads_inherited L v = false ->
  is_index v = false ->
  exists L',
    merge L v r = Returns L' /\
    name_keys_of L'
    = v :: filter (fun k => negb (str_eqb k v)) (name_keys_of L) /\
    index_keys_of L' = index_keys_of L.
Proof.
  intros HL Hi Hv. apply property_order_object in HL.
  exists (merge_result L v r).
  split; [apply merge_returns; exact Hi|].
  destruct (serialized_in r (bucket_of L v)) eqn:E.
  - pose proof (merge_duplicate_bucket L v r HL E) as G.
    rewrite (merge_duplicate L v r _ HL G E).
    apply assign_name_first; assumption.
  - rewrite merge_new by assumption.
    set (b := r :: bucket_of L v).
    assert (Hd : is_object (obj_delete v L)) by (apply is_object_delete, HL).
    assert (Ho : is_object (obj_assign (obj_literal1 v b) (obj_delete v L)))
      by apply is_object_assign, is_object_literal1.
    destruct (assign_name_first _ v b Ho Hv) as [-> ->].
    destruct (assign_name_first _ v b Hd Hv) as [-> ->].
    destruct (delete_name_keys L v Hv) as [-> ->].
    split; [|reflexivity]. simpl. rewrite str_eqb_refl. simpl.
    rewrite !filter_twice. reflexivity.
Qed.

Lemma merge_first_of_names_witness :
  property_order [(js "7", [recordA]); (js "1.0.0", [recordA])] = true /\
  reads_inherited [(js "7", [recordA]); (js "1.0.0", [recordA])] (js "2.0.0")
  = false /\
  is_index (js "2.0.0") = false /\
  exists L',
    merge [(js "7", [recordA]); (js "1.0.0", [recordA])] (js "2.0.0") recordB
    = Returns L' /\
    name_keys_of L'
    = js "2.0.0"
      :: filter (fun k => negb (str_eqb k (js "2.0.0")))
           (name_keys_of [(js "7", [recordA]); (js "1.0.0", [recordA])]) /\
    index_keys_of L'
    = index_keys_of [(js "7", [recordA]); (js "1.0.0", [recordA])].
Proof.
  split; [reflexivity|]. split; [reflexivity|]. split; [reflexivity|].
  apply (merge_first_of_names
           [(js "7", [recordA]); (js "1.0.0", [recordA])] (js "2.0.0")
           recordB); reflexivity.
Defined.

(** ** The call as a whole *)

Section CallFacts.
Variable platform : jsstring.
Variable spawnSync : jsstring -> list JSON -> SpawnSyncReturns.
Implicit Types (c t : JSON) (e : object) (tr : Trace) (name : jsstring).

Lemma probe_record t e tr :
  is_null t = false -> named t = true ->
  forallb spawnable (candidates t) = true ->
  probe spawnSync t e tr
  = (Returns (record_trackable spawnSync e t),
     tr ++ flat_map candidate_call (candidates t)).
Proof.
  intros Ht Hn Hs. rewrite probe_unfold, for_of_try by assumption.
  reflexivity.
Qed.

Lemma well_formed_cons t track :
  well_formed_track (t :: track) = true ->
  is_null t = false /\ named t = true /\
  forallb spawnable (candidates t) = true /\
  well_formed_track track = true.
Proof.
  simpl. intros H. apply andb_true_iff in H as [Ht H].
  apply andb_true_iff in Ht as [Ht Hs].
  apply andb_true_iff in Ht as [Hn Hm]. apply negb_true_iff in Hn. auto.
Qed.

(** The loop over the trackables, when they are well formed. *)
Lemma for_of_probe_record track : forall e tr,
  well_formed_track track = true ->
  for_of track (probe spawnSync) e tr
  = (Returns (fold_left (record_trackable spawnSync) track e),
     tr ++ all_calls track).
Proof.
  induction track as [|t track IH]; intros e tr H.
  - simpl. unfold ret. rewrite app_nil_r. reflexivity.
  - apply well_formed_cons in H as (Hn & Hm & Hs & H).
    cbn [for_of]. unfold bind. rewrite probe_record by assumption.
    rewrite IH by assumption. unfold all_calls. simpl.
    rewrite <- !app_assoc. reflexivity.
Qed.

Lemma for_of_try_throws name cs : forall e tr,
  forallb spawnable cs = false ->
  exists tr', for_of cs (try_command spawnSync name) e tr
              = (Throws TypeError, tr').
Proof.
  induction cs as [|c cs IH]; intros e tr H; simpl in *; [discriminate|].
  unfold bind. destruct (spawnable c) eqn:Hc.
  - rewrite try_command_spec by assumption. apply IH. exact H.
  - rewrite try_command_throws by assumption. eauto.
Qed.

Lemma probe_throws t e tr :
  negb (is_null t) && named t && forallb spawnable (candidates t) = false ->
  exists tr', probe spawnSync t e tr = (Throws TypeError, tr').
Proof.
  intros H. destruct (negb (is_null t) && named t) eqn:Hn.
  - apply andb_true_iff in Hn as [Hn Hm]. apply negb_true_iff in Hn.
    simpl in H. rewrite probe_unfold by assumption.
    apply for_of_try_throws. exact H.
  - rewrite probe_unnamed by exact Hn. eauto.
Qed.

Lemma for_of_probe_throws track : forall e tr,
  well_formed_track track = false ->
  exists tr', for_of track (probe spawnSync) e tr = (Throws TypeError, tr').
Proof.
  induction track as [|t track IH]; intros e tr H; simpl in *;
    [discriminate|].
  unfold bind.
  destruct (negb (is_null t) && named t
            && forallb spawnable (candidates t)) eqn:Ht.
  - apply andb_true_iff in Ht as [Hn Hs].
    apply andb_true_iff in Hn as [Hn Hm]. apply negb_true_iff in Hn.
    rewrite probe_record by assumption. apply IH. exact H.
  - destruct (probe_throws t e tr Ht) as [tr' ->]. eauto.
Qed.

(** X1: The call returns exactly when no trackable is [null], every name
    can be converted to a property key, every candidate that is an array
    holds a command and arguments that [spawnSync] accepts, and line 496
    reads no inherited member under the project version; otherwise it
    throws a [TypeError]. *)
Theorem getUpdatedPackageObject_returns_iff (source : jsobj JSON)
  (log : jsobj (list JSON)) tr :
  match fst (getUpdatedPackageObject platform spawnSync source log tr) with
  | Returns _ =>
      well_formed_track (tracked source) = true /\
      reads_inherited log (project_version source) = false
  | Throws e =>
      e = TypeError /\
      (well_formed_track (tracked source) = false \/
       reads_inherited log (project_version source) = true)
  end.
Proof.
  unfold getUpdatedPackageObject, build_versionEntry, bind.
  destruct (well_formed_track (tracked source)) eqn:H.
  - rewrite for_of_probe_record by assumption.
    unfold ret, lift. rewrite merge_cases. cbn [fst].
    destruct (reads_inherited log (project_version source)); auto.
  - destruct (for_of_probe_throws (tracked source) empty_object tr H)
      as [tr' ->].
    split; [reflexivity | left; reflexivity].
Qed.

(** X2: When the trackables are well formed, every candidate of every
    trackable is spawned once, in the order of the configuration, whatever
    the candidates print and whether or not the merge throws afterwards. *)
Theorem getUpdatedPackageObject_trace (source : jsobj JSON)
  (log : jsobj (list JSON)) tr :
  well_formed_track (tracked source) = true ->
  snd (getUpdatedPackageObject platform spawnSync source log tr)
  = tr ++ all_calls (tracked source).
Proof.
  intros H. unfold getUpdatedPackageObject, build_versionEntry, bind.
  rewrite for_of_probe_record by assumption. reflexivity.
Qed.

End CallFacts.

Lemma getUpdatedPackageObject_trace_witness :
  well_formed_track (tracked demo_source) = true /\
  snd (getUpdatedPackageObject (js "linux") demo_spawnSync demo_source
         log_1_2 [])
  = [] ++ all_calls (tracked demo_source).
Proof.
  split; [reflexivity|].
  apply (getUpdatedPackageObject_trace (js "linux") demo_spawnSync
           demo_source log_1_2 []).
  reflexivity.
Defined.

Section KeyOrder.
Context {V : Type}.
Implicit Types (o : jsobj V) (k : jsstring) (x : V).

Lemma name_keys_replace k x o :
  name_keys_of (obj_replace k x o) = name_keys_of o.
Proof. unfold name_keys_of. rewrite keys_replace. reflexivity. Qed.

Lemma name_keys_insert_index i k x o :
  is_index k = true ->
  name_keys_of (obj_insert_index i k x o) = name_keys_of o.
Proof.
  intros Hk. unfold name_keys_of.
  induction o as [|[k1 x1] o IH]; simpl.
  - rewrite Hk. reflexivity.
  - destruct (array_index k1) as [j|] eqn:A.
    + destruct (j <? i)%N; simpl.
      * rewrite IH. reflexivity.
      * rewrite Hk. reflexivity.
    + simpl. rewrite Hk. reflexivity.
Qed.

(** An assignment adds a key that is not an array index at the end of
    those keys, when the object does not have it. *)
Lemma name_keys_set o k x :
  name_keys_of (obj_set o k x)
  = if obj_has o k || is_index k then name_keys_of o
    else name_keys_of o ++ [k].
Proof.
  unfold obj_set. destruct (obj_has o k); [apply name_keys_replace|].
  cbn [orb]. destruct (array_index k) as [i|] eqn:A.
  - rewrite (proj2 (is_index_Some k) (ex_intro _ i A)).
    apply name_keys_insert_index.
    apply is_index_Some. eauto.
  - rewrite (proj2 (is_index_None k) A).
    unfold name_keys_of. rewrite keys_app, filter_app. simpl.
    rewrite (proj2 (is_index_None k) A). reflexivity.
Qed.

Lemma includes_name_keys o k :
  is_index k = false -> includes (name_keys_of o) k = obj_has o k.
Proof.
  intros Hk. rewrite obj_has_keys. unfold includes, name_keys_of.
  induction (keys o) as [|a l IH]; simpl; [reflexivity|].
  destruct (is_index a) eqn:Ha; simpl.
  - rewrite IH. destruct (str_eqb a k) eqn:E; [|reflexivity].
    apply str_eqb_eq in E. congruence.
  - rewrite IH, (str_eqb_sym k a). reflexivity.
Qed.

End KeyOrder.

Section RecordFacts.
Variable platform : jsstring.
Variable spawnSync : jsstring -> list JSON -> SpawnSyncReturns.
Implicit Types (c t : JSON) (e : object) (tr : Trace) (name k : jsstring).

(** The loop over the candidates creates no key. *)
Lemma fold_step_keys name cs : forall e x,
  obj_get (properties e) name = Some x ->
  keys (properties (fold_left (step spawnSync name) cs e))
  = keys (properties e) /\
  inherits (fold_left (step spawnSync name) cs e) = inherits e.
Proof.
  induction cs as [|c cs IH]; intros e x G; simpl; [auto|].
  unfold step at 2 4. destruct (candidate_hit spawnSync c); [|eauto].
  assert (A : assign e name (JStr (candidate_version spawnSync c))
              = {| inherits := inherits e;
                   properties := obj_replace name
                     (JStr (candidate_version spawnSync c)) (properties e) |}).
  { unfold assign, obj_set, obj_has. rewrite G. cbn [negb].
    rewrite andb_false_r. reflexivity. }
  rewrite A.
  destruct (IH {| inherits := inherits e;
                  properties := obj_replace name
                    (JStr (candidate_version spawnSync c)) (properties e) |}
              (JStr (candidate_version spawnSync c))) as [-> ->].
  - cbn [properties]. rewrite obj_get_replace, G, str_eqb_refl.
    reflexivity.
  - cbn [properties inherits]. rewrite keys_replace. auto.
Qed.

(** One trackable sets its own entry and no other. *)
Lemma record_trackable_get e t k :
  plain_key t = true ->
  obj_get (properties (record_trackable spawnSync e t)) k
  = if str_eqb (trackable_key t) k
    then Some (trackable_version spawnSync t)
    else obj_get (properties e) k.
Proof.
  intros Hk. apply negb_true_iff in Hk.
  unfold record_trackable, trackable_version. key_cases (trackable_key t) k.
  - rewrite (fold_step_last spawnSync _ _ _ JNull)
      by (apply assign_get_plain; exact Hk).
    destruct (last_hit spawnSync (candidates t)); reflexivity.
  - rewrite fold_step_other by assumption.
    apply assign_get_other. exact E.
Qed.

Lemma record_trackable_object e t :
  is_object (properties e) ->
  is_object (properties (record_trackable spawnSync e t)).
Proof.
  intros He. unfold record_trackable. apply fold_step_object.
  apply assign_object. exact He.
Qed.

(** It adds its key to the keys that are not array indices when it is new
    among them. *)
Lemma record_trackable_names e t :
  plain_key t = true ->
  name_keys_of (properties (record_trackable spawnSync e t))
  = (if obj_has (properties e) (trackable_key t)
        || is_index (trackable_key t)
     then name_keys_of (properties e)
     else name_keys_of (properties e) ++ [trackable_key t]) /\
  inherits (record_trackable spawnSync e t) = inherits e.
Proof.
  intros Hk. apply negb_true_iff in Hk. unfold record_trackable.
  destruct (fold_step_keys (trackable_key t) (candidates t)
              (assign e (trackable_key t) JNull) JNull
              (assign_get_plain e _ JNull Hk)) as [K I].
  unfold name_keys_of at 1. rewrite K, I.
  rewrite assign_plain by exact Hk. cbn [properties inherits].
  split; [apply name_keys_set | reflexivity].
Qed.

Lemma fold_record_get track : forall k,
  forallb plain_key track = true ->
  obj_get (properties (fold_left (record_trackable spawnSync) track
                         empty_object)) k
  = option_map (trackable_version spawnSync) (last_trackable track k).
Proof.
  induction track as [|t track IH] using rev_ind; intros k H;
    [reflexivity|].
  rewrite forallb_app in H. apply andb_true_iff in H as [H Ht].
  simpl in Ht. rewrite andb_true_r in Ht.
  rewrite fold_left_app. simpl.
  rewrite record_trackable_get, IH by assumption.
  unfold last_trackable. rewrite rev_app_distr. simpl.
  destruct (str_eqb (trackable_key t) k); reflexivity.
Qed.

Lemma fold_record_object track : forall e,
  is_object (properties e) ->
  is_object (properties (fold_left (record_trackable spawnSync) track e)).
Proof.
  induction track as [|t track IH]; intros e He; simpl; [exact He|].
  apply IH, record_trackable_object, He.
Qed.

Lemma fold_record_names track : forall e,
  forallb plain_key track = true ->
  name_keys_of (properties (fold_left (record_trackable spawnSync) track e))
  = name_keys_of (properties e)
    ++ distinct_keys (name_keys_of (properties e))
         (filter (fun k => negb (is_index k))
            (List.map trackable_key track)).
Proof.
  induction track as [|t track IH]; intros e H.
  - simpl. rewrite app_nil_r. reflexivity.
  - simpl in H. apply andb_true_iff in H as [Ht H].
    cbn [fold_left List.map filter]. rewrite IH by exact H.
    destruct (record_trackable_names e t Ht) as [N _]. rewrite N.
    destruct (is_index (trackable_key t)) eqn:Hi.
    + rewrite orb_true_r. reflexivity.
    + rewrite orb_false_r. cbn [negb distinct_keys].
      rewrite includes_name_keys by exact Hi.
      destruct (obj_has (properties e) (trackable_key t)); [reflexivity|].
      rewrite <- app_assoc. reflexivity.
Qed.

(** X3: The record built by lines 457-490, for trackables that are well
    formed and of which none has the key [__proto__]: [executables] has
    one entry for each key of the trackables and no other; its keys are in
    property order, those that are not array indices in the order in which
    the configuration first names them; the entry of a key is the version
    of the last trackable recorded under it, a string or [null]. *)
Theorem build_versionEntry_entries (track : list JSON) tr :
  well_formed_track track = true ->
  forallb plain_key track = true ->
  exists executables,
    build_versionEntry platform spawnSync track tr
    = (Returns (JObj [(js "platform", JStr platform);
                      (js "executables", JObj executables)]),
       tr ++ all_calls track) /\
    property_order executables = true /\
    name_keys_of executables = declared_names track /\
    forall k, obj_get executables k
              = option_map (trackable_version spawnSync)
                  (last_trackable track k).
Proof.
  intros H P.
  exists (properties (fold_left (record_trackable spawnSync) track
                        empty_object)).
  split; [|split; [|split]].
  - unfold build_versionEntry, bind.
    rewrite for_of_probe_record by assumption. reflexivity.
  - apply object_property_order, fold_record_object, is_object_nil.
  - rewrite fold_record_names by exact P. reflexivity.
  - intros k. apply fold_record_get. exact P.
Qed.

End RecordFacts.

Lemma build_versionEntry_entries_witness :
  well_formed_track [node_trackable; tput_trackable; node_trackable] = true /\
  forallb plain_key [node_trackable; tput_trackable; node_trackable] = true /\
  exists executables,
    build_versionEntry (js "linux") demo_spawnSync
      [node_trackable; tput_trackable; node_trackable] []
    = (Returns (JObj [(js "platform", JStr (js "linux"));
                      (js "executables", JObj executables)]),
       [] ++ all_calls [node_trackable; tput_trackable; node_trackable]) /\
    property_order executables = true /\
    name_keys_of executables
    = declared_names [node_trackable; tput_trackable; node_trackable] /\
    forall k, obj_get executables k
              = option_map (trackable_version demo_spawnSync)
                  (last_trackable
                     [node_trackable; tput_trackable; node_trackable] k).
Proof.
  split; [reflexivity|]. split; [reflexivity|].
  apply (build_versionEntry_entries (js "linux") demo_spawnSync
           [node_trackable; tput_trackable; node_trackable] []);
    reflexivity.
Defined.

Section RunAgain.
Variable platform : jsstring.
Variable spawnSync : jsstring -> list JSON -> SpawnSyncReturns.

(** X4: Running the tool again on the log it returned, in the same
    environment, returns that log unchanged. *)
Theorem getUpdatedPackageObject_again (source : jsobj JSON)
  (log newLog : jsobj (list JSON)) (tr tr' : Trace) :
  getUpdatedPackageObject platform spawnSync source log tr
  = (Returns newLog, tr') ->
  getUpdatedPackageObject platform spawnSync source newLog tr'
  = (Returns newLog, tr' ++ all_calls (tracked source)).
Proof.
  unfold getUpdatedPackageObject, build_versionEntry, bind.
  destruct (well_formed_track (tracked source)) eqn:W.
  - rewrite !for_of_probe_record by assumption. unfold ret, lift.
    intros E. injection E as E _. apply merge_Returns in E as [_ ->].
    rewrite merge_returns by apply merge_result_own.
    rewrite merge_settled. reflexivity.
  - destruct (for_of_probe_throws spawnSync (tracked source) empty_object
                tr W) as [t' ->]. discriminate.
Qed.

End RunAgain.

Lemma getUpdatedPackageObject_again_witness :
  exists newLog tr',
    getUpdatedPackageObject (js "linux") demo_spawnSync demo_source log_1_2 []
    = (Returns newLog, tr') /\
    getUpdatedPackageObject (js "linux") demo_spawnSync demo_source newLog tr'
    = (Returns newLog, tr' ++ all_calls (tracked demo_source)).
Proof.
  eexists. eexists. split; [vm_compute; reflexivity|].
  apply (getUpdatedPackageObject_again (js "linux") demo_spawnSync
           demo_source log_1_2 _ [] _).
  reflexivity.
Defined.

(** ** The escape codes *)

Lemma final_not_intro (c : N) : final_class c = true -> intro_class c = false.
Proof.
  intros F. destruct (intro_class c) eqn:I; [|reflexivity].
  unfold intro_class in I. simpl in I.
  repeat (apply orb_true_iff in I as [I | I];
          [apply N.eqb_eq in I; subst c; discriminate F|]).
  discriminate.
Qed.

Lemma digit_final (c : N) : is_digit c = true -> final_class c = true.
Proof. intros D. unfold final_class. rewrite D. reflexivity. Qed.

Lemma match_ansi_plain (c : N) (t : jsstring) :
  (c =? 27)%N || (c =? 155)%N = false -> match_ansi (c :: t) = None.
Proof. intros H. unfold match_ansi. rewrite H. reflexivity. Qed.

Lemma replace_ansi_prefix (p s : jsstring) :
  escape_free p = true ->
  replace_ansi 0 (p ++ s) = p ++ replace_ansi 0 s.
Proof.
  induction p as [|c p IH]; intros H; [reflexivity|].
  simpl in H. apply andb_true_iff in H as [Hc Hp].
  apply negb_true_iff in Hc.
  change ((c :: p) ++ s) with (c :: (p ++ s)).
  cbn [replace_ansi]. rewrite match_ansi_plain by exact Hc.
  rewrite IH by exact Hp. reflexivity.
Qed.

Lemma replace_ansi_skip (a b : jsstring) :
  replace_ansi (length a) (a ++ b) = replace_ansi 0 b.
Proof.
  induction a as [|c a IH]; [reflexivity|]. simpl. exact IH.
Qed.

Lemma replace_ansi_match (c : N) (t rest : jsstring) :
  match_ansi (c :: t) = Some rest ->
  replace_ansi 0 (c :: t) = replace_ansi (length t - length rest) t.
Proof. intros H. cbn [replace_ansi]. rewrite H. reflexivity. Qed.

(** Inside the parameters the greedy reading succeeds. *)
Lemma match_params_ok (f : N) (rest : jsstring) :
  final_class f = true -> is_digit f = false ->
  forall P n, params_ok n P = true ->
  match_params n (P ++ f :: rest) match_final = Some rest.
Proof.
  intros Ff Fd.
  assert (Fs : (f =? 59)%N = false).
  { destruct (f =? 59)%N eqn:E; [|reflexivity].
    apply N.eqb_eq in E. subst f. discriminate Ff. }
  assert (End : forall n, match_params n (f :: rest) match_final = Some rest).
  { intros n. destruct n; cbn [match_params]; rewrite ?Fd, Fs;
      cbn [match_final]; rewrite Ff; reflexivity. }
  induction P as [|c P IH]; intros n H; [apply End|].
  cbn [params_ok] in H. change ((c :: P) ++ f :: rest) with (c :: (P ++ f :: rest)).
  destruct (c =? 59)%N eqn:Ec.
  - apply N.eqb_eq in Ec. subst c.
    assert (D : is_digit 59 = false) by reflexivity.
    destruct n; cbn [match_params]; rewrite ?D; cbn [N.eqb Pos.eqb];
      rewrite (IH 4%nat H); reflexivity.
  - apply andb_true_iff in H as [Hd H]. destruct n as [|n]; [discriminate|].
    cbn [match_params]. rewrite Hd, (IH n H). reflexivity.
Qed.

Lemma match_ansi_csi (c0 f : N) (P rest : jsstring) :
  (c0 =? 27)%N || (c0 =? 155)%N = true ->
  csi_params P = true ->
  final_class f = true -> is_digit f = false ->
  match_ansi (c0 :: 91%N :: P ++ f :: rest) = Some rest.
Proof.
  intros H0 HP Ff Fd. unfold match_ansi. rewrite H0.
  cbn [match_intro]. change (intro_class 91) with true. cbv iota.
  destruct P as [|d P].
  - cbn [app match_intro]. rewrite (final_not_intro f Ff).
    rewrite Fd. cbn [orelse match_final]. rewrite Ff. reflexivity.
  - cbn [csi_params] in HP. apply andb_true_iff in HP as [Hd HP].
    change ((d :: P) ++ f :: rest) with (d :: (P ++ f :: rest)).
    cbn [match_intro]. rewrite (final_not_intro d (digit_final d Hd)).
    rewrite Hd, (match_params_ok f rest Ff Fd P 3%nat HP). reflexivity.
Qed.

(** X9: The text in front of the first escape character is kept as it is; in
    particular a string without escape characters is not changed. *)
Theorem strip_ansi_prefix (p s : jsstring) :
  escape_free p = true ->
  strip_ansi (p ++ s) = p ++ strip_ansi s /\ strip_ansi p = p.
Proof.
  intros Hp. unfold strip_ansi. split.
  - apply replace_ansi_prefix. exact Hp.
  - pose proof (replace_ansi_prefix p [] Hp) as H.
    rewrite app_nil_r in H. rewrite H.
    change (replace_ansi 0 []) with (@nil N). apply app_nil_r.
Qed.

Lemma strip_ansi_prefix_witness :
  escape_free (js "v18.0.0 ") = true /\
  strip_ansi (js "v18.0.0 " ++ [27%N] ++ js "[0m")
  = js "v18.0.0 " ++ strip_ansi ([27%N] ++ js "[0m") /\
  strip_ansi (js "v18.0.0 ") = js "v18.0.0 ".
Proof.
  split; [reflexivity|].
  apply (strip_ansi_prefix (js "v18.0.0 ") ([27%N] ++ js "[0m")).
  reflexivity.
Defined.

(** X10: A control sequence made of the introducer, an opening bracket,
    parameters of one to four digits separated by semicolons and a final
    letter is removed whole, and the text around it is kept. *)
Theorem strip_ansi_csi (p P rest : jsstring) (c0 f : N) :
  escape_free p = true ->
  (c0 =? 27)%N || (c0 =? 155)%N = true ->
  csi_params P = true ->
  final_class f = true -> is_digit f = false ->
  strip_ansi (p ++ c0 :: 91%N :: P ++ f :: rest) = p ++ strip_ansi rest.
Proof.
  intros Hp H0 HP Ff Fd. unfold strip_ansi.
  rewrite replace_ansi_prefix by exact Hp. f_equal.
  rewrite (replace_ansi_match c0 (91%N :: P ++ f :: rest) rest)
    by (apply match_ansi_csi; assumption).
  assert (E : 91%N :: P ++ f :: rest = (91%N :: P ++ [f]) ++ rest)
    by (simpl; rewrite <- app_assoc; reflexivity).
  rewrite E.
  replace (length ((91%N :: P ++ [f]) ++ rest) - length rest)%nat
    with (length (91%N :: P ++ [f])) by (rewrite length_app; lia).
  apply replace_ansi_skip.
Qed.

Lemma strip_ansi_csi_witness :
  escape_free (js "git ") = true /\
  (27 =? 27)%N || (27 =? 155)%N = true /\
  csi_params (js "1;31") = true /\
  final_class 109 = true /\ is_digit 109 = false /\
  strip_ansi (js "git " ++ 27%N :: 91%N :: js "1;31" ++ 109%N :: js "2.34")
  = js "git " ++ strip_ansi (js "2.34").
Proof.
  repeat (split; [reflexivity|]).
  apply (strip_ansi_csi (js "git ") (js "1;31") (js "2.34") 27 109);
    reflexivity.
Defined.

(** ** The log as JSON data *)

Section ObjMap.
Context {A B : Type}.
Variable f : A -> B.

Lemma keys_obj_map (o : jsobj A) : keys (obj_map f o) = keys o.
Proof. unfold keys, obj_map. rewrite map_map. reflexivity. Qed.

Lemma obj_get_map (o : jsobj A) (k : jsstring) :
  obj_get (obj_map f o) k = option_map f (obj_get o k).
Proof.
  induction o as [|[k' x] o IH]; simpl; [reflexivity|].
  destruct (str_eqb k' k); [reflexivity|exact IH].
Qed.

Lemma obj_has_map (o : jsobj A) (k : jsstring) :
  obj_has (obj_map f o) k = obj_has o k.
Proof. unfold obj_has. rewrite obj_get_map. destruct (obj_get o k); reflexivity. Qed.

Lemma obj_replace_map (o : jsobj A) (k : jsstring) (x : A) :
  obj_replace k (f x) (obj_map f o) = obj_map f (obj_replace k x o).
Proof.
  induction o as [|[k' x'] o IH]; simpl; [reflexivity|].
  destruct (str_eqb k' k); simpl; [reflexivity|]. rewrite IH. reflexivity.
Qed.

Lemma obj_insert_index_map (o : jsobj A) (i : N) (k : jsstring) (x : A) :
  obj_insert_index i k (f x) (obj_map f o)
  = obj_map f (obj_insert_index i k x o).
Proof.
  induction o as [|[k' x'] o IH]; simpl; [reflexivity|].
  destruct (array_index k') as [j|]; [|reflexivity].
  destruct (j <? i)%N; simpl; [|reflexivity]. rewrite IH. reflexivity.
Qed.

Lemma obj_set_map (o : jsobj A) (k : jsstring) (x : A) :
  obj_set (obj_map f o) k (f x) = obj_map f (obj_set o k x).
Proof.
  unfold obj_set. rewrite obj_has_map. destruct (obj_has o k).
  - apply obj_replace_map.
  - destruct (array_index k) as [i|]; [apply obj_insert_index_map|].
    unfold obj_map. rewrite map_app. reflexivity.
Qed.

Lemma obj_delete_map (o : jsobj A) (k : jsstring) :
  obj_delete k (obj_map f o) = obj_map f (obj_delete k o).
Proof.
  induction o as [|[k' x'] o IH]; simpl; [reflexivity|].
  destruct (str_eqb k' k); simpl; rewrite IH; reflexivity.
Qed.

Lemma obj_assign_map (src : jsobj A) : forall target,
  obj_assign (obj_map f target) (obj_map f src)
  = obj_map f (obj_assign target src).
Proof.
  unfold obj_assign.
  induction src as [|[k x] src IH]; intros target; simpl; [reflexivity|].
  rewrite obj_set_map. apply IH.
Qed.

Lemma obj_spread_map (o : jsobj A) :
  obj_spread (obj_map f o) = obj_map f (obj_spread o).
Proof. exact (obj_assign_map o []). Qed.

Lemma obj_literal1_map (k : jsstring) (x : A) :
  obj_literal1 k (f x) = obj_map f (obj_literal1 k x).
Proof. exact (obj_set_map [] k x). Qed.

End ObjMap.

(** X11: On a log whose values are all arrays the code does what [merge]
    does: it throws when [merge] throws, and otherwise returns the same
    log. *)
Theorem merge_json_arrays (L : jsobj (list JSON)) (v : jsstring) (r : JSON) :
  merge_json (log_json L) v r = completion_map log_json (merge L v r).
Proof.
  unfold merge_json, merge, log_json, completion_map.
  rewrite obj_spread_map, obj_get_map.
  destruct (obj_get (obj_spread L) v) as [b|] eqn:G; cbn [option_map truthy].
  - rewrite obj_get_map, G. cbn [option_map and_then].
    destruct (negb (includes (map JSON_stringify b) (JSON_stringify r))).
    + rewrite obj_delete_map.
      rewrite (obj_literal1_map JArr v (r :: b)), obj_assign_map.
      rewrite obj_get_map.
      destruct (obj_get (obj_assign (obj_literal1 v (r :: b))
                           (obj_delete v (obj_spread L))) v) as [b'|];
        cbn [option_map]; [|reflexivity].
      rewrite (obj_literal1_map JArr v b'), obj_assign_map. reflexivity.
    + rewrite obj_get_map, G. cbn [option_map].
      rewrite (obj_literal1_map JArr v b), obj_assign_map. reflexivity.
  - destruct (inherited v).
    { rewrite obj_get_map, G. reflexivity. }
    rewrite (obj_set_map JArr (obj_spread L) v []).
    rewrite obj_get_map.
    destruct (obj_get (obj_set (obj_spread L) v []) v) as [b|] eqn:G';
      cbn [option_map and_then].
    + destruct (negb (includes (map JSON_stringify b) (JSON_stringify r))).
      * rewrite obj_delete_map.
        rewrite (obj_literal1_map JArr v (r :: b)), obj_assign_map.
        rewrite obj_get_map.
        destruct (obj_get (obj_assign (obj_literal1 v (r :: b))
                    (obj_delete v (obj_set (obj_spread L) v []))) v) as [b'|];
          cbn [option_map]; [|reflexivity].
        rewrite (obj_literal1_map JArr v b'), obj_assign_map. reflexivity.
      * rewrite obj_get_map, G'. cbn [option_map].
        rewrite (obj_literal1_map JArr v b), obj_assign_map. reflexivity.
    + rewrite obj_get_set, str_eqb_refl in G'. discriminate.
Qed.

Section MergeJson.
Implicit Types (L : jsobj JSON) (v k : jsstring) (r : JSON).

(** [{[v]: y, ...o}] after [delete o[v]]. *)
Lemma rebuild_get {V : Type} (o : jsobj V) v (y : V) k :
  is_object o ->
  obj_get (obj_assign (obj_literal1 v y) (obj_delete v o)) k
  = if str_eqb v k then Some y else obj_get o k.
Proof.
  intros Ho.
  rewrite obj_get_assign by (apply is_object_NoDup, is_object_delete, Ho).
  rewrite obj_get_delete, obj_literal1_eq. simpl.
  destruct (str_eqb v k); [reflexivity|].
  destruct (obj_get o k); reflexivity.
Qed.

Lemma merge_json_bucket L v r b :
  is_object L -> obj_get L v = Some (JArr b) ->
  exists L', merge_json L v r = Returns L' /\
    forall k, obj_get L' k
              = if str_eqb v k
                then Some (JArr (if serialized_in r b then b else r :: b))
                else obj_get L k.
Proof.
  intros HL G. unfold merge_json.
  rewrite (obj_spread_object L HL), G. cbn [truthy]. rewrite G.
  unfold serialized_in.
  destruct (includes (map JSON_stringify b) (JSON_stringify r)) eqn:I;
    cbn [negb].
  - rewrite G. eexists. split; [reflexivity|]. intros k.
    rewrite (reorder_get L v (JArr b) k HL G).
    key_cases v k; [exact G | reflexivity].
  - pose proof (rebuild_get L v (JArr (r :: b)) v HL) as G2.
    rewrite str_eqb_refl in G2. rewrite G2.
    eexists. split; [reflexivity|]. intros k.
    rewrite reorder_get.
    + apply rebuild_get. exact HL.
    + apply is_object_assign, is_object_literal1.
    + exact G2.
Qed.

Lemma merge_json_fresh L v r :
  is_object L ->
  reads_inherited L v = false ->
  match obj_get L v with Some x => truthy x | None => false end = false ->
  merge_json L v r = merge_json (obj_set L v (JArr [])) v r.
Proof.
  intros HL Hi F. unfold merge_json.
  rewrite (obj_spread_object L HL).
  rewrite (obj_spread_object _ (is_object_set L v (JArr []) HL)).
  rewrite (obj_get_set L v (JArr []) v), str_eqb_refl. cbn [truthy].
  unfold reads_inherited, obj_has in Hi.
  destruct (obj_get L v) as [x|]; [rewrite F; reflexivity|].
  cbn [negb andb] in Hi. rewrite Hi. reflexivity.
Qed.

Lemma merge_json_inherited L v r :
  is_object L -> reads_inherited L v = true ->
  merge_json L v r = Throws TypeError.
Proof.
  intros HL Hi. unfold merge_json. rewrite (obj_spread_object L HL).
  unfold reads_inherited, obj_has in Hi.
  destruct (obj_get L v) as [x|] eqn:G; [discriminate|].
  cbn [negb andb] in Hi. rewrite Hi, G. reflexivity.
Qed.

Lemma merge_json_get L v r :
  is_object L ->
  reads_inherited L v = false ->
  match kind_of (obj_get L v) with
  | Other => merge_json L v r = Throws TypeError
  | _ =>
      exists L', merge_json L v r = Returns L' /\
        forall k, obj_get L' k
                  = if str_eqb v k
                    then Some (JArr (merged_bucket (obj_get L v) r))
                    else obj_get L k
  end.
Proof.
  intros HL Hi.
  assert (Fresh :
    match obj_get L v with Some x => truthy x | None => false end = false ->
    merged_bucket (obj_get L v) r = [r] ->
    exists L', merge_json L v r = Returns L' /\
      forall k, obj_get L' k
                = if str_eqb v k
                  then Some (JArr (merged_bucket (obj_get L v) r))
                  else obj_get L k).
  { intros F B. rewrite (merge_json_fresh L v r HL Hi F), B.
    destruct (merge_json_bucket (obj_set L v (JArr [])) v r []
                (is_object_set L v (JArr []) HL)) as (L' & -> & HL').
    { rewrite obj_get_set, str_eqb_refl. reflexivity. }
    exists L'. split; [reflexivity|]. intros k. rewrite HL', obj_get_set.
    destruct (str_eqb v k); reflexivity. }
  destruct (obj_get L v) as [x|] eqn:G.
  - destruct x as [|b|n|s|b|o]; cbn [kind_of truthy] in *;
      try (apply Fresh; reflexivity).
    + destruct b; [|apply Fresh; reflexivity].
      unfold merge_json. rewrite (obj_spread_object L HL), G.
      cbn [truthy]. rewrite G. reflexivity.
    + destruct (negb (str_eqb n (js "0"))) eqn:T;
        [|apply Fresh; reflexivity].
      unfold merge_json. rewrite (obj_spread_object L HL), G.
      cbn [truthy]. rewrite T, G. reflexivity.
    + destruct s as [|c s]; [apply Fresh; reflexivity|].
      unfold merge_json. rewrite (obj_spread_object L HL), G.
      cbn [truthy]. rewrite G. reflexivity.
    + destruct (merge_json_bucket L v r b HL G) as (L' & -> & HL').
      exists L'. split; [reflexivity|]. exact HL'.
    + unfold merge_json. rewrite (obj_spread_object L HL), G.
      cbn [truthy]. rewrite G. reflexivity.
  - apply Fresh; reflexivity.
Qed.

End MergeJson.

(** X12: The call throws in two cases and no other: when the log holds,
    under the version, a value that counts as true and is not an array,
    and when it holds none and the version names a member of
    [Object.prototype].  A value that counts as false is dropped like a
    missing one: the bucket is then the new record alone.  An array gets
    the record in front unless it holds one with the same serialization. *)
Theorem merge_json_outcome (L : jsobj JSON) (v : jsstring) (r : JSON) :
  property_order L = true ->
  match merge_json L v r with
  | Returns L' =>
      reads_inherited L v = false /\
      kind_of (obj_get L v) <> Other /\
      obj_get L' v = Some (JArr (merged_bucket (obj_get L v) r))
  | Throws e =>
      e = TypeError /\
      (reads_inherited L v = true \/ kind_of (obj_get L v) = Other)
  end.
Proof.
  intros HL. apply property_order_object in HL.
  destruct (reads_inherited L v) eqn:Hi.
  { rewrite merge_json_inherited by assumption. auto. }
  pose proof (merge_json_get L v r HL Hi) as H.
  destruct (kind_of (obj_get L v)) eqn:K;
    try (destruct H as (L' & -> & HL'); split; [reflexivity|];
         split; [discriminate | rewrite HL', str_eqb_refl; reflexivity]).
  rewrite H. auto.
Qed.

Lemma merge_json_outcome_witness :
  property_order log_with_zero = true /\
  match merge_json log_with_zero (js "1.0.0") recordA with
  | Returns L' =>
      reads_inherited log_with_zero (js "1.0.0") = false /\
      kind_of (obj_get log_with_zero (js "1.0.0")) <> Other /\
      obj_get L' (js "1.0.0")
      = Some (JArr (merged_bucket (obj_get log_with_zero (js "1.0.0"))
                      recordA))
  | Throws e =>
      e = TypeError /\
      (reads_inherited log_with_zero (js "1.0.0") = true \/
       kind_of (obj_get log_with_zero (js "1.0.0")) = Other)
  end.
Proof.
  split; [reflexivity|].
  apply (merge_json_outcome log_with_zero (js "1.0.0") recordA). reflexivity.
Defined.

(** X13: When the call returns, the values of the other versions are the ones
    the log had, arrays or not. *)
Theorem merge_json_other_values (L L' : jsobj JSON) (v k : jsstring)
  (r : JSON) :
  property_order L = true -> str_eqb v k = false ->
  merge_json L v r = Returns L' ->
  obj_get L' k = obj_get L k.
Proof.
  intros HL NE E. apply property_order_object in HL.
  destruct (reads_inherited L v) eqn:Hi.
  { rewrite merge_json_inherited in E by assumption. discriminate. }
  pose proof (merge_json_get L v r HL Hi) as H.
  destruct (kind_of (obj_get L v));
    try (destruct H as (L2 & E2 & HL2); rewrite E in E2;
         injection E2 as <-; rewrite HL2, NE; reflexivity).
  rewrite E in H. discriminate.
Qed.

Lemma merge_json_other_values_witness :
  exists L',
    property_order log_with_zero = true /\
    str_eqb (js "1.0.0") (js "0.9.0") = false /\
    merge_json log_with_zero (js "1.0.0") recordA = Returns L' /\
    obj_get L' (js "0.9.0") = obj_get log_with_zero (js "0.9.0").
Proof.
  eexists. split; [reflexivity|]. split; [reflexivity|].
  split; [vm_compute; reflexivity|].
  apply (merge_json_other_values log_with_zero _ (js "1.0.0") (js "0.9.0")
           recordA); reflexivity.
Defined.

(** ** The search for package.json *)

Section PathFacts.
Variable dirname : jsstring -> jsstring.
Variable path_join : jsstring -> jsstring -> jsstring.
Variable existsSync : jsstring -> bool.

(** The loop, from any state. *)
Lemma walkUp_loop_spec fuel : forall pwd output out,
  walkUp_loop dirname fuel pwd output = Some out ->
  exists n, out = output ++ ancestors dirname n pwd /\
            is_root dirname (ancestor dirname n pwd) = true /\
            forall i, (i < n)%nat ->
                      is_root dirname (ancestor dirname i pwd) = false.
Proof.
  induction fuel as [|fuel IH]; intros pwd output out; simpl; [discriminate|].
  destruct (str_eqb (dirname pwd) pwd) eqn:E; simpl.
  - intros [= <-]. exists 0%nat. simpl. rewrite app_nil_r.
    split; [reflexivity|]. split; [exact E|]. intros i Hi. lia.
  - intros H. destruct (IH _ _ _ H) as (n & -> & Hr & Hn).
    exists (S n). simpl. rewrite <- app_assoc. split; [reflexivity|].
    split; [exact Hr|]. intros [|i] Hi; [exact E|]. apply Hn. lia.
Qed.

Section Measure.
Variable measure : jsstring -> nat.
Hypothesis parent_smaller :
  forall p, is_root dirname p = false -> (measure (dirname p) < measure p)%nat.

Lemma walkUp_loop_returns fuel : forall pwd output,
  (measure pwd < fuel)%nat ->
  exists out, walkUp_loop dirname fuel pwd output = Some out.
Proof.
  induction fuel as [|fuel IH]; intros pwd output Hf; [lia|].
  simpl. destruct (str_eqb (dirname pwd) pwd) eqn:E; simpl; [eauto|].
  apply IH. pose proof (parent_smaller pwd E). lia.
Qed.

End Measure.

Lemma first_package_json_ancestors n : forall p,
  match first_package_json path_join existsSync (ancestors dirname n p) with
  | Some source =>
      exists i, (i < n)%nat /\
        source = path_join (ancestor dirname i p) (js "package.json") /\
        existsSync source = true /\
        forall j, (j < i)%nat ->
          existsSync (path_join (ancestor dirname j p) (js "package.json"))
          = false
  | None =>
      forall i, (i < n)%nat ->
        existsSync (path_join (ancestor dirname i p) (js "package.json"))
        = false
  end.
Proof.
  induction n as [|n IH]; intros p; simpl; [intros i Hi; lia|].
  destruct (existsSync (path_join p (js "package.json"))) eqn:E.
  - exists 0%nat. repeat split; [lia | exact E | intros j Hj; lia].
  - specialize (IH (dirname p)).
    destruct (first_package_json path_join existsSync
                (ancestors dirname n (dirname p))) as [s|].
    + destruct IH as (i & Hi & -> & Hs & Hb). exists (S i).
      repeat split; [lia | exact Hs |].
      intros [|j] Hj; [exact E|]. apply Hb. lia.
    + intros [|i] Hi; [exact E|]. apply IH. lia.
Qed.

End PathFacts.

(** X14: When every folder that is not its own parent has a smaller parent,
    [walkUp] returns: the working directory and the folders above it, from
    the nearest on, up to but without the folder that is its own parent. *)
Theorem walkUp_returns (dirname : jsstring -> jsstring)
  (measure : jsstring -> nat) (cwd : jsstring) (fuel : nat) :
  (forall p, is_root dirname p = false ->
             (measure (dirname p) < measure p)%nat) ->
  (measure cwd < fuel)%nat ->
  exists n,
    walkUp dirname fuel cwd = Some (ancestors dirname n cwd) /\
    is_root dirname (ancestor dirname n cwd) = true /\
    forall i, (i < n)%nat -> is_root dirname (ancestor dirname i cwd) = false.
Proof.
  intros Hm Hf. unfold walkUp.
  destruct (walkUp_loop_returns dirname measure Hm fuel cwd [] Hf)
    as (out & E).
  destruct (walkUp_loop_spec dirname fuel cwd [] out E) as (n & -> & H).
  exists n. split; [exact E | exact H].
Qed.

Lemma drop_segment_length (r : jsstring) :
  (length (drop_segment r) <= length r)%nat.
Proof.
  induction r as [|c r IH]; simpl; [lia|].
  destruct (c =? 47)%N; simpl; lia.
Qed.

Lemma demo_parent_smaller (p : jsstring) :
  is_root demo_dirname p = false ->
  (demo_measure (demo_dirname p) < demo_measure p)%nat.
Proof.
  unfold is_root, demo_dirname, demo_measure. intros R.
  destruct (rev (drop_segment (rev p))) as [|c d] eqn:E.
  - simpl. rewrite str_eqb_sym, R. lia.
  - assert (Hl : (length (c :: d) < length p)%nat).
    { rewrite <- E, length_rev.
      destruct (rev p) as [|x r] eqn:Er.
      - simpl in E. discriminate.
      - rewrite <- (length_rev p), Er. simpl.
        destruct (x =? 47)%N; [lia|].
        pose proof (drop_segment_length r). lia. }
    destruct (str_eqb p (js "/")) eqn:P.
    + apply str_eqb_eq in P. subst p. discriminate E.
    + destruct (str_eqb (c :: d) (js "/")); lia.
Qed.

Lemma walkUp_returns_witness :
  exists n,
    walkUp demo_dirname 30 (js "/home/me/project/src")
    = Some (ancestors demo_dirname n (js "/home/me/project/src")) /\
    is_root demo_dirname (ancestor demo_dirname n (js "/home/me/project/src"))
    = true /\
    forall i, (i < n)%nat ->
      is_root demo_dirname (ancestor demo_dirname i (js "/home/me/project/src"))
      = false.
Proof.
  apply (walkUp_returns demo_dirname demo_measure (js "/home/me/project/src")
           30 demo_parent_smaller).
  vm_compute. lia.
Defined.

(** X15: Under the same condition [getPathToPackageJson] returns.  The result
    is the path of package.json in the nearest folder that has one, the
    working directory first; the folder that is its own parent is not looked
    into, and the result is [undefined] when no folder below it has the
    file. *)
Theorem getPathToPackageJson_nearest (dirname : jsstring -> jsstring)
  (path_join : jsstring -> jsstring -> jsstring)
  (existsSync : jsstring -> bool)
  (measure : jsstring -> nat) (cwd : jsstring) (fuel : nat) :
  (forall p, is_root dirname p = false ->
             (measure (dirname p) < measure p)%nat) ->
  (measure cwd < fuel)%nat ->
  exists n result,
    getPathToPackageJson dirname path_join existsSync fuel cwd = Some result /\
    is_root dirname (ancestor dirname n cwd) = true /\
    match result with
    | Some source =>
        exists i, (i < n)%nat /\
          is_root dirname (ancestor dirname i cwd) = false /\
          source = path_join (ancestor dirname i cwd) (js "package.json") /\
          existsSync source = true /\
          forall j, (j < i)%nat ->
            existsSync (path_join (ancestor dirname j cwd) (js "package.json"))
            = false
    | None =>
        forall i, (i < n)%nat ->
          existsSync (path_join (ancestor dirname i cwd) (js "package.json"))
          = false
    end.
Proof.
  intros Hm Hf. unfold getPathToPackageJson, walkUp.
  destruct (walkUp_loop_returns dirname measure Hm fuel cwd [] Hf)
    as (out & E).
  destruct (walkUp_loop_spec dirname fuel cwd [] out E)
    as (n & -> & Hr & Hn).
  rewrite E. exists n. eexists. split; [reflexivity|]. split; [exact Hr|].
  pose proof (first_package_json_ancestors dirname path_join existsSync n cwd)
    as F.
  simpl app in *.
  destruct (first_package_json path_join existsSync
              (ancestors dirname n cwd)) as [s|]; [|exact F].
  destruct F as (i & Hi & -> & Hs & Hb). exists i.
  repeat split; [exact Hi | apply Hn; exact Hi | exact Hs | exact Hb].
Qed.

Lemma getPathToPackageJson_nearest_witness :
  exists n result,
    getPathToPackageJson demo_dirname demo_join demo_existsSync 30
      (js "/home/me/project/src") = Some result /\
    is_root demo_dirname (ancestor demo_dirname n (js "/home/me/project/src"))
    = true /\
    match result with
    | Some source =>
        exists i, (i < n)%nat /\
          is_root demo_dirname
            (ancestor demo_dirname i (js "/home/me/project/src")) = false /\
          source = demo_join
                     (ancestor demo_dirname i (js "/home/me/project/src"))
                     (js "package.json") /\
          demo_existsSync source = true /\
          forall j, (j < i)%nat ->
            demo_existsSync
              (demo_join (ancestor demo_dirname j (js "/home/me/project/src"))
                 (js "package.json"))
            = false
    | None =>
        forall i, (i < n)%nat ->
          demo_existsSync
            (demo_join (ancestor demo_dirname i (js "/home/me/project/src"))
               (js "package.json"))
          = false
    end.
Proof.
  apply (getPathToPackageJson_nearest demo_dirname demo_join demo_existsSync
           demo_measure (js "/home/me/project/src") 30 demo_parent_smaller).
  vm_compute. lia.
Defined.

(** ** The command line *)

Lemma In_join_sep (sep : jsstring) (c : N) (a b : jsstring)
  (rest : list jsstring) :
  In c sep -> In c (join sep (a :: b :: rest)).
Proof.
  intros H. cbn [join]. apply in_or_app. right.
  apply in_or_app. left. exact H.
Qed.

Lemma slice_to_zero {A : Type} (a : list A) (start : integer_or_infinity) :
  slice a start (Int 0) = [].
Proof.
  unfold slice. cbn [relative]. change (0 <? 0)%Z with false. cbv iota.
  assert (H0 : (0 <= relative (Z.of_nat (length a)) start)%Z).
  { unfold relative. destruct start as [|z|]; try lia.
    destruct (z <? 0)%Z eqn:E; [lia|]. apply Z.ltb_ge in E. lia. }
  replace (Z.max (Z.min 0 (Z.of_nat (length a))
                  - relative (Z.of_nat (length a)) start) 0) with 0%Z by lia.
  reflexivity.
Qed.

(** X16: Whatever follows [generate] on the command line, the options are
    the defaults: indent 2, ./package.json and ./version-log.json, and no
    argument is reported as invalid.  The end of the slice of line 632 is
    the array of the arguments itself, which as a number is NaN since it
    has three elements or more, and the slice is empty. *)
Theorem command_line_ignores_flags (number : Type)
  (StringToNumber : jsstring -> option number)
  (ToIntegerOrInfinity : number -> integer_or_infinity) (two : number)
  (argv : list jsstring) :
  (forall s, In 44%N s -> StringToNumber s = None) ->
  nth_error argv 2 = Some (js "generate") ->
  command_line number StringToNumber ToIntegerOrInfinity two argv
  = Some (default_options number two, []).
Proof.
  intros Hc H2. unfold command_line. rewrite H2, str_eqb_refl.
  destruct argv as [|a [|b rest]]; try discriminate.
  unfold array_to_integer.
  rewrite (Hc _ (In_join_sep (js ",") 44%N a b rest (or_introl eq_refl))).
  rewrite slice_to_zero. reflexivity.
Qed.

Lemma demo_comma_NaN (s : jsstring) :
  In 44%N s -> demo_StringToNumber s = None.
Proof.
  intros H. unfold demo_StringToNumber. destruct s as [|c s]; [destruct H|].
  destruct (forallb is_digit (c :: s)) eqn:F; [|reflexivity].
  rewrite forallb_forall in F. specialize (F _ H). discriminate.
Qed.

Lemma command_line_ignores_flags_witness :
  nth_error demo_argv 2 = Some (js "generate") /\
  command_line N demo_StringToNumber demo_ToIntegerOrInfinity 2%N demo_argv
  = Some (default_options N 2%N, []).
Proof.
  split; [reflexivity|].
  apply (command_line_ignores_flags N demo_StringToNumber
           demo_ToIntegerOrInfinity 2%N demo_argv demo_comma_NaN).
  reflexivity.
Defined.

(** ** The earlier variants *)

Lemma assign_values (P : JSON -> Prop) (o : object) (k : jsstring) (x : JSON) :
  P x -> Forall (fun kx => P (snd kx)) (properties o) ->
  Forall (fun kx => P (snd kx)) (properties (assign o k x)).
Proof.
  intros Px Po. unfold assign.
  destruct (str_eqb k proto_key && inherits o
            && negb (obj_has (properties o) k)).
  - destruct x; exact Po.
  - cbn [properties]. rewrite Forall_forall in Po |- *.
    intros kx H. apply In_obj_set in H as [-> | H]; [exact Px | auto].
Qed.

Section Variant1Facts.
Variable platform : jsstring.
Variable spawnSync : jsstring -> list JSON -> SpawnSyncReturns.
Implicit Types (c t : JSON) (e : object) (tr : Trace) (name k : jsstring).

Lemma variant1_try_command name c e tr :
  Variant1.try_command spawnSync name c e tr
  = (if Variant1.skipped c then Returns e else Throws TypeError, tr).
Proof.
  unfold Variant1.try_command, Variant1.skipped.
  destruct c as [|b|n|s|items|props]; try reflexivity.
  cbn [prop]. destruct (obj_get props (js "versionCommands")) as [x|];
    [|reflexivity].
  destruct x; reflexivity.
Qed.

Lemma variant1_for_of_try name cs : forall e tr,
  for_of cs (Variant1.try_command spawnSync name) e tr
  = (if forallb Variant1.skipped cs then Returns e else Throws TypeError, tr).
Proof.
  induction cs as [|c cs IH]; intros e tr; [reflexivity|].
  cbn [for_of forallb]. unfold bind. rewrite variant1_try_command.
  destruct (Variant1.skipped c); [apply IH | reflexivity].
Qed.

Lemma variant1_probe t e tr :
  Variant1.probe spawnSync t e tr
  = (if negb (is_null t) && named t
        && forallb Variant1.skipped (candidates t)
     then Returns (assign e (trackable_key t) JNull)
     else Throws TypeError, tr).
Proof.
  unfold Variant1.probe, candidates, trackable_key, named, trackable_name.
  destruct t as [|b|n|s|items|props]; try reflexivity.
  cbn [is_null negb andb].
  destruct (to_property_key (prop (JObj props) (js "name"))) as [name|];
    [|reflexivity].
  cbn [andb].
  destruct (prop (JObj props) (js "versionCommands")) as [x|];
    [|reflexivity].
  destruct x; try reflexivity. apply variant1_for_of_try.
Qed.

Lemma variant1_for_of_probe track : forall e tr,
  for_of track (Variant1.probe spawnSync) e tr
  = (if Variant1.well_formed_track track
     then Returns (fold_left (fun e t => assign e (trackable_key t) JNull)
                     track e)
     else Throws TypeError, tr).
Proof.
  induction track as [|t track IH]; intros e tr; [reflexivity|].
  cbn [for_of Variant1.well_formed_track forallb fold_left]. unfold bind.
  rewrite variant1_probe.
  destruct (negb (is_null t) && named t
            && forallb Variant1.skipped (candidates t));
    [apply IH | reflexivity].
Qed.

Lemma fold_null_get track : forall e k,
  str_eqb k proto_key = false ->
  obj_get (properties
             (fold_left (fun e t => assign e (trackable_key t) JNull)
                track e)) k
  = if existsb (fun t => str_eqb (trackable_key t) k) track
    then Some JNull else obj_get (properties e) k.
Proof.
  induction track as [|t track IH]; intros e k Hk; [reflexivity|].
  cbn [fold_left existsb]. rewrite IH by exact Hk.
  destruct (existsb (fun t0 => str_eqb (trackable_key t0) k) track);
    [rewrite orb_true_r; reflexivity|].
  rewrite orb_false_r. key_cases (trackable_key t) k.
  - apply assign_get_plain. exact Hk.
  - apply assign_get_other. exact E.
Qed.

Lemma fold_null_values track : forall e,
  Forall (fun kx => snd kx = JNull) (properties e) ->
  Forall (fun kx => snd kx = JNull)
    (properties (fold_left (fun e t => assign e (trackable_key t) JNull)
                   track e)).
Proof.
  induction track as [|t track IH]; intros e He; [exact He|].
  cbn [fold_left]. apply IH.
  apply (assign_values (fun x => x = JNull)); [reflexivity | exact He].
Qed.

(** X17: In the first variant no process is ever spawned: the test of
    line 60 lets through only a candidate that is an object, which the
    pattern of line 61 cannot take apart.  The call throws for such a
    candidate, for a [null] trackable or candidate and for a name that
    cannot be converted to a property key; otherwise every entry recorded
    is [null], and every key of a trackable other than [__proto__] has
    one. *)
Theorem variant1_never_spawns (track : list JSON) tr :
  snd (Variant1.build_versionEntry platform spawnSync track tr) = tr /\
  match fst (Variant1.build_versionEntry platform spawnSync track tr) with
  | Returns versionEntry =>
      Variant1.well_formed_track track = true /\
      exists executables,
        versionEntry = JObj [(js "platform", JStr platform);
                             (js "executables", JObj executables)] /\
        Forall (fun kx => snd kx = JNull) executables /\
        forall k, str_eqb k proto_key = false ->
                  obj_get executables k
                  = if existsb (fun t => str_eqb (trackable_key t) k) track
                    then Some JNull else None
  | Throws e => e = TypeError /\ Variant1.well_formed_track track = false
  end.
Proof.
  unfold Variant1.build_versionEntry, bind. rewrite variant1_for_of_probe.
  destruct (Variant1.well_formed_track track); cbn [fst snd ret].
  - split; [reflexivity|]. split; [reflexivity|]. eexists.
    split; [reflexivity|]. split.
    + apply fold_null_values. constructor.
    + intros k Hk. apply fold_null_get. exact Hk.
  - repeat split.
Qed.

End Variant1Facts.

Section Variant2Facts.
Variable platform : jsstring.
Variable execSync : option JSON -> option jsstring.
Implicit Types (t : JSON) (e : object) (k : jsstring).

Lemma variant2_probe t e :
  Variant2.probe execSync t e
  = if negb (is_null t) && named t
    then Returns (assign e (trackable_key t)
                    (Variant2.trackable_version execSync t))
    else Throws TypeError.
Proof.
  unfold Variant2.probe, Variant2.trackable_version, trackable_key, named,
    trackable_name.
  destruct t; try reflexivity; cbn [is_null negb andb];
    destruct (to_property_key _); try reflexivity;
    match goal with
    | |- context [execSync ?x] => destruct (execSync x); reflexivity
    end.
Qed.

Lemma variant2_probe_all track : forall e,
  Variant2.probe_all execSync track e
  = if forallb (fun t => negb (is_null t) && named t) track
    then Returns (fold_left
                    (fun e t => assign e (trackable_key t)
                                  (Variant2.trackable_version execSync t))
                    track e)
    else Throws TypeError.
Proof.
  induction track as [|t track IH]; intros e; [reflexivity|].
  cbn [Variant2.probe_all forallb fold_left]. rewrite variant2_probe.
  destruct (negb (is_null t) && named t); [apply IH | reflexivity].
Qed.

Lemma fold_version_get track : forall k,
  str_eqb k proto_key = false ->
  obj_get (properties
             (fold_left
                (fun e t => assign e (trackable_key t)
                              (Variant2.trackable_version execSync t))
                track empty_object)) k
  = option_map (Variant2.trackable_version execSync) (last_trackable track k).
Proof.
  induction track as [|t track IH] using rev_ind; intros k Hk;
    [reflexivity|].
  rewrite fold_left_app. cbn [fold_left].
  unfold last_trackable. rewrite rev_app_distr. simpl.
  key_cases (trackable_key t) k.
  - apply assign_get_plain. exact Hk.
  - rewrite assign_get_other by exact E. apply IH. exact Hk.
Qed.

(** X18: In the second variant a command that fails never aborts the call:
    it throws only for a trackable that is [null] or whose name cannot be
    converted to a property key.  Otherwise the entry of a key other than
    [__proto__] is what the last trackable recorded under it gives: the
    trimmed output of its command, also when that is empty or holds escape
    codes, and [null] when the command failed. *)
Theorem variant2_entries (track : list JSON) :
  match Variant2.build_versionEntry platform execSync track with
  | Returns versionEntry =>
      forallb (fun t => negb (is_null t) && named t) track = true /\
      exists executables,
        versionEntry = JObj [(js "platform", JStr platform);
                             (js "executables", JObj executables)] /\
        forall k, str_eqb k proto_key = false ->
                  obj_get executables k
                  = option_map (Variant2.trackable_version execSync)
                      (last_trackable track k)
  | Throws e =>
      e = TypeError /\
      forallb (fun t => negb (is_null t) && named t) track = false
  end.
Proof.
  unfold Variant2.build_versionEntry. rewrite variant2_probe_all.
  destruct (forallb (fun t => negb (is_null t) && named t) track).
  - split; [reflexivity|]. eexists. split; [reflexivity|].
    apply fold_version_get.
  - split; reflexivity.
Qed.

End Variant2Facts.

(** ** The added models on concrete inputs *)

Example merge_json_object_throws :
  merge_json log_with_object (js "1.0.0") recordA = Throws TypeError.
Proof. reflexivity. Qed.

Example merge_json_zero_replaced :
  merge_json log_with_zero (js "1.0.0") recordA
  = Returns [(js "1.0.0", JArr [recordA]); (js "0.9.0", JStr (js "first"))].
Proof. reflexivity. Qed.

Example walkUp_project :
  walkUp demo_dirname 30 (js "/home/me/project/src")
  = Some [js "/home/me/project/src"; js "/home/me/project"; js "/home/me";
          js "/home"].
Proof. reflexivity. Qed.

Example getPathToPackageJson_project :
  getPathToPackageJson demo_dirname demo_join demo_existsSync 30
    (js "/home/me/project/src")
  = Some (Some (js "/home/me/package.json")).
Proof. reflexivity. Qed.

(** A package.json in the root folder is not found. *)
Example getPathToPackageJson_root :
  demo_existsSync (demo_join (js "/") (js "package.json")) = true /\
  getPathToPackageJson demo_dirname demo_join demo_existsSync 30
    (js "/srv/app")
  = Some None.
Proof. split; reflexivity. Qed.

Example command_line_demo :
  command_line N demo_StringToNumber demo_ToIntegerOrInfinity 2%N demo_argv
  = Some ({| opt_indent := VNumber N 2%N;
             opt_source := VString N (js "./package.json");
             opt_log := VString N (js "./version-log.json") |}, []).
Proof. reflexivity. Qed.

(** What the loop of lines 633-644 makes of the same arguments when it is
    given them. *)
Example parse_args_demo :
  parse_args N (skipn 3 demo_argv) (default_options N 2%N) []
  = ({| opt_indent := VString N (js "4");
        opt_source := VString N (js "./package.json");
        opt_log := VString N (js "builds.json") |}, []).
Proof. reflexivity. Qed.

Example variant1_git :
  Variant1.build_versionEntry (js "linux") demo_spawnSync [git_trackable] []
  = (Returns (record_of [(js "git", JNull)]), []).
Proof. reflexivity. Qed.

Example variant1_object_candidate :
  Variant1.build_versionEntry (js "linux") demo_spawnSync
    [object_candidate_trackable] []
  = (Throws TypeError, []).
Proof. reflexivity. Qed.

Example variant2_git :
  Variant2.build_versionEntry (js "linux")
    (fun command =>
       match command with
       | Some (JStr _) => Some (js "git version 2.34.1" ++ [10%N])
       | _ => None
       end)
    [JObj [(js "name", JStr (js "git"));
           (js "versionCommand", JStr (js "git --version"))];
     JObj [(js "name", JStr (js "npm"))]]
  = Returns (record_of [(js "git", JStr (js "git version 2.34.1"));
                        (js "npm", JNull)]).
Proof. reflexivity. Qed.

(** ** The merge of the earlier variants *)








Example variant1_merge_object :
  Variant1.merge log_with_object (js "1.0.0") recordA
  = Returns [(js "1.0.0", JArr [recordA]); (js "0.9.0", JArr [recordA])].
Proof. reflexivity. Qed.

(** The version [constructor], which the log does not hold: the later
    merge throws and the earlier one returns. *)
Example variants_differ_on_inherited :
  merge_json [] (js "constructor") recordA = Throws TypeError /\
  Variant1.merge [] (js "constructor") recordA
  = Returns [(js "constructor", JArr [recordA])].
Proof. split; reflexivity. Qed.
